(** * allow2automate-playstation: token lifecycle, request pipeline, plugin

    A shallow embedding of [src/playstation-api.js] (class [PlayStationAPI],
    the second half of [src/unnamed/part_000], whose line numbers are used
    below) and of [index.js] (class [PlayStationPlugin]).

    - Module [Pipeline] is a small-step machine for the request queue of
      [PlayStationAPI] ([request] lines 597-600 and [_processQueue]): every
      [await] of [_processQueue] is a program point, and the scheduler
      (submissions, replies of the transport, timers, passing time) is a list
      of labels, so that all interleavings of concurrent callers are covered.
      A timer is taken not to fire before its delay has passed.
    - Module [Psn] is the sequential view: one caller that awaits each
      operation before the next one, with no other activation running in
      between; the remote side and the clock are given by the world.  It
      holds the token manager, the API methods and the plugin.

    JavaScript values are modelled by their typed shape: a possibly missing
    property is an [option], a thrown [Error] is a record with its [message],
    and truthiness ([!x], [x && y], [x || d]) is written out.  Listeners of
    the plugin's events are observers: they do not throw. *)

From stdpp Require Import base gmap strings list pretty.
From Stdlib Require Import ZArith Lia.

Open Scope Z_scope.

(** ** Values shared by both views *)

(** An [Error] object: [error.message], and the HTTP status that an axios
    error carries when the server answered outside 2xx. *)
Record Error := mkError { message : string; status : option Z }.

(** [new Error(msg)] *)
Definition newError (msg : string) : Error := mkError msg None.

(** The body of a request ([data] of [request], [null] when absent). *)
Inductive Payload :=
| PlayTimeSettings (dailyPlayTimeLimit : Z) (enabled : bool)
| RestrictedContent (contentId type action : string).

(** [response.data]: a JSON object, each property possibly missing. *)
Record Body := mkBody {
  access_token : option string;
  refresh_token : option string;
  expires_in : option Z;
  todayPlayTime : option Z;
  weekPlayTime : option Z;
  status_ : option string;
  currentTitle : option string;
  lastPlayedAt : option string;
  allowed : bool;
  remaining : option Z
}.

(** What an outbound call ends with: [response.data] of a 2xx answer, or the
    error axios rejects with (transport failure or non-2xx answer). *)
Inductive Outcome :=
| Resolved (data : Body)
| Rejected (error : Error).

(** A body with no property set. *)
Definition no_body : Body :=
  mkBody None None None None None None None None false None.

(** The error of a call that never reached the server. *)
Definition network_error : Error := mkError "Network Error" None.

(** ** The request pipeline as a small-step machine *)

Module Pipeline.

(** An element of [requestQueue] (line 598).  [promise] identifies the
    [resolve]/[reject] pair, that is the promise returned to one caller. *)
Record QueuedRequest := mkRequest {
  method : string;
  endpoint : string;
  data : option Payload;
  promise : nat
}.

(** What the transport and the callers observe, with [Date.now()]. *)
Inductive Event :=
| Sent (t : Z) (r : QueuedRequest)                 (* axios(...) called, line 617 *)
| Settled (t : Z) (r : QueuedRequest) (o : Outcome) (* resolve / reject, lines 628, 630 *)
| Slept (t : Z) (ms : Z)                           (* setTimeout armed, line 635 *)
| Idle (t : Z).                                    (* isProcessingQueue = false, line 639 *)

(** Where an activation of [_processQueue] is suspended. *)
Inductive Point :=
| AtAxios (r : QueuedRequest)   (* await axios(...), line 617 *)
| AtDelay (due : Z).            (* await new Promise(setTimeout), line 635 *)

Record State := mkState {
  requestQueue : list QueuedRequest;
  isProcessingQueue : bool;
  RATE_LIMIT_MS : Z;
  suspended : list Point;        (* activations of _processQueue at an await *)
  now : Z;                       (* the clock *)
  pushed : list QueuedRequest;   (* every request pushed so far, oldest first *)
  trace : list Event             (* newest first *)
}.

(** The constructor, lines 496-498. *)
Definition init : State :=
  {| requestQueue := []; isProcessingQueue := false; RATE_LIMIT_MS := 100;
     suspended := []; now := 0; pushed := []; trace := [] |}.

Definition set_requestQueue (q : list QueuedRequest) (s : State) : State :=
  {| requestQueue := q; isProcessingQueue := isProcessingQueue s;
     RATE_LIMIT_MS := RATE_LIMIT_MS s; suspended := suspended s; now := now s;
     pushed := pushed s; trace := trace s |}.

Definition set_isProcessingQueue (b : bool) (s : State) : State :=
  {| requestQueue := requestQueue s; isProcessingQueue := b;
     RATE_LIMIT_MS := RATE_LIMIT_MS s; suspended := suspended s; now := now s;
     pushed := pushed s; trace := trace s |}.

Definition set_suspended (a : list Point) (s : State) : State :=
  {| requestQueue := requestQueue s; isProcessingQueue := isProcessingQueue s;
     RATE_LIMIT_MS := RATE_LIMIT_MS s; suspended := a; now := now s;
     pushed := pushed s; trace := trace s |}.

Definition set_now (t : Z) (s : State) : State :=
  {| requestQueue := requestQueue s; isProcessingQueue := isProcessingQueue s;
     RATE_LIMIT_MS := RATE_LIMIT_MS s; suspended := suspended s; now := t;
     pushed := pushed s; trace := trace s |}.

Definition set_pushed (l : list QueuedRequest) (s : State) : State :=
  {| requestQueue := requestQueue s; isProcessingQueue := isProcessingQueue s;
     RATE_LIMIT_MS := RATE_LIMIT_MS s; suspended := suspended s; now := now s;
     pushed := l; trace := trace s |}.

Definition observe (e : Event) (s : State) : State :=
  {| requestQueue := requestQueue s; isProcessingQueue := isProcessingQueue s;
     RATE_LIMIT_MS := RATE_LIMIT_MS s; suspended := suspended s; now := now s;
     pushed := pushed s; trace := e :: trace s |}.

(** The running activation reaches an [await] and is parked there. *)
Definition await (p : Point) (s : State) : State :=
  set_suspended (suspended s ++ [p]) s.

(** [_processQueue] from the [while] test (line 613) to the next [await], or
    to its end (line 639). *)
Definition while_test (s : State) : State :=
  match requestQueue s with
  | [] => observe (Idle (now s)) (set_isProcessingQueue false s)
  | r :: q => await (AtAxios r) (observe (Sent (now s) r) (set_requestQueue q s))
  end.

(** [_processQueue], entered by a call: the guard of line 607, then line 611
    and the loop. *)
Definition _processQueue (s : State) : State :=
  if isProcessingQueue s || (length (requestQueue s) =? 0)%nat then s
  else while_test (set_isProcessingQueue true s).

(** [_processQueue] resumed at line 617 with what the call ended with:
    [resolve] or [reject] of this request, then the test of line 634. *)
Definition after_axios (r : QueuedRequest) (o : Outcome) (s : State) : State :=
  let s1 := observe (Settled (now s) r o) s in
  if (0 <? length (requestQueue s1))%nat
  then await (AtDelay (now s1 + RATE_LIMIT_MS s1))
             (observe (Slept (now s1) (RATE_LIMIT_MS s1)) s1)
  else while_test s1.

(** [_processQueue] resumed at line 635 when the timer has fired. *)
Definition after_delay (s : State) : State := while_test s.

(** The executor of the promise that [request] returns, lines 597-600:
    push the request, call [_processQueue]. *)
Definition submit (m ep : string) (d : option Payload) (s : State) : State :=
  let r := mkRequest m ep d (length (pushed s)) in
  _processQueue (set_pushed (pushed s ++ [r]) (set_requestQueue (requestQueue s ++ [r]) s)).

(** What the scheduler may do next. [i] selects a parked activation. *)
Inductive Label :=
| Request (m ep : string) (d : option Payload)  (* a caller reaches line 597 *)
| Reply (i : nat) (o : Outcome)                 (* the awaited call ends *)
| Wake (i : nat)                             (* the awaited timer fires *)
| Elapse (dt : Z).                              (* time passes *)

Definition unpark (i : nat) (s : State) : State :=
  set_suspended (delete i (suspended s)) s.

Definition exec (l : Label) (s : State) : option State :=
  match l with
  | Request m ep d => Some (submit m ep d s)
  | Reply i o =>
      match suspended s !! i with
      | Some (AtAxios r) => Some (after_axios r o (unpark i s))
      | _ => None
      end
  | Wake i =>
      match suspended s !! i with
      | Some (AtDelay due) =>
          if due <=? now s then Some (after_delay (unpark i s)) else None
      | _ => None
      end
  | Elapse dt => if 0 <=? dt then Some (set_now (now s + dt) s) else None
  end.

Fixpoint run (ls : list Label) (s : State) : option State :=
  match ls with
  | [] => Some s
  | l :: ls' => match exec l s with Some s' => run ls' s' | None => None end
  end.

(** States the machine can be in: [init] after any schedule. *)
Definition reachable (s : State) : Prop :=
  exists ls, run ls init = Some s.

(** Requests handed to the transport, oldest first. *)
Fixpoint sent (tr : list Event) : list QueuedRequest :=
  match tr with
  | [] => []
  | Sent _ r :: tr' => sent tr' ++ [r]
  | _ :: tr' => sent tr'
  end.

(** Outcomes delivered to callers, oldest first: promise and outcome. *)
Fixpoint delivered (tr : list Event) : list (nat * Outcome) :=
  match tr with
  | [] => []
  | Settled _ r o :: tr' => delivered tr' ++ [(promise r, o)]
  | _ :: tr' => delivered tr'
  end.

(** Outbound calls in flight: activations parked at [await axios]. *)
Fixpoint calls_among (a : list Point) : nat :=
  match a with
  | [] => 0%nat
  | AtAxios _ :: a' => S (calls_among a')
  | AtDelay _ :: a' => calls_among a'
  end.

Definition in_flight (s : State) : nat := calls_among (suspended s).

(** The event loop left alone after the last submission: the parked
    activation is resumed, the call ending as [answer] says and the timer
    firing when it is due, until nothing is parked or [fuel] runs out. *)
Fixpoint drain (fuel : nat) (answer : QueuedRequest -> Outcome) (s : State) : State :=
  match fuel with
  | O => s
  | S n =>
      match suspended s with
      | [] => s
      | AtAxios r :: _ => drain n answer (after_axios r (answer r) (unpark 0 s))
      | AtDelay due :: _ =>
          drain n answer (after_delay (unpark 0 (set_now (now s + Z.max 0 (due - now s)) s)))
      end
  end.

(** The labels [drain] goes through. *)
Fixpoint drain_schedule (fuel : nat) (answer : QueuedRequest -> Outcome) (s : State)
  : list Label :=
  match fuel with
  | O => []
  | S n =>
      match suspended s with
      | [] => []
      | AtAxios r :: _ =>
          Reply 0 (answer r)
            :: drain_schedule n answer (after_axios r (answer r) (unpark 0 s))
      | AtDelay due :: _ =>
          Elapse (Z.max 0 (due - now s)) :: Wake 0
            :: drain_schedule n answer
                 (after_delay (unpark 0 (set_now (now s + Z.max 0 (due - now s)) s)))
      end
  end.

(** Resumptions left before the machine is at rest. *)
Definition work (s : State) : nat :=
  match suspended s with
  | [] => 0
  | AtAxios _ :: _ => 2 * length (requestQueue s) + 1
  | AtDelay _ :: _ => 2 * length (requestQueue s)
  end.

(** The requests a schedule submits, in the order of the schedule. *)
Fixpoint submissions (ls : list Label) : list (string * string * option Payload) :=
  match ls with
  | [] => []
  | Request m ep d :: ls' => (m, ep, d) :: submissions ls'
  | _ :: ls' => submissions ls'
  end.

Definition content (r : QueuedRequest) : string * string * option Payload :=
  (method r, endpoint r, data r).

(** The requests of the parked calls. *)
Fixpoint calling (a : list Point) : list QueuedRequest :=
  match a with
  | [] => []
  | AtAxios r :: a' => r :: calling a'
  | AtDelay _ :: a' => calling a'
  end.

(** Two requests sent one after the other are either [RATE_LIMIT_MS] apart,
    the timer armed when the first one settled, or separated by the end of
    the activation that ran the first one. *)
Definition spaced (delay : Z) (tr : list Event) : Prop :=
  forall l1 l2 t2 r2 e t1 r1 o1,
    tr = l1 ++ Sent t2 r2 :: e :: Settled t1 r1 o1 :: l2 ->
    (e = Slept t1 delay /\ t1 + delay <= t2) \/ e = Idle t1.

(** The invariant of the machine: at most one activation of [_processQueue]
    is alive, [isProcessingQueue] says whether one is, and the trace ends
    with what that activation did last. *)
Definition parked (s : State) : Prop :=
  match suspended s with
  | [] =>
      isProcessingQueue s = false /\ requestQueue s = [] /\
      (trace s = [] \/ exists t r o tl, trace s = Idle t :: Settled t r o :: tl)
  | [AtAxios r] =>
      isProcessingQueue s = true /\ exists t tl, trace s = Sent t r :: tl
  | [AtDelay due] =>
      isProcessingQueue s = true /\ requestQueue s <> [] /\
      exists t r o tl,
        trace s = Slept t (RATE_LIMIT_MS s) :: Settled t r o :: tl /\
        due = t + RATE_LIMIT_MS s
  | _ => False
  end.

Record invariant (s : State) : Prop := {
  inv_parked : parked s;
  inv_fifo : sent (trace s) ++ requestQueue s = pushed s;
  inv_ids : map promise (pushed s) = seq 0 (length (pushed s));
  inv_once : map promise (sent (trace s))
             = map fst (delivered (trace s)) ++ map promise (calling (suspended s));
  inv_delay : RATE_LIMIT_MS s = 100;
  inv_spaced : spaced (RATE_LIMIT_MS s) (trace s)
}.

(** *** Sample schedules *)

(** Three callers submit at once. *)
Definition burst : list Label :=
  [Request "GET" "/a" None; Request "GET" "/b" None;
   Request "PUT" "/c" (Some (PlayTimeSettings 0 false))].

(** The burst, then the first call ends after 30 ms, the timer fires and
    the second call fails. *)
Definition busy : list Label :=
  burst ++ [Elapse 30; Reply 0 (Resolved no_body); Elapse 100; Wake 0;
            Elapse 5; Reply 0 (Rejected network_error)].

(** One request, served before anything else is submitted. *)
Definition solo : list Label :=
  [Request "GET" "/a" None; Reply 0 (Resolved no_body)].

Definition state_after (ls : list Label) : State :=
  match run ls init with
  | Some s => s
  | None => init
  end.

End Pipeline.

(** ** The sequential view: token manager, API methods, plugin *)

Module Psn.

(** *** The world *)

(** What the remote side answers to one outbound call, and how long the
    call takes. *)
Record Reply := mkReply { latency : N; outcome : Outcome }.

(** The body posted to the token endpoint (lines 516-520 and 550-554). *)
Inductive TokenRequest :=
| NpssoGrant (npsso : option string)            (* grant_type: 'npsso_code' *)
| RefreshGrant (refresh_token : option string). (* grant_type: 'refresh_token' *)

(** The value [getPlayTime] builds and caches (lines 687-694). *)
Record PlayTime := mkPlayTime {
  pt_accountId : string;
  todayMinutes : Z;
  weekMinutes : Z;
  currentlyPlaying : bool;
  currentGame : option string;
  lastPlayed : option string
}.

(** The fields of [PlayStationAPI] (constructor, lines 478-499).  A token
    is [None] when [null] or [undefined]; [tokenExpiry] is [None] when
    [null] or [NaN], the two values of it that are falsy besides [0].
    [cache] holds the play-time entries of the NodeCache, each with the time
    it expires at; no function below touches the other keys. *)
Record PlayStationAPI := mkAPI {
  npsso : option string;
  region : string;
  accessToken : option string;
  refreshToken : option string;
  tokenExpiry : option Z;
  cache : gmap string (PlayTime * Z)
}.

Definition baseURL : string := "https://m.np.playstation.com".
Definition authURL : string := "https://ca.account.sony.com".

(** An entry of [config.accountMapping]. *)
Record Mapping := mkMapping { m_childId : string; psnAccountId : string }.

(** What [_getPSNAccountForChild] returns. *)
Record PsnAccount := mkAccount { accountId : string; childId : string }.

(** An element of [state.restrictions.games]. *)
Record Restriction := mkRestriction { action : string; gameId : string }.

(** A value of the [activeSessions] map; [{}] is [no_session]. *)
Record Session := mkSession {
  suspended : option bool;
  suspendedAt : option Z;
  resumedAt : option Z;
  lastActive : option Z;
  sessionGame : option string
}.

Definition no_session : Session := mkSession None None None None None.

(** An element of [actions] in [_processChildState]. *)
Inductive Action :=
| Suspend (reason : option string)
| Resume
| Restrictions (games : list Restriction).

(** The three shapes of object [_processChildState] returns. *)
Inductive ChildResult :=
| Skipped (childId : string) (reason : string)          (* lines 154 *)
| Processed (childId psnAccountId : string) (actions : list Action) (* lines 191-196 *)
| Failed (childId : string) (error : string).            (* lines 200-204 *)

(** What the plugin emits through its EventEmitter. *)
Inductive Notification :=
| sessionSuspended (accountId : string)
| sessionResumed (accountId : string)
| restrictionsApplied (accountId : string) (restrictions : list Restriction)
| stateProcessed (results : list ChildResult)
| error_event (e : Error).

(** What the outside observes, newest first in [log]. *)
Inductive Event :=
| Console (line : string)
| Post (body : TokenRequest) (o : Outcome)
    (* axios.post to [authURL]/api/authz/v3/oauth/token and what it ended with *)
| Call (method url : string) (data : option Payload) (bearer : option string)
       (language : string) (o : Outcome)
    (* axios(...) of [_processQueue] and what it ended with *)
| QuotaCheck (childId : string) (time : Z) (o : Outcome)
    (* allow2.check and what it ended with *)
| Emit (n : Notification).

(** The fields of [PlayStationPlugin] that the functions below use. *)
Record PlayStationPlugin := mkPlugin {
  accountMapping : list Mapping;        (* config.accountMapping *)
  defaultDailyLimit : option Z;         (* config.defaultDailyLimit *)
  activeSessions : gmap string Session;
  isInitialized : bool;
  lastError : option Error
}.

Record World := mkWorld {
  now : Z;                  (* Date.now() *)
  remote : nat -> Reply;    (* the reply to the n-th outbound call *)
  calls : nat;              (* outbound calls made so far *)
  listening : bool;         (* an 'error' listener is registered on the plugin *)
  log : list Event;
  psn : PlayStationAPI;
  self : PlayStationPlugin
}.

Definition set_psn (a : PlayStationAPI) (w : World) : World :=
  {| now := now w; remote := remote w; calls := calls w; listening := listening w;
     log := log w; psn := a; self := self w |}.

Definition set_self (p : PlayStationPlugin) (w : World) : World :=
  {| now := now w; remote := remote w; calls := calls w; listening := listening w;
     log := log w; psn := psn w; self := p |}.

Definition record (e : Event) (w : World) : World :=
  {| now := now w; remote := remote w; calls := calls w; listening := listening w;
     log := e :: log w; psn := psn w; self := self w |}.

(** One outbound call: the next reply is consumed and time passes. *)
Definition served (w : World) : World :=
  {| now := now w + Z.of_N (latency (remote w (calls w))); remote := remote w;
     calls := S (calls w); listening := listening w;
     log := log w; psn := psn w; self := self w |}.

Definition set_tokens (a r : option string) (e : option Z) (api : PlayStationAPI)
  : PlayStationAPI :=
  {| npsso := npsso api; region := region api; accessToken := a; refreshToken := r;
     tokenExpiry := e; cache := cache api |}.

Definition set_cache (c : gmap string (PlayTime * Z)) (api : PlayStationAPI)
  : PlayStationAPI :=
  {| npsso := npsso api; region := region api; accessToken := accessToken api;
     refreshToken := refreshToken api; tokenExpiry := tokenExpiry api; cache := c |}.

Definition set_activeSessions (m : gmap string Session) (p : PlayStationPlugin)
  : PlayStationPlugin :=
  {| accountMapping := accountMapping p; defaultDailyLimit := defaultDailyLimit p;
     activeSessions := m; isInitialized := isInitialized p; lastError := lastError p |}.

Definition set_lastError (e : option Error) (p : PlayStationPlugin)
  : PlayStationPlugin :=
  {| accountMapping := accountMapping p; defaultDailyLimit := defaultDailyLimit p;
     activeSessions := activeSessions p; isInitialized := isInitialized p;
     lastError := e |}.

(** *** Computations that may throw *)

Inductive Result (A : Type) :=
| Return (a : A)
| Throw (e : Error).
Arguments Return {A} a.
Arguments Throw {A} e.

Definition M (A : Type) : Type := World -> Result A * World.

Definition ret {A} (a : A) : M A := fun w => (Return a, w).

Definition throw {A} (e : Error) : M A := fun w => (Throw e, w).

Definition bind {A B} (c : M A) (k : A -> M B) : M B :=
  fun w => match c w with
           | (Return a, w') => k a w'
           | (Throw e, w') => (Throw e, w')
           end.

(** [try { c } catch (error) { h error }] *)
Definition try_catch {A} (c : M A) (h : Error -> M A) : M A :=
  fun w => match c w with
           | (Return a, w') => (Return a, w')
           | (Throw e, w') => h e w'
           end.

Definition get : M World := fun w => (Return w, w).

Definition modify (f : World -> World) : M unit := fun w => (Return tt, f w).

Notation "x <- c ;; k" := (bind c (fun x => k))
  (at level 100, c at next level, right associativity).
Notation "c ;; k" := (bind c (fun _ => k))
  (at level 100, right associativity).

Definition console (line : string) : M unit := modify (record (Console line)).

Definition emit (n : Notification) : M unit := modify (record (Emit n)).

(** [this.emit('error', error)]: an EventEmitter with no 'error' listener
    throws the error it is asked to emit. *)
Definition emit_error (e : Error) : M unit :=
  w <- get ;;
  if listening w then emit (error_event e) else throw e.

(** An awaited outbound call, observed as [ev] with what it ended with. *)
Definition outbound (ev : Outcome -> Event) : M Body :=
  fun w =>
    let o := outcome (remote w (calls w)) in
    let w' := record (ev o) (served w) in
    match o with
    | Resolved data => (Return data, w')
    | Rejected error => (Throw error, w')
    end.

(** *** Truthiness *)

(** A string that may be [null] or [undefined] used as a condition. *)
Definition truthy (x : option string) : bool :=
  match x with
  | Some s => negb (String.eqb s "")
  | None => false
  end.

(** [x || d] on a number that may be missing. *)
Definition number_or (x : option Z) (d : Z) : Z :=
  match x with
  | Some z => if z =? 0 then d else z
  | None => d
  end.

(** [x || null] on a string that may be missing. *)
Definition string_or_null (x : option string) : option string :=
  if truthy x then x else None.

(** *** Token manager (lines 505-589) *)

(** Lines 528-530 and 562-564, after the awaited exchange: the three fields
    from [response.data]; [expires_in] missing makes the expiry [NaN].
    [Date.now() + expires_in * 1000] is a sum of doubles; the sum taken here
    is the same number as long as it is a whole number of at most [2 ^ 53],
    and what is stated about the value stored is stated for such sums. *)
Definition store_tokens (data : Body) : M unit :=
  modify (fun w =>
    set_psn (set_tokens (access_token data) (refresh_token data)
               (match expires_in data with
                | Some seconds => Some (now w + seconds * 1000)
                | None => None
                end)
               (psn w)) w).

Definition authenticate : M bool :=
  try_catch
    (console "[PSN API] Authenticating..." ;;
     w <- get ;;
     (if negb (truthy (npsso (psn w)))
      then throw (newError "NPSSO token is required for authentication")
      else ret tt) ;;
     data <- outbound (Post (NpssoGrant (npsso (psn w)))) ;;
     store_tokens data ;;
     console "[PSN API] Authentication successful" ;;
     ret true)
    (fun error =>
       console ("[PSN API] Authentication failed: " +:+ message error) ;;
       throw (newError ("PSN authentication failed: " +:+ message error))).

Definition refreshAccessToken : M bool :=
  try_catch
    (console "[PSN API] Refreshing access token..." ;;
     w <- get ;;
     data <- outbound (Post (RefreshGrant (refreshToken (psn w)))) ;;
     store_tokens data ;;
     console "[PSN API] Token refreshed" ;;
     ret true)
    (fun error =>
       console ("[PSN API] Token refresh failed: " +:+ message error) ;;
       authenticate).

(** The condition of line 586:
    [this.tokenExpiry && (Date.now() + 300000) >= this.tokenExpiry]. *)
Definition expiring (expiry : option Z) (t : Z) : bool :=
  match expiry with
  | Some e => negb (e =? 0) && (e <=? t + 300000)
  | None => false
  end.

Definition ensureAuthenticated : M unit :=
  w <- get ;;
  if negb (truthy (accessToken (psn w)))
  then authenticate ;; ret tt
  else if expiring (tokenExpiry (psn w)) (now w)
       then refreshAccessToken ;; ret tt
       else ret tt.

(** *** Requests (lines 594-640)

    One caller at a time: the queue is empty and no activation of
    [_processQueue] is alive when [request] pushes, so the call is made at
    once with the token of that moment, and the promise settles with what
    the call ends with ([Pipeline], lemma [lone_request]). *)
Definition request (method endpoint : string) (data : option Payload) : M Body :=
  ensureAuthenticated ;;
  w <- get ;;
  outbound (Call method (baseURL +:+ endpoint) data (accessToken (psn w)) (region (psn w))).

(** *** The NodeCache of the API, as far as play time goes *)

(** [cache.get(key)]: an entry past its time is dropped and not returned;
    the time [0] stands for an entry that never expires. *)
Definition cache_get (key : string) : M (option PlayTime) :=
  fun w =>
    match cache (psn w) !! key with
    | Some (v, t) =>
        if negb (t =? 0) && (t <? now w)
        then (Return None, set_psn (set_cache (delete key (cache (psn w))) (psn w)) w)
        else (Return (Some v), w)
    | None => (Return None, w)
    end.

(** [cache.set(key, value, ttl)], [ttl] in seconds. *)
Definition cache_set (key : string) (v : PlayTime) (ttl : Z) : M unit :=
  modify (fun w =>
    set_psn (set_cache (<[key := (v, now w + ttl * 1000)]> (cache (psn w))) (psn w)) w).

(** [cache.del(key)] *)
Definition cache_del (key : string) : M unit :=
  modify (fun w => set_psn (set_cache (delete key (cache (psn w))) (psn w)) w).

(** *** API methods (lines 675-776) *)

Definition users (accountId : string) : string :=
  "/api/familyManagement/v1/users/" +:+ accountId.

Definition getPlayTime (accountId : string) : M PlayTime :=
  try_catch
    (let cacheKey := "playTime_" +:+ accountId in
     cached <- cache_get cacheKey ;;
     match cached with
     | Some playTime => ret playTime
     | None =>
         data <- request "GET" (users accountId +:+ "/playTime") None ;;
         let playTime :=
           {| pt_accountId := accountId;
              todayMinutes := number_or (todayPlayTime data) 0;
              weekMinutes := number_or (weekPlayTime data) 0;
              currentlyPlaying :=
                match status_ data with
                | Some st => String.eqb st "online"
                | None => false
                end;
              currentGame := string_or_null (currentTitle data);
              lastPlayed := string_or_null (lastPlayedAt data) |} in
         cache_set cacheKey playTime 60 ;;
         ret playTime
     end)
    (fun error =>
       console ("[PSN API] Get play time error: " +:+ message error) ;;
       throw (newError ("Failed to get play time: " +:+ message error))).

Definition setPlayTimeLimit (accountId : string) (limitMinutes : Z) : M bool :=
  try_catch
    (console ("[PSN API] Setting play time limit for " +:+ accountId +:+ ": "
              +:+ pretty limitMinutes +:+ " minutes") ;;
     request "PUT" (users accountId +:+ "/playTimeSettings")
       (Some (PlayTimeSettings limitMinutes (0 <? limitMinutes))) ;;
     cache_del ("playTime_" +:+ accountId) ;;
     ret true)
    (fun error =>
       console ("[PSN API] Set play time limit error: " +:+ message error) ;;
       throw (newError ("Failed to set play time limit: " +:+ message error))).

Definition blockGame (accountId gameId : string) : M bool :=
  try_catch
    (console ("[PSN API] Blocking game " +:+ gameId +:+ " for " +:+ accountId) ;;
     request "POST" (users accountId +:+ "/restrictedContent")
       (Some (RestrictedContent gameId "game" "block")) ;;
     ret true)
    (fun error =>
       console ("[PSN API] Block game error: " +:+ message error) ;;
       throw (newError ("Failed to block game: " +:+ message error))).

Definition unblockGame (accountId gameId : string) : M bool :=
  try_catch
    (console ("[PSN API] Unblocking game " +:+ gameId +:+ " for " +:+ accountId) ;;
     request "DELETE" (users accountId +:+ "/restrictedContent/" +:+ gameId) None ;;
     ret true)
    (fun error =>
       console ("[PSN API] Unblock game error: " +:+ message error) ;;
       throw (newError ("Failed to unblock game: " +:+ message error))).

(** *** The plugin (index.js)

    What the plugin writes to the console is left out of [log]: it prints
    objects, and no property below is about it. *)

(** A value of [allow2State.children]; [games] is [state.restrictions.games]
    when [state.restrictions && state.restrictions.games] holds. *)
Record ChildState := mkChildState {
  blocked : bool;
  blockedReason : option string;
  games : option (list Restriction)
}.

(** What [_checkQuota] returns (lines 226-230). *)
Record Quota := mkQuota { q_allowed : bool; q_remaining : option Z; q_playTime : Z }.

(** What [newState] returns (lines 135 and 141). *)
Inductive StateResult :=
| Success (results : list ChildResult)
| Failure (error : string).

(** Lines 408-414. *)
Definition _getPSNAccountForChild (cid : string) (w : World) : option PsnAccount :=
  match List.find (fun m => String.eqb (m_childId m) cid) (accountMapping (self w)) with
  | Some mapping => Some {| accountId := psnAccountId mapping; childId := m_childId mapping |}
  | None => None
  end.

(** [this.allow2.check({childId, activities: [{activity: 'gaming', log: true,
    time}]})], lines 217-224. *)
Definition allow2_check (cid : string) (time : Z) : M Body :=
  outbound (QuotaCheck cid time).

(** Lines 211-236. *)
Definition _checkQuota (cid : string) (psnAccount : PsnAccount) : M Quota :=
  try_catch
    (playTime <- getPlayTime (accountId psnAccount) ;;
     quotaResponse <- allow2_check cid (todayMinutes playTime) ;;
     ret {| q_allowed := allowed quotaResponse;
            q_remaining := remaining quotaResponse;
            q_playTime := todayMinutes playTime |})
    (fun error => throw error).

(** [this.activeSessions.get(id) || {}] *)
Definition session_of (id : string) (w : World) : Session :=
  match activeSessions (self w) !! id with
  | Some session => session
  | None => no_session
  end.

Definition put_session (id : string) (session : Session) : M unit :=
  modify (fun w => set_self (set_activeSessions (<[id := session]> (activeSessions (self w)))
                               (self w)) w).

(** Lines 241-260. *)
Definition _suspendSession (psnAccount : PsnAccount) : M unit :=
  try_catch
    (setPlayTimeLimit (accountId psnAccount) 0 ;;
     w <- get ;;
     let session := session_of (accountId psnAccount) w in
     put_session (accountId psnAccount)
       {| suspended := Some true; suspendedAt := Some (now w);
          resumedAt := resumedAt session; lastActive := lastActive session;
          sessionGame := sessionGame session |} ;;
     emit (sessionSuspended (accountId psnAccount)))
    (fun error => throw error).

(** Lines 265-285. *)
Definition _resumeSession (psnAccount : PsnAccount) : M unit :=
  try_catch
    (w0 <- get ;;
     let dailyLimit := number_or (defaultDailyLimit (self w0)) 480 in
     setPlayTimeLimit (accountId psnAccount) dailyLimit ;;
     w <- get ;;
     let session := session_of (accountId psnAccount) w in
     put_session (accountId psnAccount)
       {| suspended := Some false; suspendedAt := suspendedAt session;
          resumedAt := Some (now w); lastActive := lastActive session;
          sessionGame := sessionGame session |} ;;
     emit (sessionResumed (accountId psnAccount)))
    (fun error => throw error).

(** The body of the loop of lines 294-300. *)
Definition apply_restriction (psnAccount : PsnAccount) (restriction : Restriction)
  : M unit :=
  if String.eqb (action restriction) "block"
  then blockGame (accountId psnAccount) (gameId restriction) ;; ret tt
  else if String.eqb (action restriction) "unblock"
       then unblockGame (accountId psnAccount) (gameId restriction) ;; ret tt
       else ret tt.

(** [for (const x of xs) { await body(x) }] *)
Fixpoint for_of {A} (xs : list A) (body : A -> M unit) : M unit :=
  match xs with
  | [] => ret tt
  | x :: xs' => body x ;; for_of xs' body
  end.

(** Lines 290-311. *)
Definition _applyGameRestrictions (psnAccount : PsnAccount)
    (gameRestrictions : list Restriction) : M unit :=
  try_catch
    (for_of gameRestrictions (apply_restriction psnAccount) ;;
     emit (restrictionsApplied (accountId psnAccount) gameRestrictions))
    (fun error => throw error).

(** Lines 148-206. *)
Definition _processChildState (cid : string) (state : ChildState) : M ChildResult :=
  try_catch
    (w <- get ;;
     match _getPSNAccountForChild cid w with
     | None => ret (Skipped cid "No PSN account mapped")
     | Some psnAccount =>
         actions <-
           (if blocked state
            then _suspendSession psnAccount ;;
                 ret [Suspend (blockedReason state)]
            else quotaCheck <- _checkQuota cid psnAccount ;;
                 if q_allowed quotaCheck
                 then w1 <- get ;;
                      match activeSessions (self w1) !! accountId psnAccount with
                      | Some session =>
                          match suspended session with
                          | Some true => _resumeSession psnAccount ;; ret [Resume]
                          | _ => ret []
                          end
                      | None => ret []
                      end
                 else _suspendSession psnAccount ;;
                      ret [Suspend (Some "Quota exhausted")]) ;;
         actions' <-
           match games state with
           | Some gs => _applyGameRestrictions psnAccount gs ;;
                        ret (actions ++ [Restrictions gs])
           | None => ret actions
           end ;;
         ret (Processed cid (accountId psnAccount) actions')
     end)
    (fun error => ret (Failed cid (message error))).

(** The loop of lines 128-132 over the keys of [allow2State.children], in
    the order [for...in] visits them. *)
Fixpoint process_children (children : list (string * ChildState)) (results : list ChildResult)
  : M (list ChildResult) :=
  match children with
  | [] => ret results
  | (cid, childState) :: rest =>
      result <- _processChildState cid childState ;;
      process_children rest (results ++ [result])
  end.

(** Lines 117-143. *)
Definition newState (children : list (string * ChildState)) : M StateResult :=
  try_catch
    (w <- get ;;
     (if negb (isInitialized (self w))
      then throw (newError "Plugin not initialized")
      else ret tt) ;;
     results <- process_children children [] ;;
     emit (stateProcessed results) ;;
     ret (Success results))
    (fun error =>
       modify (fun w => set_self (set_lastError (Some error) (self w)) w) ;;
       emit_error error ;;
       ret (Failure (message error))).

(** *** Reading the log *)

(** The exchanges with the token endpoint, oldest first. *)
Fixpoint grants (l : list Event) : list TokenRequest :=
  match l with
  | [] => []
  | Post g _ :: l' => grants l' ++ [g]
  | _ :: l' => grants l'
  end.

(** The calls made through the queue, oldest first: method, url, body and
    what the call ended with. *)
Fixpoint rest_calls (l : list Event) : list (string * string * option Payload * Outcome) :=
  match l with
  | [] => []
  | Call m url d _ _ o :: l' => rest_calls l' ++ [(m, url, d, o)]
  | _ :: l' => rest_calls l'
  end.

(** The notifications emitted, oldest first. *)
Fixpoint emitted (l : list Event) : list Notification :=
  match l with
  | [] => []
  | Emit n :: l' => emitted l' ++ [n]
  | _ :: l' => emitted l'
  end.

(** How many times a line was printed. *)
Fixpoint printed (line : string) (l : list Event) : nat :=
  match l with
  | [] => 0
  | Console line' :: l' => (if String.eqb line line' then 1 else 0) + printed line l'
  | _ :: l' => printed line l'
  end.

(** *** Relations between the world before and after a computation *)

(** [c] only leads to worlds related to the one it started in. *)
Definition preserves {A} (P : World -> World -> Prop) (c : M A) : Prop :=
  forall w res w', c w = (res, w') -> P w w'.

(** The same run later on: the remote side and the configuration are the
    same, and no reply has been given back. *)
Definition later (w w' : World) : Prop :=
  remote w' = remote w /\ (calls w <= calls w')%nat /\
  listening w' = listening w /\
  npsso (psn w') = npsso (psn w) /\ region (psn w') = region (psn w) /\
  accountMapping (self w') = accountMapping (self w) /\
  defaultDailyLimit (self w') = defaultDailyLimit (self w) /\
  isInitialized (self w') = isInitialized (self w).

(** Nothing went through the queue and nothing was emitted. *)
Definition quiet (w w' : World) : Prop :=
  rest_calls (log w') = rest_calls (log w) /\ emitted (log w') = emitted (log w).

(** The plugin object was not written. *)
Definition same_plugin (w w' : World) : Prop := self w' = self w.

(** Nothing was emitted. *)
Definition silent (w w' : World) : Prop := emitted (log w') = emitted (log w).

(** A remote side that accepts every call from now on. *)
Definition obliging (w : World) : Prop :=
  forall n, (calls w <= n)%nat -> exists data, outcome (remote w n) = Resolved data.

(** The request of [blockGame] or [unblockGame] for an entry. *)
Definition restriction_call (acct : string) (r : Restriction) (o : Outcome)
  : string * string * option Payload * Outcome :=
  if String.eqb (action r) "block"
  then ("POST", baseURL +:+ users acct +:+ "/restrictedContent",
        Some (RestrictedContent (gameId r) "game" "block"), o)
  else ("DELETE", baseURL +:+ users acct +:+ "/restrictedContent/" +:+ gameId r, None, o).

(** The error [blockGame] or [unblockGame] throws when its call fails. *)
Definition restriction_error (r : Restriction) (e : Error) : Error :=
  if String.eqb (action r) "block"
  then newError ("Failed to block game: " +:+ message e)
  else newError ("Failed to unblock game: " +:+ message e).

(** The child a result is about. *)
Definition result_child (r : ChildResult) : string :=
  match r with
  | Skipped c _ => c
  | Processed c _ _ => c
  | Failed c _ => c
  end.

(** The part of a session that the specification calls the account's state:
    [suspended], [lastActive] and the current activity. *)
Definition session_state (s : Session) : option bool * option Z * option string :=
  (suspended s, lastActive s, sessionGame s).

(** *** Sample worlds *)

(** The API object as its constructor leaves it. *)
Definition new_api (credential : option string) : PlayStationAPI :=
  {| npsso := credential; region := "en-us"; accessToken := None;
     refreshToken := None; tokenExpiry := None; cache := ∅ |}.

(** A plugin that is loaded, with two children mapped. *)
Definition loaded_plugin : PlayStationPlugin :=
  {| accountMapping := [mkMapping "child-1" "psn-1"; mkMapping "child-2" "psn-2"];
     defaultDailyLimit := None;
     activeSessions := ∅; isInitialized := true; lastError := None |}.

Definition world_at (t : Z) (answers : nat -> Reply) (api : PlayStationAPI) : World :=
  {| now := t; remote := answers; calls := 0; listening := false; log := [];
     psn := api; self := loaded_plugin |}.

(** A 2xx answer of the token endpoint. *)
Definition token_body : Body :=
  mkBody (Some "access-2") (Some "refresh-2") (Some 3600) None None None None None
    false None.

Definition accepted (data : Body) : Reply := mkReply 20 (Resolved data).

Definition refused : Reply := mkReply 20 (Rejected network_error).

(** An API object holding a token pair that expires at [e]. *)
Definition signed_in (e : option Z) : PlayStationAPI :=
  {| npsso := Some "npsso-1"; region := "en-us"; accessToken := Some "access-1";
     refreshToken := Some "refresh-1"; tokenExpiry := e; cache := ∅ |}.

(** No token pair yet, and a remote side that accepts. *)
Definition cold : World :=
  world_at 1000000 (fun _ => accepted token_body) (new_api (Some "npsso-1")).

(** No token pair yet, and a remote side that cannot be reached. *)
Definition cold_offline : World :=
  world_at 1000000 (fun _ => refused) (new_api (Some "npsso-1")).

(** A token pair that expires in 200 s, inside the margin. *)
Definition stale : World :=
  world_at 1000000 (fun _ => accepted token_body) (signed_in (Some 1200000)).

(** The same, when the first exchange is refused and the next one accepted. *)
Definition stale_flaky : World :=
  world_at 1000000 (fun n => match n with O => refused | _ => accepted token_body end)
    (signed_in (Some 1200000)).

(** A token pair that expires in 4000 s, outside the margin. *)
Definition fresh : World :=
  world_at 1000000 (fun _ => accepted no_body) (signed_in (Some 5000000)).

(** The same, when the first call is refused and the next ones accepted. *)
Definition fresh_flaky : World :=
  world_at 1000000 (fun n => match n with O => refused | _ => accepted no_body end)
    (signed_in (Some 5000000)).

(** A token pair whose expiry is not set, long after it was obtained. *)
Definition unset : World :=
  world_at 9000000000 (fun _ => accepted no_body) (signed_in None).

Definition first_child : PsnAccount := mkAccount "psn-1" "child-1".

Definition two_entries : list Restriction :=
  [mkRestriction "block" "g1"; mkRestriction "unblock" "g2"].

(** An unmapped child, a blocked child and another blocked child. *)
Definition batch : list (string * ChildState) :=
  [("child-7", mkChildState false None None);
   ("child-1", mkChildState true (Some "bedtime") None);
   ("child-2", mkChildState true None (Some []))].

(** *** More of the plugin and of its configuration *)

(** Lines 419-424 of index.js. *)
Definition _getAllPSNAccounts (w : World) : list PsnAccount :=
  map (fun m => {| accountId := psnAccountId m; childId := m_childId m |})
      (accountMapping (self w)).

(** The configuration object handed to [onLoad].  [c_accountMapping] is
    [None] when the property is missing or is not an array. *)
Record PluginConfig := mkConfig {
  c_npsso : option string;
  c_region : option string;
  c_accountMapping : option (list Mapping);
  c_defaultDailyLimit : option Z
}.

(** Lines 389-403 of index.js; [None] is a configuration that is [null] or
    [undefined]. *)
Definition _validateConfig (config : option PluginConfig) : Result unit :=
  match config with
  | None => Throw (newError "Plugin configuration is required")
  | Some c =>
      if negb (truthy (c_npsso c))
      then Throw (newError "PSN NPSSO token is required in configuration")
      else match c_accountMapping c with
           | None => Throw (newError "Account mapping is required in configuration")
           | Some _ => Return tt
           end
  end.

(** Lines 470-476 of index.js: the guarded accessor of the plugin. *)
Definition plugin_getPlayTime (id : string) : M PlayTime :=
  w <- get ;;
  if negb (isInitialized (self w))
  then throw (newError "Plugin not initialized")
  else getPlayTime id.

(** *** More readings of the world *)

(** The play-time cache was not written. *)
Definition same_cache (w w' : World) : Prop := cache (psn w') = cache (psn w).

(** The API object was not written. *)
Definition same_api (w w' : World) : Prop := psn w' = psn w.

(** The calls to the quota service, oldest first: child and minutes. *)
Fixpoint quota_checks (l : list Event) : list (string * Z) :=
  match l with
  | [] => []
  | QuotaCheck c t _ :: l' => quota_checks l' ++ [(c, t)]
  | _ :: l' => quota_checks l'
  end.

(** The quota service was not asked. *)
Definition unchecked (w w' : World) : Prop :=
  quota_checks (log w') = quota_checks (log w).

(** The methods of the calls made through the queue, oldest first. *)
Definition rest_methods (l : list Event) : list string :=
  map (fun c => fst (fst (fst c))) (rest_calls l).

(** A remote side that accepts every call from now on and whose quota
    answers all say [allowed]. *)
Definition granting (verdict : bool) (w : World) : Prop :=
  forall n, (calls w <= n)%nat ->
    exists data, outcome (remote w n) = Resolved data /\ allowed data = verdict.

(** The key of the play-time entry of an account (line 677). *)
Definition playTime_key (id : string) : string := "playTime_" +:+ id.

(** The value [getPlayTime] builds from a response (lines 687-694). *)
Definition playTime_of (id : string) (data : Body) : PlayTime :=
  {| pt_accountId := id;
     todayMinutes := number_or (todayPlayTime data) 0;
     weekMinutes := number_or (weekPlayTime data) 0;
     currentlyPlaying :=
       match status_ data with
       | Some st => String.eqb st "online"
       | None => false
       end;
     currentGame := string_or_null (currentTitle data);
     lastPlayed := string_or_null (lastPlayedAt data) |}.

(** *** More sample worlds *)

(** A body of the play-time endpoint: online, 42 minutes today. *)
Definition playing_body : Body :=
  mkBody None None None (Some 42) (Some 90) (Some "online") (Some "Astro Bot") None
    true None.

(** A fresh token and a remote side that answers every call with
    [playing_body], so that every quota answer says [allowed]. *)
Definition generous : World :=
  world_at 1000000 (fun _ => accepted playing_body) (signed_in (Some 5000000)).

(** The same, with the first child marked suspended. *)
Definition generous_suspended : World :=
  set_self (set_activeSessions
              (<["psn-1" := mkSession (Some true) (Some 900000) None None None]> ∅)
              loaded_plugin) generous.

(** A plugin that was never loaded, with an 'error' listener or without. *)
Definition unloaded (listener : bool) : World :=
  {| now := 1000000; remote := fun _ => accepted no_body; calls := 0;
     listening := listener; log := []; psn := signed_in (Some 5000000);
     self := mkPlugin [] None ∅ false None |}.

(** A token pair obtained with a lifetime of [seconds]. *)
Definition lifetime_body (seconds : Z) : Body :=
  mkBody (Some "access-2") (Some "refresh-2") (Some seconds) None None None None None
    false None.

Definition cold_with_lifetime (seconds : Z) : World :=
  world_at 1000000 (fun _ => accepted (lifetime_body seconds)) (new_api (Some "npsso-1")).

(** A fresh token and a play-time entry that expires at [t]. *)
Definition cached_until (t : Z) : World :=
  set_psn (set_cache (<["playTime_psn-1" := (playTime_of "psn-1" playing_body, t)]> ∅)
             (signed_in (Some 5000000))) fresh.

(** *** Runs of several calls and of a batch *)

(** What the remote side answers to [n] calls made one after the other from
    call number [from], up to and including the first call it refuses. *)
Fixpoint answers (replies : nat -> Reply) (from n : nat) : list Outcome :=
  match n with
  | O => []
  | S n' =>
      match outcome (replies from) with
      | Resolved data => Resolved data :: answers replies (S from) n'
      | Rejected e => [Rejected e]
      end
  end.

(** The token with expiry [expiry] is outside the margin at the start of
    each of [n] such calls, the first of them made at time [t]. *)
Fixpoint stays_fresh (expiry : option Z) (replies : nat -> Reply) (from : nat) (t : Z)
    (n : nat) : bool :=
  match n with
  | O => true
  | S n' =>
      negb (expiring expiry t)
      && stays_fresh expiry replies (S from) (t + Z.of_N (latency (replies from))) n'
  end.

Definition resolved (o : Outcome) : Prop := exists data, o = Resolved data.

(** The children of a batch were processed one after the other, each on the
    world the one before it left, and each gave its result. *)
Inductive processed_in_turn
  : list (string * ChildState) -> World -> list ChildResult -> World -> Prop :=
| no_child w : processed_in_turn [] w [] w
| next_child cid st rest w r w1 results w' :
    _processChildState cid st w = (Return r, w1) ->
    processed_in_turn rest w1 results w' ->
    processed_in_turn ((cid, st) :: rest) w (r :: results) w'.

(** The loaded plugin with a daily limit configured, a fresh token and a
    remote side that accepts. *)
Definition fresh_with_limit (minutes : Z) : World :=
  set_self {| accountMapping := accountMapping loaded_plugin;
              defaultDailyLimit := Some minutes;
              activeSessions := ∅; isInitialized := true; lastError := None |} fresh.

End Psn.

(** ** The configuration form (src/config-ui.js) *)

Module ConfigUI.
Import Psn.

(** The state of the component that the handlers below read and write
    (hooks of lines 11-13 and 16). *)
Record Form := mkForm {
  f_npsso : string;
  f_region : string;
  f_accountMapping : list Mapping;
  f_error : option string
}.

(** [x || d] on a string that may be missing. *)
Definition string_or (x : option string) (d : string) : string :=
  match x with
  | Some s => if String.eqb s "" then d else s
  | None => d
  end.

(** The initial state, lines 11-13 and 16: [config?.npsso || ''],
    [config?.region || 'en-us'], [config?.accountMapping || []]. *)
Definition initial (config : option PluginConfig) : Form :=
  {| f_npsso := string_or (match config with Some c => c_npsso c | None => None end) "";
     f_region := string_or (match config with Some c => c_region c | None => None end) "en-us";
     f_accountMapping :=
       match config with
       | Some c => match c_accountMapping c with Some l => l | None => [] end
       | None => []
       end;
     f_error := None |}.

Definition set_mapping (l : list Mapping) (st : Form) : Form :=
  {| f_npsso := f_npsso st; f_region := f_region st; f_accountMapping := l;
     f_error := f_error st |}.

Definition set_error (e : string) (st : Form) : Form :=
  {| f_npsso := f_npsso st; f_region := f_region st;
     f_accountMapping := f_accountMapping st; f_error := Some e |}.

(** Lines 53-58. *)
Definition addMapping (st : Form) : Form :=
  set_mapping (f_accountMapping st ++ [mkMapping "" ""]) st.

(** The two properties of a row that [updateMapping] is called with. *)
Inductive Field := childId_field | psnAccountId_field.

Definition set_field (field : Field) (value : string) (m : Mapping) : Mapping :=
  match field with
  | childId_field => mkMapping value (psnAccountId m)
  | psnAccountId_field => mkMapping (m_childId m) value
  end.

(** Lines 63-67.  [updated[index][field] = value] throws a TypeError when
    there is no row at [index]; the state is then not set: [None]. *)
Definition updateMapping (index : nat) (field : Field) (value : string) (st : Form)
  : option Form :=
  match f_accountMapping st !! index with
  | Some m => Some (set_mapping (<[index := set_field field value m]> (f_accountMapping st)) st)
  | None => None
  end.

(** Lines 72-74: [accountMapping.filter((_, i) => i !== index)]. *)
Definition removeMapping (index : nat) (st : Form) : Form :=
  set_mapping
    (map snd (List.filter (fun p => negb (Nat.eqb (fst p) index))
                (combine (seq 0 (length (f_accountMapping st))) (f_accountMapping st))))
    st.

(** [!m.childId || !m.psnAccountId] *)
Definition incomplete (m : Mapping) : bool :=
  String.eqb (m_childId m) "" || String.eqb (psnAccountId m) "".

(** Lines 79-104: the state after the click, and what [onSave] is called
    with, if it is called. *)
Definition handleSave (st : Form) : Form * option PluginConfig :=
  if String.eqb (f_npsso st) ""
  then (set_error "NPSSO token is required" st, None)
  else if (length (f_accountMapping st) =? 0)%nat
       then (set_error "At least one account mapping is required" st, None)
       else if existsb incomplete (f_accountMapping st)
            then (set_error "All account mappings must be complete" st, None)
            else (st, Some {| c_npsso := Some (f_npsso st);
                              c_region := Some (f_region st);
                              c_accountMapping := Some (f_accountMapping st);
                              c_defaultDailyLimit := None |}).

(** A form filled in for one child. *)
Definition filled : Form :=
  mkForm "npsso-1" "en-gb" [mkMapping "child-1" "psn-1"] None.

End ConfigUI.

(** ** The monitoring poll (index.js, lines 316-384) *)

(** The poll runs from the timer of [_startMonitoring], which [onLoad] sets
    after it has stored the configuration, the quota client and the API
    object (lines 49-68); [onUnload] clears none of them.  So a round always
    finds [this.psn], [this.allow2] and [this.config]. *)

Module Monitor.
Import Psn.

(** One call of [allow2.log] (lines 360-371): activity 'gaming', platform
    'PlayStation', and what the call ended with. *)
Record Usage := mkUsage {
  u_childId : string;
  u_time : Z;
  u_game : option string;
  u_accountId : string;
  u_outcome : Outcome
}.

(** The plugin with what the poll needs besides [World]. *)
Record Host := mkHost {
  world : World;
  usage : list Usage;            (* calls of allow2.log, newest first *)
  pollingInterval : option nat;  (* the handle setInterval returned, or null *)
  intervals : list nat;          (* timers set and not cleared *)
  handles : nat                  (* handles given out so far *)
}.

Definition set_world (w : World) (h : Host) : Host :=
  {| world := w; usage := usage h; pollingInterval := pollingInterval h;
     intervals := intervals h; handles := handles h |}.

Definition H (A : Type) : Type := Host -> Result A * Host.

Definition pure {A} (a : A) : H A := fun h => (Return a, h).

Definition and_then {A B} (c : H A) (k : A -> H B) : H B :=
  fun h => match c h with
           | (Return a, h') => k a h'
           | (Throw e, h') => (Throw e, h')
           end.

(** [try { c } catch (error) { handler error }] *)
Definition attempt {A} (c : H A) (handler : Error -> H A) : H A :=
  fun h => match c h with
           | (Return a, h') => (Return a, h')
           | (Throw e, h') => handler e h'
           end.

(** A computation of the sequential view, run on the world of the host. *)
Definition lift {A} (c : M A) : H A :=
  fun h => match c (world h) with (r, w') => (r, set_world w' h) end.

(** [await this.allow2.log({childId, activities: [{activity: 'gaming',
    time, meta: {game, platform: 'PlayStation', accountId}}]})] *)
Definition allow2_log (cid : string) (time : Z) (game : option string) (id : string)
  : H unit :=
  fun h =>
    let w := world h in
    let o := outcome (remote w (calls w)) in
    let h' := {| world := served w;
                 usage := mkUsage cid time game id o :: usage h;
                 pollingInterval := pollingInterval h;
                 intervals := intervals h; handles := handles h |} in
    match o with
    | Resolved _ => (Return tt, h')
    | Rejected e => (Throw e, h')
    end.

(** The body of the loop of lines 351-379. *)
Definition monitor_account (psnAccount : PsnAccount) : H unit :=
  and_then (lift (getPlayTime (accountId psnAccount))) (fun playTime =>
    if currentlyPlaying playTime
    then and_then
           (allow2_log (childId psnAccount) 1 (currentGame playTime) (accountId psnAccount))
           (fun _ =>
              lift (bind get (fun w =>
                let session := session_of (accountId psnAccount) w in
                put_session (accountId psnAccount)
                  {| suspended := suspended session;
                     suspendedAt := suspendedAt session;
                     resumedAt := resumedAt session;
                     lastActive := Some (now w);
                     sessionGame := currentGame playTime |})))
    else pure tt).

Fixpoint monitor_loop (accounts : list PsnAccount) : H unit :=
  match accounts with
  | [] => pure tt
  | psnAccount :: rest => and_then (monitor_account psnAccount) (fun _ => monitor_loop rest)
  end.

(** Lines 346-384; the handler only prints. *)
Definition _monitorSessions : H unit :=
  attempt (fun h => monitor_loop (_getAllPSNAccounts (world h)) h)
          (fun error => pure tt).

(** Lines 316-330: [setInterval] unless a handle is already held. *)
Definition _startMonitoring (h : Host) : Host :=
  match pollingInterval h with
  | Some _ => h
  | None =>
      {| world := world h; usage := usage h; pollingInterval := Some (handles h);
         intervals := handles h :: intervals h; handles := S (handles h) |}
  end.

(** Lines 335-341: [clearInterval] of the handle held, if any. *)
Definition _stopMonitoring (h : Host) : Host :=
  match pollingInterval h with
  | Some t =>
      {| world := world h; usage := usage h; pollingInterval := None;
         intervals := List.filter (fun t' => negb (Nat.eqb t' t)) (intervals h);
         handles := handles h |}
  | None => h
  end.

(** [monitoring] of [getStatus] (line 452): [!!this.pollingInterval]. *)
Definition monitoring (h : Host) : bool :=
  match pollingInterval h with Some _ => true | None => false end.

(** The plugin as its constructor leaves it, on a given world. *)
Definition host_of (w : World) : Host :=
  {| world := w; usage := []; pollingInterval := None; intervals := []; handles := 0 |}.

Inductive Switch := Start | Stop.

Definition switch (s : Switch) (h : Host) : Host :=
  match s with
  | Start => _startMonitoring h
  | Stop => _stopMonitoring h
  end.

(** The accounts the calls of [allow2.log] were about, oldest first. *)
Definition logged_accounts (l : list Usage) : list string :=
  rev (map u_accountId l).

(** The suspension of every account reads the same. *)
Definition same_suspension (w w' : World) : Prop :=
  forall id, suspended (session_of id w') = suspended (session_of id w) /\
             suspendedAt (session_of id w') = suspendedAt (session_of id w) /\
             resumedAt (session_of id w') = resumedAt (session_of id w).

(** What a round of the poll leaves as it was: the timers, the suspensions,
    the notifications and the quota checks; and through the queue it only
    reads. *)
Definition polled (h h' : Host) : Prop :=
  later (world h) (world h') /\
  same_suspension (world h) (world h') /\
  emitted (log (world h')) = emitted (log (world h)) /\
  quota_checks (log (world h')) = quota_checks (log (world h)) /\
  (exists n, rest_methods (log (world h'))
             = rest_methods (log (world h)) ++ replicate n "GET") /\
  pollingInterval h' = pollingInterval h /\
  intervals h' = intervals h /\
  handles h' = handles h.

(** A call of [allow2.log] that was accepted. *)
Definition accepted_usage (u : Usage) : Prop := exists d, u_outcome u = Resolved d.

(** Two mapped accounts, a fresh token, and a remote side that answers every
    call with [playing_body]. *)
Definition playing_host : Host := host_of generous.

(** The same with a remote side that cannot be reached. *)
Definition offline_host : Host :=
  host_of (world_at 1000000 (fun _ => refused) (signed_in (Some 5000000))).

End Monitor.

(** * Properties of the request pipeline *)

Section PipelineInvariant.
Import Pipeline.

Lemma spaced_nil delay : spaced delay [].
Proof. intros l1 l2 t2 r2 e t1 r1 o1 H. destruct l1; discriminate. Qed.

Lemma spaced_cons delay e tr :
  (forall t r, e <> Sent t r) -> spaced delay tr -> spaced delay (e :: tr).
Proof.
  intros He Htr l1 l2 t2 r2 e' t1 r1 o1 H.
  destruct l1 as [|x l1]; simpl in H.
  - injection H as H _. exfalso. eapply He. eassumption.
  - injection H as _ H. eapply Htr. eassumption.
Qed.

Lemma spaced_sent delay t2 r2 tr :
  spaced delay tr ->
  (forall e t1 r1 o1 l2, tr = e :: Settled t1 r1 o1 :: l2 ->
     (e = Slept t1 delay /\ t1 + delay <= t2) \/ e = Idle t1) ->
  spaced delay (Sent t2 r2 :: tr).
Proof.
  intros Htr Hhead l1 l2 t2' r2' e t1 r1 o1 H.
  destruct l1 as [|x l1]; simpl in H.
  - injection H as -> -> H. eapply Hhead. eassumption.
  - injection H as _ H. eapply Htr. eassumption.
Qed.

Lemma parked_lookup s i p :
  parked s -> suspended s !! i = Some p -> i = 0%nat /\ suspended s = [p].
Proof.
  unfold parked. intros Hp Hl.
  destruct (suspended s) as [|a [|b l]].
  - discriminate.
  - destruct i; simpl in Hl; [injection Hl as ->; auto | discriminate].
  - destruct a; contradiction.
Qed.

Lemma invariant_init : invariant init.
Proof.
  split; simpl; auto using spaced_nil.
  unfold parked; simpl. auto.
Qed.

Lemma invariant_submit m ep d s : invariant s -> invariant (submit m ep d s).
Proof.
  intros [Hp Hf Hi Ho Hd Hs]. unfold submit, _processQueue. unfold parked in Hp.
  assert (Hids : map promise (pushed s ++ [mkRequest m ep d (length (pushed s))])
                 = seq 0 (length (pushed s ++ [mkRequest m ep d (length (pushed s))]))).
  { rewrite map_app, length_app, seq_app, Hi. reflexivity. }
  destruct (suspended s) as [|a [|b l]] eqn:Hsusp.
  - destruct Hp as (Hb & Hq & Htr). simpl. rewrite Hb, Hq. simpl.
    unfold while_test; simpl. rewrite Hq in Hf. rewrite app_nil_r in Hf.
    split; simpl.
    + unfold parked; simpl. rewrite Hsusp. simpl. eauto.
    + rewrite app_nil_r. congruence.
    + assumption.
    + rewrite Hsusp. simpl. rewrite map_app, Ho. simpl. rewrite app_nil_r. reflexivity.
    + assumption.
    + apply spaced_sent; auto. intros e t1 r1 o1 l2 E.
      destruct Htr as [Htr | (t & r & o & tl & Htr)]; rewrite Htr in E; [discriminate|].
      injection E as <- <- _ _ _. auto.
  - destruct a as [r|due].
    + destruct Hp as (Hb & Htr). simpl. rewrite Hb. simpl.
      split; simpl; try assumption; try (rewrite Hsusp; assumption).
      * unfold parked; simpl. rewrite Hsusp. auto.
      * rewrite app_assoc. congruence.
    + destruct Hp as (Hb & Hq & Htr). simpl. rewrite Hb. simpl.
      split; simpl; try assumption; try (rewrite Hsusp; assumption).
      * unfold parked; simpl. rewrite Hsusp. split; auto. split; auto.
        destruct (requestQueue s); [congruence | discriminate].
      * rewrite app_assoc. congruence.
  - destruct a; contradiction.
Qed.

Lemma invariant_after_axios r o s :
  invariant s -> suspended s = [AtAxios r] ->
  invariant (after_axios r o (unpark 0 s)).
Proof.
  intros [Hp Hf Hi Ho Hd Hs] Hsusp. unfold parked in Hp. rewrite Hsusp in Hp, Ho.
  destruct Hp as (Hb & t & tl & Htr). simpl in Ho. unfold after_axios, unpark. simpl.
  destruct (requestQueue s) as [|r' q] eqn:Hq; simpl.
  - unfold while_test; simpl. rewrite Hq, Hsusp. simpl.
    split; simpl; try assumption.
    + unfold parked; simpl. split; auto. split; auto. right. eauto.
    + rewrite Hq. assumption.
    + rewrite map_app. simpl. rewrite app_nil_r. assumption.
    + apply spaced_cons; [discriminate|]. apply spaced_cons; [discriminate|]. assumption.
  - rewrite Hsusp. simpl. split; simpl; try assumption.
    + unfold parked; simpl. rewrite Hq. split; auto. split; [discriminate|].
      eauto 10.
    + rewrite Hq. assumption.
    + rewrite map_app. simpl. rewrite app_nil_r. assumption.
    + apply spaced_cons; [discriminate|]. apply spaced_cons; [discriminate|]. assumption.
Qed.

Lemma invariant_after_delay due s :
  invariant s -> suspended s = [AtDelay due] -> due <= now s ->
  invariant (after_delay (unpark 0 s)).
Proof.
  intros [Hp Hf Hi Ho Hd Hs] Hsusp Hdue. unfold parked in Hp. rewrite Hsusp in Hp, Ho.
  destruct Hp as (Hb & Hq & t & r & o & tl & Htr & Ht). simpl in Ho.
  unfold after_delay, unpark, while_test. simpl.
  destruct (requestQueue s) as [|r' q] eqn:Hq'; [congruence|]. simpl.
  rewrite Hsusp. simpl. split; simpl; try assumption.
  - unfold parked; simpl. eauto.
  - rewrite <- app_assoc. assumption.
  - rewrite map_app, Ho, app_nil_r. reflexivity.
  - apply spaced_sent; auto. intros e t1 r1 o1 l2 E. rewrite Htr in E.
    injection E as <- <- _ _ _. left. split; auto. lia.
Qed.

Lemma invariant_elapse t s : invariant s -> invariant (set_now t s).
Proof. intros [Hp Hf Hi Ho Hd Hs]. split; simpl; auto. Qed.

Lemma invariant_exec l s s' : invariant s -> exec l s = Some s' -> invariant s'.
Proof.
  intros Hinv. destruct l as [m ep d|i o|i|dt]; simpl.
  - intros [= <-]. apply invariant_submit; assumption.
  - destruct (suspended s !! i) as [[r|due]|] eqn:Hl; try discriminate.
    intros [= <-]. destruct (parked_lookup s i _ (inv_parked s Hinv) Hl) as [-> Hs].
    apply invariant_after_axios; assumption.
  - destruct (suspended s !! i) as [[r|due]|] eqn:Hl; try discriminate.
    destruct (due <=? now s) eqn:Hd; try discriminate.
    intros [= <-]. destruct (parked_lookup s i _ (inv_parked s Hinv) Hl) as [-> Hs].
    apply invariant_after_delay with due; auto. lia.
  - destruct (0 <=? dt); try discriminate. intros [= <-].
    apply invariant_elapse; assumption.
Qed.

Lemma invariant_run ls : forall s s', invariant s -> run ls s = Some s' -> invariant s'.
Proof.
  induction ls as [|l ls IH]; simpl; intros s s' Hinv H.
  - injection H as <-. assumption.
  - destruct (exec l s) as [s1|] eqn:He; [|discriminate].
    eapply IH; [|eassumption]. eapply invariant_exec; eassumption.
Qed.

Lemma invariant_reachable s : reachable s -> invariant s.
Proof. intros [ls H]. eapply invariant_run; [apply invariant_init | eassumption]. Qed.

Lemma pushed_while_test s : pushed (while_test s) = pushed s.
Proof. unfold while_test. destruct (requestQueue s); reflexivity. Qed.

Lemma pushed_after_axios r o s : pushed (after_axios r o s) = pushed s.
Proof.
  unfold after_axios. simpl. destruct (requestQueue s) eqn:Hq; simpl; [|reflexivity].
  rewrite pushed_while_test. reflexivity.
Qed.

Lemma pushed_submit m ep d s :
  pushed (submit m ep d s) = pushed s ++ [mkRequest m ep d (length (pushed s))].
Proof.
  unfold submit, _processQueue. simpl.
  destruct (isProcessingQueue s || _); [reflexivity|]. apply pushed_while_test.
Qed.

Lemma pushed_exec l s s' :
  exec l s = Some s' ->
  map content (pushed s') = map content (pushed s) ++ submissions [l].
Proof.
  destruct l as [m ep d|i o|i|dt]; simpl.
  - intros [= <-]. rewrite pushed_submit, map_app. reflexivity.
  - destruct (suspended s !! i) as [[r|due]|]; try discriminate.
    intros [= <-]. rewrite pushed_after_axios, app_nil_r. reflexivity.
  - destruct (suspended s !! i) as [[r|due]|]; try discriminate.
    destruct (due <=? now s); try discriminate.
    intros [= <-]. unfold after_delay. rewrite pushed_while_test, app_nil_r. reflexivity.
  - destruct (0 <=? dt); try discriminate. intros [= <-].
    rewrite app_nil_r. reflexivity.
Qed.

Lemma pushed_run ls : forall s s',
  run ls s = Some s' ->
  map content (pushed s') = map content (pushed s) ++ submissions ls.
Proof.
  induction ls as [|l ls IH]; simpl; intros s s' H.
  - injection H as <-. rewrite app_nil_r. reflexivity.
  - destruct (exec l s) as [s1|] eqn:He; [|discriminate].
    rewrite (IH _ _ H), (pushed_exec _ _ _ He). simpl.
    rewrite <- app_assoc. f_equal. destruct l; reflexivity.
Qed.

Lemma run_app ls1 : forall ls2 s s1 s2,
  run ls1 s = Some s1 -> run ls2 s1 = Some s2 -> run (ls1 ++ ls2) s = Some s2.
Proof.
  induction ls1 as [|l ls1 IH]; simpl; intros ls2 s s1 s2 H1 H2.
  - injection H1 as ->. assumption.
  - destruct (exec l s) as [s'|]; [|discriminate]. eapply IH; eassumption.
Qed.

Lemma run_drain fuel answer : forall s,
  run (drain_schedule fuel answer s) s = Some (drain fuel answer s).
Proof.
  induction fuel as [|n IH]; intros s; simpl; [reflexivity|].
  destruct (suspended s) as [|[r|due] a] eqn:Hs; simpl; [reflexivity| |].
  - rewrite Hs. simpl. apply IH.
  - assert ((0 <=? Z.max 0 (due - now s)) = true) as -> by lia.
    simpl. rewrite Hs. simpl.
    assert ((due <=? now s + Z.max 0 (due - now s)) = true) as -> by lia.
    apply IH.
Qed.

Lemma reachable_drain fuel answer s : reachable s -> reachable (drain fuel answer s).
Proof.
  intros [ls H]. exists (ls ++ drain_schedule fuel answer s).
  eapply run_app; [eassumption | apply run_drain].
Qed.

Lemma in_flight_bound s : invariant s -> (in_flight s <= 1)%nat.
Proof.
  intros Hinv. pose proof (inv_parked s Hinv) as Hp. unfold parked in Hp.
  unfold in_flight. destruct (suspended s) as [|[r|due] [|b l]]; simpl; try lia;
    contradiction.
Qed.

(** Left alone with enough fuel, the machine comes to rest having sent every
    queued request in queue order and settled each with its own answer. *)
Lemma drain_rests answer fuel : forall s,
  invariant s -> (work s <= fuel)%nat ->
  let s' := drain fuel answer s in
  suspended s' = [] /\ requestQueue s' = [] /\
  sent (trace s') = sent (trace s) ++ requestQueue s /\
  delivered (trace s')
  = delivered (trace s)
      ++ map (fun r => (promise r, answer r)) (calling (suspended s) ++ requestQueue s) /\
  pushed s' = pushed s.
Proof.
  induction fuel as [|n IH]; intros s Hinv Hw; pose proof (inv_parked s Hinv) as Hp;
    unfold parked in Hp; unfold work in Hw; simpl.
  - destruct (suspended s) as [|[r|due] [|b l]] eqn:Hs; try contradiction; try lia.
    + destruct Hp as (_ & Hq & _). rewrite Hq. simpl. rewrite !app_nil_r. auto.
    + destruct Hp as (_ & Hq & _). destruct (requestQueue s); [congruence|simpl in Hw; lia].
  - destruct (suspended s) as [|[r|due] [|b l]] eqn:Hs; try contradiction.
    + destruct Hp as (_ & Hq & _). rewrite Hq. simpl. rewrite !app_nil_r. auto.
    + pose proof (invariant_after_axios r (answer r) s Hinv Hs) as Hinv'.
      specialize (IH (after_axios r (answer r) (unpark 0 s)) Hinv').
      revert IH Hinv'. unfold after_axios, unpark, work. simpl.
      destruct (requestQueue s) as [|r' q] eqn:Hq; simpl.
      * unfold while_test; simpl. rewrite Hq, Hs. simpl. intros IH _.
        destruct IH as (H1 & H2 & H3 & H4 & H5); [lia|].
        rewrite H1, H2, H3, H4, H5, Hq. simpl. rewrite !app_nil_r. auto.
      * rewrite Hs. simpl. rewrite Hq. simpl. intros IH _.
        destruct IH as (H1 & H2 & H3 & H4 & H5); [simpl in Hw; lia|].
        rewrite H1, H2, H3, H4, H5. simpl. rewrite <- app_assoc. auto.
    + destruct Hp as (Hb & Hq & t & r & o & tl & Htr & Ht).
      set (s1 := set_now (now s + Z.max 0 (due - now s)) s).
      assert (Hinv1 : invariant s1) by (apply invariant_elapse; assumption).
      assert (Hs1 : suspended s1 = [AtDelay due]) by exact Hs.
      pose proof (invariant_after_delay due s1 Hinv1 Hs1) as Hinv'.
      specialize (IH (after_delay (unpark 0 s1))).
      revert IH Hinv'. unfold after_delay, unpark, while_test, work. simpl.
      destruct (requestQueue s) as [|r' q] eqn:Hq'; [congruence|]. simpl.
      rewrite Hs. simpl. intros IH Hinv'.
      destruct IH as (H1 & H2 & H3 & H4 & H5); [apply Hinv'; lia | simpl in Hw; lia |].
      rewrite H1, H2, H3, H4, H5. simpl. rewrite <- app_assoc. auto.
Qed.

Lemma work_bound s : invariant s -> (work s <= 2 * length (requestQueue s) + 1)%nat.
Proof.
  intros Hinv. unfold work. destruct (suspended s) as [|[r|due] a]; lia.
Qed.

End PipelineInvariant.

Section PipelineProperties.
Import Pipeline.

Lemma sent_ids_distinct s : invariant s -> NoDup (map promise (sent (trace s))).
Proof.
  intros Hinv.
  assert (H : NoDup (map promise (sent (trace s) ++ requestQueue s))).
  { rewrite (inv_fifo s Hinv), (inv_ids s Hinv). apply NoDup_seq. }
  rewrite map_app in H. apply NoDup_app in H. tauto.
Qed.

(** C1.  Whatever the schedule (submissions of concurrent callers, replies,
    timers and the passing of time, in any interleaving): the requests pushed
    are those submitted, in the order of submission; the requests handed to
    the transport, in the order they were handed, followed by the queue are
    the requests pushed, so execution follows submission order with no
    reordering; at most one call is in flight; and once submissions stop the
    machine reaches a state where every submitted request has been sent, in
    submission order. *)
Theorem requests_run_in_submission_order ls s :
  run ls init = Some s ->
  map content (pushed s) = submissions ls /\
  sent (trace s) ++ requestQueue s = pushed s /\
  (in_flight s <= 1)%nat /\
  forall answer,
    let s' := drain (2 * length (requestQueue s) + 1) answer s in
    reachable s' /\ (in_flight s' <= 1)%nat /\
    sent (trace s') = pushed s /\
    map content (sent (trace s')) = submissions ls.
Proof.
  intros Hrun.
  assert (Hreach : reachable s) by (exists ls; assumption).
  pose proof (invariant_reachable s Hreach) as Hinv.
  pose proof (pushed_run ls _ _ Hrun) as Hpushed. simpl in Hpushed.
  split; [assumption|]. split; [apply (inv_fifo s Hinv)|].
  split; [apply in_flight_bound; assumption|].
  intros answer s'.
  destruct (drain_rests answer (2 * length (requestQueue s) + 1) s Hinv
              (work_bound s Hinv)) as (_ & _ & Hsent & _ & _).
  fold s' in Hsent. rewrite (inv_fifo s Hinv) in Hsent.
  assert (Hreach' : reachable s') by (apply reachable_drain; assumption).
  split; [assumption|].
  split; [apply in_flight_bound, invariant_reachable; assumption|].
  split; [assumption|]. rewrite Hsent. assumption.
Qed.

(** C4.  The delay is the constructor's 100 ms.  Between the settling of one
    request and the sending of the next one, either the timer was armed for
    [RATE_LIMIT_MS] at the time of settling and the next request is sent no
    earlier than that time plus the delay, or the activation ended at the
    time of settling.  When a call ends, the timer is armed exactly when the
    queue is not empty; with an empty queue [_processQueue] finishes at
    once, with no timer and no time passing. *)
Theorem delay_between_consecutive_requests ls s :
  run ls init = Some s ->
  RATE_LIMIT_MS s = 100 /\
  (forall h1 h2 t1 r1 o1 e t2 r2,
     rev (trace s) = h1 ++ Settled t1 r1 o1 :: e :: Sent t2 r2 :: h2 ->
     (e = Slept t1 (RATE_LIMIT_MS s) /\ t1 + RATE_LIMIT_MS s <= t2) \/ e = Idle t1) /\
  (forall i o s',
     exec (Reply i o) s = Some s' ->
     exists r,
       suspended s = [AtAxios r] /\
       match requestQueue s with
       | [] =>
           trace s' = Idle (now s) :: Settled (now s) r o :: trace s /\
           suspended s' = [] /\ isProcessingQueue s' = false /\ now s' = now s
       | _ :: _ =>
           trace s' = Slept (now s) (RATE_LIMIT_MS s) :: Settled (now s) r o :: trace s /\
           suspended s' = [AtDelay (now s + RATE_LIMIT_MS s)] /\
           requestQueue s' = requestQueue s /\ isProcessingQueue s' = true
       end) /\
  (forall i s',
     exec (Wake i) s = Some s' ->
     exists due r q,
       suspended s = [AtDelay due] /\ due <= now s /\ requestQueue s = r :: q /\
       trace s' = Sent (now s) r :: trace s).
Proof.
  intros Hrun.
  assert (Hinv : invariant s) by (apply invariant_reachable; exists ls; assumption).
  split; [apply (inv_delay s Hinv)|]. split; [|split].
  - intros h1 h2 t1 r1 o1 e t2 r2 H.
    apply (inv_spaced s Hinv (rev h2) (rev h1) t2 r2 e t1 r1 o1).
    rewrite <- (rev_involutive (trace s)), H, rev_app_distr. simpl.
    rewrite <- !app_assoc. reflexivity.
  - intros i o s'. simpl.
    destruct (suspended s !! i) as [[r|due]|] eqn:Hl; try discriminate.
    intros [= <-].
    destruct (parked_lookup s i _ (inv_parked s Hinv) Hl) as [-> Hs].
    exists r. split; [assumption|].
    pose proof (inv_parked s Hinv) as Hp. unfold parked in Hp. rewrite Hs in Hp.
    destruct Hp as (Hb & _).
    unfold after_axios, unpark, while_test. simpl.
    destruct (requestQueue s) as [|r' q] eqn:Hq; simpl; rewrite ?Hq, ?Hs; simpl; auto.
  - intros i s'. simpl.
    destruct (suspended s !! i) as [[r|due]|] eqn:Hl; try discriminate.
    destruct (due <=? now s) eqn:Hdue; try discriminate.
    intros [= <-].
    destruct (parked_lookup s i _ (inv_parked s Hinv) Hl) as [-> Hs].
    pose proof (inv_parked s Hinv) as Hp. unfold parked in Hp. rewrite Hs in Hp.
    destruct Hp as (Hb & Hq & _).
    destruct (requestQueue s) as [|r q] eqn:Hq'; [congruence|].
    exists due, r, q. split; [assumption|]. split; [lia|]. split; [reflexivity|].
    unfold after_delay, unpark, while_test. simpl. rewrite Hq'. reflexivity.
Qed.

(** C5.  When the call of a queued request fails, the error is handed, as it
    is, to the [reject] of that request's own promise; the request is not put
    back on the queue and is not sent again; no promise is settled twice;
    and the requests still queued are all sent afterwards, in queue order,
    each settled with the outcome of its own call whatever the failed one
    was. *)
Theorem failure_goes_to_its_caller_and_queue_drains ls s i err s' :
  run ls init = Some s ->
  exec (Reply i (Rejected err)) s = Some s' ->
  exists r,
    suspended s = [AtAxios r] /\
    delivered (trace s') = delivered (trace s) ++ [(promise r, Rejected err)] /\
    requestQueue s' = requestQueue s /\
    sent (trace s') = sent (trace s) /\
    calling (suspended s') = [] /\
    ~ In (promise r) (map promise (requestQueue s)) /\
    forall answer,
      let s'' := drain (2 * length (requestQueue s') + 1) answer s' in
      reachable s'' /\ requestQueue s'' = [] /\ suspended s'' = [] /\
      sent (trace s'') = sent (trace s) ++ requestQueue s /\
      delivered (trace s'')
      = delivered (trace s) ++ (promise r, Rejected err)
          :: map (fun q => (promise q, answer q)) (requestQueue s) /\
      NoDup (map promise (sent (trace s''))) /\
      NoDup (map fst (delivered (trace s''))).
Proof.
  intros Hrun Hexec.
  assert (Hreach : reachable s) by (exists ls; assumption).
  pose proof (invariant_reachable s Hreach) as Hinv.
  assert (Hinv' : invariant s') by (eapply invariant_exec; eassumption).
  assert (Hreach' : reachable s').
  { exists (ls ++ [Reply i (Rejected err)]). eapply run_app; [eassumption|].
    simpl. simpl in Hexec. rewrite Hexec. reflexivity. }
  simpl in Hexec.
  destruct (suspended s !! i) as [[r|due]|] eqn:Hl; try discriminate.
  injection Hexec as <-.
  destruct (parked_lookup s i _ (inv_parked s Hinv) Hl) as [-> Hs].
  exists r. split; [assumption|].
  assert (Hd : delivered (trace (after_axios r (Rejected err) (unpark 0 s)))
               = delivered (trace s) ++ [(promise r, Rejected err)]).
  { unfold after_axios, unpark, while_test. simpl.
    destruct (requestQueue s); reflexivity. }
  assert (Hq : requestQueue (after_axios r (Rejected err) (unpark 0 s)) = requestQueue s).
  { unfold after_axios, unpark, while_test. simpl.
    destruct (requestQueue s) eqn:E; simpl; rewrite ?E; reflexivity. }
  assert (Hse : sent (trace (after_axios r (Rejected err) (unpark 0 s))) = sent (trace s)).
  { unfold after_axios, unpark, while_test. simpl.
    destruct (requestQueue s) eqn:E; simpl; rewrite ?E; reflexivity. }
  assert (Hc : calling (suspended (after_axios r (Rejected err) (unpark 0 s))) = []).
  { unfold after_axios, unpark, while_test. simpl.
    destruct (requestQueue s) eqn:E; simpl; rewrite ?E, ?Hs; reflexivity. }
  split; [assumption|]. split; [assumption|]. split; [assumption|].
  split; [assumption|]. split.
  - assert (H : NoDup (map promise (sent (trace s) ++ requestQueue s))).
    { rewrite (inv_fifo s Hinv), (inv_ids s Hinv). apply NoDup_seq. }
    pose proof (inv_parked s Hinv) as Hp. unfold parked in Hp. rewrite Hs in Hp.
    destruct Hp as (_ & t & tl & Htr). rewrite Htr in H. simpl in H.
    rewrite map_app in H. apply NoDup_app in H. destruct H as (_ & H & _).
    rewrite <- list_elem_of_In. apply H.
    apply list_elem_of_In, in_map, in_or_app. right. left. reflexivity.
  - intros answer s''.
    destruct (drain_rests answer (2 * length (requestQueue (after_axios r (Rejected err) (unpark 0 s))) + 1)
                _ Hinv' (work_bound _ Hinv')) as (H1 & H2 & H3 & H4 & _).
    fold s'' in H1, H2, H3, H4.
    assert (Hreach'' : reachable s'') by (apply reachable_drain; assumption).
    pose proof (invariant_reachable s'' Hreach'') as Hinv''.
    rewrite Hse, Hq in H3. rewrite Hd, Hc, Hq in H4. simpl in H4.
    rewrite <- app_assoc in H4. simpl in H4.
    split; [assumption|]. split; [assumption|]. split; [assumption|].
    split; [assumption|]. split; [assumption|].
    split; [apply sent_ids_distinct; assumption|].
    pose proof (sent_ids_distinct s'' Hinv'') as Hnd.
    rewrite (inv_once s'' Hinv''), H1 in Hnd. simpl in Hnd.
    rewrite app_nil_r in Hnd. assumption.
Qed.

(** The burst is handed to the transport one request at a time. *)
Example burst_is_served_in_order :
  map content (sent (trace (drain 7 (fun _ => Resolved no_body) (state_after burst))))
  = [("GET", "/a", None); ("GET", "/b", None);
     ("PUT", "/c", Some (PlayTimeSettings 0 false))].
Proof. vm_compute. reflexivity. Qed.

Example busy_history :
  rev (trace (state_after busy))
  = [Sent 0 (mkRequest "GET" "/a" None 0);
     Settled 30 (mkRequest "GET" "/a" None 0) (Resolved no_body);
     Slept 30 100;
     Sent 130 (mkRequest "GET" "/b" None 1);
     Settled 135 (mkRequest "GET" "/b" None 1) (Rejected network_error);
     Slept 135 100].
Proof. vm_compute. reflexivity. Qed.

(** The timer cannot fire early: the schedule is refused. *)
Example early_timer_is_refused :
  run (burst ++ [Reply 0 (Resolved no_body); Elapse 99; Wake 0]) init = None.
Proof. vm_compute. reflexivity. Qed.

(** A caller that finds the machine at rest has its request sent at once and
    settled with what the call ends with, and leaves the machine at rest:
    this is the [request] of the sequential view. *)
Lemma lone_request m ep d o s :
  invariant s -> suspended s = [] ->
  exists s',
    run [Request m ep d; Reply 0 o] s = Some s' /\
    trace s'
    = Idle (now s) :: Settled (now s) (mkRequest m ep d (length (pushed s))) o
        :: Sent (now s) (mkRequest m ep d (length (pushed s))) :: trace s /\
    suspended s' = [] /\ requestQueue s' = [] /\ now s' = now s.
Proof.
  intros Hinv Hs. pose proof (inv_parked s Hinv) as Hp. unfold parked in Hp.
  rewrite Hs in Hp. destruct Hp as (Hb & Hq & _).
  eexists. simpl. unfold submit, _processQueue. simpl. rewrite Hb, Hq. simpl.
  unfold while_test. simpl. rewrite Hs. simpl.
  unfold after_axios, unpark, while_test. simpl. rewrite Hs. simpl.
  repeat split; reflexivity.
Qed.

Lemma requests_run_in_submission_order_witness :
  run busy init = Some (state_after busy) /\
  sent (trace (state_after busy)) ++ requestQueue (state_after busy)
  = pushed (state_after busy) /\
  (in_flight (state_after busy) <= 1)%nat.
Proof.
  assert (Hrun : run busy init = Some (state_after busy)) by (vm_compute; reflexivity).
  split; [exact Hrun|].
  destruct (requests_run_in_submission_order busy (state_after busy) Hrun)
    as (_ & Hfifo & Hone & _).
  split; assumption.
Defined.

Lemma delay_between_consecutive_requests_witness :
  run busy init = Some (state_after busy) /\
  RATE_LIMIT_MS (state_after busy) = 100 /\
  forall h1 h2 t1 r1 o1 e t2 r2,
    rev (trace (state_after busy)) = h1 ++ Settled t1 r1 o1 :: e :: Sent t2 r2 :: h2 ->
    (e = Slept t1 (RATE_LIMIT_MS (state_after busy)) /\
     t1 + RATE_LIMIT_MS (state_after busy) <= t2) \/ e = Idle t1.
Proof.
  assert (Hrun : run busy init = Some (state_after busy)) by (vm_compute; reflexivity).
  split; [exact Hrun|].
  destruct (delay_between_consecutive_requests busy (state_after busy) Hrun)
    as (Hdelay & Hgap & _).
  split; assumption.
Defined.

Lemma failure_goes_to_its_caller_and_queue_drains_witness :
  run burst init = Some (state_after burst) /\
  exec (Reply 0 (Rejected network_error)) (state_after burst)
  = Some (state_after (burst ++ [Reply 0 (Rejected network_error)])) /\
  exists r,
    suspended (state_after burst) = [AtAxios r] /\
    delivered (trace (state_after (burst ++ [Reply 0 (Rejected network_error)])))
    = delivered (trace (state_after burst)) ++ [(promise r, Rejected network_error)].
Proof.
  assert (Hrun : run burst init = Some (state_after burst)) by (vm_compute; reflexivity).
  assert (Hexec : exec (Reply 0 (Rejected network_error)) (state_after burst)
                  = Some (state_after (burst ++ [Reply 0 (Rejected network_error)])))
    by (vm_compute; reflexivity).
  split; [exact Hrun|]. split; [exact Hexec|].
  destruct (failure_goes_to_its_caller_and_queue_drains burst (state_after burst) 0
              network_error _ Hrun Hexec) as (r & Hs & Hd & _).
  exists r. split; assumption.
Defined.

End PipelineProperties.

(** * Properties of the token manager *)

Section TokenManager.
Import Psn.

Lemma ensureAuthenticated_fresh w :
  truthy (accessToken (psn w)) = true ->
  expiring (tokenExpiry (psn w)) (now w) = false ->
  ensureAuthenticated w = (Return tt, w).
Proof.
  intros Ha He. unfold ensureAuthenticated, bind, get. rewrite Ha, He. reflexivity.
Qed.

Lemma request_unfold m ep d w :
  request m ep d w
  = match ensureAuthenticated w with
    | (Return _, w1) =>
        outbound (Call m (baseURL +:+ ep) d (accessToken (psn w1)) (region (psn w1))) w1
    | (Throw e, w1) => (Throw e, w1)
    end.
Proof. reflexivity. Qed.

(** What [authenticate] does, by the credential and the reply. *)
Lemma authenticate_cases w :
  (truthy (npsso (psn w)) = false /\
   grants (log (snd (authenticate w))) = grants (log w) /\
   fst (authenticate w)
   = Throw (newError "PSN authentication failed: NPSSO token is required for authentication"))
  \/
  (truthy (npsso (psn w)) = true /\
   grants (log (snd (authenticate w))) = grants (log w) ++ [NpssoGrant (npsso (psn w))] /\
   match outcome (remote w (calls w)) with
   | Resolved data =>
       fst (authenticate w) = Return true /\
       accessToken (psn (snd (authenticate w))) = access_token data
   | Rejected e =>
       fst (authenticate w)
       = Throw (newError ("PSN authentication failed: " +:+ message e))
   end).
Proof.
  unfold authenticate, try_catch, bind, get, console, modify, throw, ret, outbound,
    store_tokens. simpl.
  destruct (truthy (npsso (psn w))) eqn:Hn; simpl.
  - right. split; [reflexivity|].
    destruct (outcome (remote w (calls w))) as [data|e]; simpl; auto.
  - left. auto.
Qed.

Lemma authenticate_printed w :
  printed "[PSN API] Authenticating..." (log (snd (authenticate w)))
  = S (printed "[PSN API] Authenticating..." (log w)).
Proof.
  unfold authenticate, try_catch, bind, get, console, modify, throw, ret, outbound,
    store_tokens. simpl.
  destruct (truthy (npsso (psn w))); simpl; [|reflexivity].
  destruct (outcome (remote w (calls w))); reflexivity.
Qed.

(** C2.  With no access token, [ensureAuthenticated] is one [authenticate],
    which posts the credential to the token endpoint.  With an access token
    whose expiry [e] is a set timestamp no later than [now + 300000], it is
    one [refreshAccessToken], whose first exchange posts the stored refresh
    token, and its only one when that exchange succeeds.  With an access
    token whose expiry is later than [now + 300000], it returns at once and
    leaves the world as it is: no exchange is made. *)
Theorem ensureAuthenticated_exchanges w :
  (truthy (accessToken (psn w)) = false ->
   ensureAuthenticated w = (authenticate ;; ret tt) w /\
   (truthy (npsso (psn w)) = true ->
    grants (log (snd (ensureAuthenticated w)))
    = grants (log w) ++ [NpssoGrant (npsso (psn w))])) /\
  (forall e,
     truthy (accessToken (psn w)) = true -> tokenExpiry (psn w) = Some e -> e <> 0 ->
     now w + 300000 >= e ->
     ensureAuthenticated w = (refreshAccessToken ;; ret tt) w /\
     exists fallback,
       grants (log (snd (ensureAuthenticated w)))
       = grants (log w) ++ RefreshGrant (refreshToken (psn w)) :: fallback /\
       (forall data, outcome (remote w (calls w)) = Resolved data ->
          fallback = [] /\ fst (ensureAuthenticated w) = Return tt)) /\
  (forall e,
     truthy (accessToken (psn w)) = true -> tokenExpiry (psn w) = Some e ->
     now w + 300000 < e ->
     ensureAuthenticated w = (Return tt, w) /\
     grants (log (snd (ensureAuthenticated w))) = grants (log w)).
Proof.
  split; [|split].
  - intros Ha.
    assert (E : ensureAuthenticated w = (authenticate ;; ret tt) w).
    { unfold ensureAuthenticated at 1, bind at 1, get. rewrite Ha. reflexivity. }
    split; [exact E|]. intros Hn. rewrite E.
    destruct (authenticate_cases w) as [(Hn' & _) | (_ & Hg & _)]; [congruence|].
    unfold bind, ret. destruct (authenticate w) as [[b|err] w1]; exact Hg.
  - intros e Ha He Hne Hdue.
    assert (Hx : expiring (tokenExpiry (psn w)) (now w) = true).
    { unfold expiring. rewrite He. apply andb_true_intro. split.
      - apply negb_true_iff, Z.eqb_neq. assumption.
      - apply Z.leb_le. lia. }
    assert (E : ensureAuthenticated w = (refreshAccessToken ;; ret tt) w).
    { unfold ensureAuthenticated at 1, bind at 1, get. rewrite Ha, Hx. reflexivity. }
    split; [exact E|]. rewrite E.
    unfold refreshAccessToken, try_catch, bind, get, console, modify, ret, outbound,
      store_tokens. simpl.
    destruct (outcome (remote w (calls w))) as [data|err] eqn:Ho; simpl.
    + exists []. split; [reflexivity|]. intros data' _. auto.
    + set (w1 := record (Console _) _).
      destruct (authenticate_cases w1) as [(Hn & Hg & _) | (Hn & Hg & _)].
      * exists []. split; [|discriminate].
        destruct (authenticate w1) as [[b|err'] w2]; simpl in *; rewrite Hg; reflexivity.
      * exists [NpssoGrant (npsso (psn w1))]. split; [|discriminate].
        destruct (authenticate w1) as [[b|err'] w2]; simpl in *; rewrite Hg;
          simpl; rewrite <- app_assoc; reflexivity.
  - intros e Ha He Hlate.
    assert (E : ensureAuthenticated w = (Return tt, w)).
    { apply ensureAuthenticated_fresh; [assumption|]. unfold expiring. rewrite He.
      apply andb_false_intro2. apply Z.leb_gt. lia. }
    rewrite E. auto.
Qed.

(** C10.  With an access token and an expiry that is not set,
    [ensureAuthenticated] returns at once and leaves the world as it is, at
    any time of the clock; a request then goes out with the stored token and
    no exchange with the token endpoint is made before it. *)
Theorem unset_expiry_is_never_refreshed w :
  truthy (accessToken (psn w)) = true ->
  tokenExpiry (psn w) = None ->
  ensureAuthenticated w = (Return tt, w) /\
  forall m ep d,
    grants (log (snd (request m ep d w))) = grants (log w) /\
    log (snd (request m ep d w))
    = Call m (baseURL +:+ ep) d (accessToken (psn w)) (region (psn w))
        (outcome (remote w (calls w))) :: log w.
Proof.
  intros Ha He.
  assert (E : ensureAuthenticated w = (Return tt, w)).
  { apply ensureAuthenticated_fresh; [assumption|]. rewrite He. reflexivity. }
  split; [exact E|]. intros m ep d.
  rewrite request_unfold, E. unfold outbound.
  destruct (outcome (remote w (calls w))); simpl; auto.
Qed.

(** C3, as stated, fails: with no token pair and a credential that is
    present, [ensureAuthenticated] fails as soon as the first exchange is
    refused, and no refresh was ever attempted. *)
Lemma first_authentication_can_fail :
  ~ (forall w e w',
       ensureAuthenticated w = (Throw e, w') ->
       truthy (npsso (psn w)) = false \/
       exists token e1, In (Post (RefreshGrant token) (Rejected e1)) (log w')).
Proof.
  intros H.
  destruct (ensureAuthenticated cold_offline) as [[[]|e] w'] eqn:E; [discriminate E|].
  specialize (H _ _ _ E). injection E as _ <-.
  destruct H as [H | (token & e1 & H)]; [discriminate H|].
  simpl in H. repeat (destruct H as [H|H]; [discriminate H|]). exact H.
Qed.

(** C3, amended.  When the refresh exchange is refused, [authenticate] runs
    exactly once before [ensureAuthenticated] returns or throws: it posts
    the credential once, or posts nothing when the credential is missing or
    empty, and [ensureAuthenticated] succeeds exactly when that exchange is
    accepted.  [ensureAuthenticated] throws exactly when a full
    authentication fails (credential missing or empty, or exchange
    refused): the first one when there is no access token, or the one that
    follows a refused refresh. *)
Theorem failed_refresh_reauthenticates_once w res w' :
  ensureAuthenticated w = (res, w') ->
  (truthy (accessToken (psn w)) = true ->
   expiring (tokenExpiry (psn w)) (now w) = true ->
   forall e1, outcome (remote w (calls w)) = Rejected e1 ->
     printed "[PSN API] Authenticating..." (log w')
     = S (printed "[PSN API] Authenticating..." (log w)) /\
     grants (log w')
     = grants (log w) ++ RefreshGrant (refreshToken (psn w))
         :: (if truthy (npsso (psn w)) then [NpssoGrant (npsso (psn w))] else []) /\
     (res = Return tt <->
      truthy (npsso (psn w)) = true /\
      exists data, outcome (remote w (S (calls w))) = Resolved data)) /\
  ((exists e, res = Throw e) <->
   (truthy (accessToken (psn w)) = false /\
    (truthy (npsso (psn w)) = false \/
     exists e0, outcome (remote w (calls w)) = Rejected e0)) \/
   (truthy (accessToken (psn w)) = true /\
    expiring (tokenExpiry (psn w)) (now w) = true /\
    (exists e1, outcome (remote w (calls w)) = Rejected e1) /\
    (truthy (npsso (psn w)) = false \/
     exists e2, outcome (remote w (S (calls w))) = Rejected e2))).
Proof.
  unfold ensureAuthenticated, refreshAccessToken, authenticate, try_catch, bind, get,
    console, modify, throw, ret, outbound, store_tokens. simpl.
  destruct (truthy (accessToken (psn w))) eqn:Ha; simpl.
  - destruct (expiring (tokenExpiry (psn w)) (now w)) eqn:Hx; simpl.
    + destruct (outcome (remote w (calls w))) as [d1|e1] eqn:H1; simpl.
      * intros [= <- <-]. split; [intros _ _ e1; discriminate|].
        split; [intros [e He]; discriminate|].
        intros [(Hf & _)|(_ & _ & (e1 & He1) & _)]; discriminate.
      * destruct (truthy (npsso (psn w))) eqn:Hn; simpl.
        -- destruct (outcome (remote w (S (calls w)))) as [d2|e2] eqn:H2; simpl;
             intros [= <- <-]; simpl.
           ++ split.
              ** intros _ _ e1' _. split; [reflexivity|].
                 split; [rewrite <- app_assoc; reflexivity|]. split; eauto.
              ** split; [intros [e He]; discriminate|].
                 intros [(Hf & _)|(_ & _ & _ & [Hf|(e2 & He2)])]; discriminate.
           ++ split.
              ** intros _ _ e1' _. split; [reflexivity|].
                 split; [rewrite <- app_assoc; reflexivity|].
                 split; [discriminate|]. intros (_ & d & Hd); discriminate.
              ** split; [|eauto]. intros _. right. eauto 10.
        -- intros [= <- <-]; simpl. split.
           ++ intros _ _ e1' _. split; [reflexivity|]. split; [reflexivity|].
              split; [discriminate|]. intros (Hf & _); discriminate.
           ++ split; [|eauto]. intros _. right. eauto 10.
    + intros [= <- <-]. split; [intros _ Hf; discriminate|].
      split; [intros [e He]; discriminate|].
      intros [(Hf & _)|(_ & Hf & _)]; discriminate.
  - destruct (truthy (npsso (psn w))) eqn:Hn; simpl.
    + destruct (outcome (remote w (calls w))) as [d1|e1] eqn:H1; simpl;
        intros [= <- <-]; (split; [intros Hf; discriminate|]).
      * split; [intros [e He]; discriminate|].
        intros [(_ & [Hf|(e0 & He0)])|(Hf & _)]; discriminate.
      * split; [|eauto]. intros _. left. eauto.
    + intros [= <- <-]. split; [intros Hf; discriminate|].
      split; [|eauto]. intros _. left. auto.
Qed.

(** The expiry that an exchange stores is a set timestamp whenever the clock
    is past the epoch and the lifetime is not negative. *)
Lemma stored_expiry_is_set data w seconds :
  0 < now w -> expires_in data = Some seconds -> 0 <= seconds ->
  exists e, tokenExpiry (psn (snd (store_tokens data w))) = Some e /\ 0 < e.
Proof.
  intros Hnow He Hs. unfold store_tokens, modify. simpl. rewrite He.
  eexists. split; [reflexivity|]. lia.
Qed.

(** An expiry of [0] is falsy at line 586 and counts as not set. *)
Example zero_expiry_counts_as_unset :
  let w := world_at 1000000 (fun _ => accepted token_body) (signed_in (Some 0)) in
  ensureAuthenticated w = (Return tt, w).
Proof. reflexivity. Qed.

Lemma ensureAuthenticated_exchanges_witness :
  grants (log (snd (ensureAuthenticated cold))) = [NpssoGrant (Some "npsso-1")] /\
  (exists fallback,
     grants (log (snd (ensureAuthenticated stale)))
     = RefreshGrant (Some "refresh-1") :: fallback) /\
  ensureAuthenticated fresh = (Return tt, fresh).
Proof.
  split; [|split].
  - destruct (ensureAuthenticated_exchanges cold) as (H & _).
    destruct (H eq_refl) as (_ & Hg). exact (Hg eq_refl).
  - destruct (ensureAuthenticated_exchanges stale) as (_ & H & _).
    destruct (H 1200000 eq_refl eq_refl) as (_ & fallback & Hg & _);
      [discriminate | simpl; lia |].
    exists fallback. exact Hg.
  - destruct (ensureAuthenticated_exchanges fresh) as (_ & _ & H).
    destruct (H 5000000 eq_refl eq_refl) as (Hr & _); [simpl; lia|]. exact Hr.
Defined.

Lemma unset_expiry_is_never_refreshed_witness :
  truthy (accessToken (psn unset)) = true /\ tokenExpiry (psn unset) = None /\
  ensureAuthenticated unset = (Return tt, unset) /\
  grants (log (snd (request "GET" "/api/familyManagement/v1/families" None unset))) = [].
Proof.
  split; [reflexivity|]. split; [reflexivity|].
  destruct (unset_expiry_is_never_refreshed unset eq_refl eq_refl) as (Hr & Hreq).
  split; [exact Hr|].
  exact (proj1 (Hreq "GET" "/api/familyManagement/v1/families" None)).
Defined.

Lemma failed_refresh_reauthenticates_once_witness :
  ensureAuthenticated stale_flaky = (Return tt, snd (ensureAuthenticated stale_flaky)) /\
  grants (log (snd (ensureAuthenticated stale_flaky)))
  = [RefreshGrant (Some "refresh-1"); NpssoGrant (Some "npsso-1")] /\
  printed "[PSN API] Authenticating..." (log (snd (ensureAuthenticated stale_flaky))) = 1%nat.
Proof.
  assert (Hrun : ensureAuthenticated stale_flaky
                 = (Return tt, snd (ensureAuthenticated stale_flaky)))
    by (vm_compute; reflexivity).
  split; [exact Hrun|].
  destruct (failed_refresh_reauthenticates_once stale_flaky _ _ Hrun) as (H & _).
  destruct (H eq_refl eq_refl network_error eq_refl) as (Hp & Hg & _).
  split; [exact Hg | exact Hp].
Defined.

(** The first authentication of a plugin that cannot reach the server. *)
Example cold_offline_fails :
  fst (ensureAuthenticated cold_offline)
  = Throw (newError "PSN authentication failed: Network Error") /\
  grants (log (snd (ensureAuthenticated cold_offline))) = [NpssoGrant (Some "npsso-1")].
Proof. vm_compute. split; reflexivity. Qed.

(** An accepted refresh replaces the token pair and moves the expiry. *)
Example stale_is_refreshed :
  let w := snd (ensureAuthenticated stale) in
  accessToken (psn w) = Some "access-2" /\ refreshToken (psn w) = Some "refresh-2" /\
  tokenExpiry (psn w) = Some 4600020 /\ now w = 1000020.
Proof. vm_compute. repeat split; reflexivity. Qed.

End TokenManager.

(** * Frame properties of the sequential view *)

Import Psn.

#[global] Instance later_refl : Reflexive later.
Proof. intros w. unfold later. repeat split; auto. Qed.

#[global] Instance later_trans : Transitive later.
Proof.
  intros a b c (H1 & H2 & H3 & H4 & H5 & H6 & H7 & H8) (G1 & G2 & G3 & G4 & G5 & G6 & G7 & G8).
  unfold later. repeat split; try congruence. lia.
Qed.

#[global] Instance quiet_refl : Reflexive quiet.
Proof. intros w. split; reflexivity. Qed.

#[global] Instance quiet_trans : Transitive quiet.
Proof. intros a b c [H1 H2] [G1 G2]. split; congruence. Qed.

#[global] Instance same_plugin_refl : Reflexive same_plugin.
Proof. intros w. reflexivity. Qed.

#[global] Instance same_plugin_trans : Transitive same_plugin.
Proof. intros a b c H G. unfold same_plugin in *. congruence. Qed.

#[global] Instance silent_refl : Reflexive silent.
Proof. intros w. reflexivity. Qed.

#[global] Instance silent_trans : Transitive silent.
Proof. intros a b c H G. unfold silent in *. congruence. Qed.

Section Combinators.
Context (P : World -> World -> Prop) `{!Reflexive P} `{!Transitive P}.

Lemma preserves_ret {A} (a : A) : preserves P (ret a).
Proof using All. intros w res w' [= <- <-]. reflexivity. Qed.

Lemma preserves_throw {A} e : preserves P (@throw A e).
Proof using All. intros w res w' [= <- <-]. reflexivity. Qed.

Lemma preserves_get : preserves P get.
Proof using All. intros w res w' [= <- <-]. reflexivity. Qed.

Lemma preserves_bind {A B} (c : M A) (k : A -> M B) :
  preserves P c -> (forall a, preserves P (k a)) -> preserves P (bind c k).
Proof using All.
  intros Hc Hk w res w'. unfold bind.
  destruct (c w) as [[a|e] w1] eqn:E.
  - intros E'. transitivity w1; [eapply Hc | eapply Hk]; eassumption.
  - intros [= <- <-]. eapply Hc; eassumption.
Qed.

Lemma preserves_try_catch {A} (c : M A) (h : Error -> M A) :
  preserves P c -> (forall e, preserves P (h e)) -> preserves P (try_catch c h).
Proof using All.
  intros Hc Hh w res w'. unfold try_catch.
  destruct (c w) as [[a|e] w1] eqn:E.
  - intros [= <- <-]. eapply Hc; eassumption.
  - intros E'. transitivity w1; [eapply Hc | eapply Hh]; eassumption.
Qed.

Lemma preserves_modify (f : World -> World) :
  (forall w, P w (f w)) -> preserves P (modify f).
Proof using All. intros Hf w res w' [= <- <-]. apply Hf. Qed.

Lemma preserves_outbound ev :
  (forall w, P w (record (ev (outcome (remote w (calls w)))) (served w))) ->
  preserves P (outbound ev).
Proof using All.
  intros H w res w'. unfold outbound.
  destruct (outcome (remote w (calls w))) eqn:E; intros [= <- <-];
    specialize (H w); rewrite E in H; exact H.
Qed.

Lemma preserves_for_of {A} (xs : list A) (body : A -> M unit) :
  (forall x, preserves P (body x)) -> preserves P (for_of xs body).
Proof using All.
  intros Hb. induction xs as [|x xs IH]; simpl.
  - apply preserves_ret.
  - apply preserves_bind; auto.
Qed.

Lemma preserves_cache_get key :
  (forall w, P w (set_psn (set_cache (delete key (cache (psn w))) (psn w)) w)) ->
  preserves P (cache_get key).
Proof using All.
  intros H w res w'. unfold cache_get.
  destruct (cache (psn w) !! key) as [[v t]|]; [destruct (negb (t =? 0) && (t <? now w))|];
    intros [= <- <-]; auto; reflexivity.
Qed.

End Combinators.

Ltac head_of t := lazymatch t with ?f _ => head_of f | _ => t end.

Ltac related :=
  intros; unfold later, quiet, same_plugin, silent; simpl; repeat split; auto with arith.

(** Goes through a computation along its structure, down to the accesses
    to the world. *)
Ltac frame :=
  cbv beta zeta;
  lazymatch goal with
  | |- preserves _ (bind _ _) =>
      apply preserves_bind; [typeclasses eauto .. | frame | intros ?; frame]
  | |- preserves _ (try_catch _ _) =>
      apply preserves_try_catch; [typeclasses eauto .. | frame | intros ?; frame]
  | |- preserves _ (ret _) => apply preserves_ret; typeclasses eauto
  | |- preserves _ (throw _) => apply preserves_throw; typeclasses eauto
  | |- preserves _ get => apply preserves_get; typeclasses eauto
  | |- preserves _ (modify _) =>
      apply preserves_modify; [typeclasses eauto .. | related]
  | |- preserves _ (outbound _) =>
      apply preserves_outbound; [typeclasses eauto .. | related]
  | |- preserves _ (cache_get _) =>
      apply preserves_cache_get; [typeclasses eauto .. | related]
  | |- preserves _ (for_of _ _) =>
      apply preserves_for_of; [typeclasses eauto .. | intros ?; frame]
  | |- preserves _ (if ?b then _ else _) => destruct b; frame
  | |- preserves _ (match ?x with _ => _ end) => destruct x; frame
  | |- preserves _ ?c => let h := head_of c in unfold h; frame
  end.

Lemma ensureAuthenticated_later : preserves later ensureAuthenticated.
Proof. frame. Qed.

Lemma ensureAuthenticated_quiet : preserves quiet ensureAuthenticated.
Proof. frame. Qed.

Lemma ensureAuthenticated_same_plugin : preserves same_plugin ensureAuthenticated.
Proof. frame. Qed.

Lemma setPlayTimeLimit_later a l : preserves later (setPlayTimeLimit a l).
Proof. frame. Qed.

Lemma setPlayTimeLimit_same_plugin a l : preserves same_plugin (setPlayTimeLimit a l).
Proof. frame. Qed.

Lemma setPlayTimeLimit_silent a l : preserves silent (setPlayTimeLimit a l).
Proof. frame. Qed.

Lemma apply_restriction_silent a r : preserves silent (apply_restriction a r).
Proof. frame. Qed.

Lemma _resumeSession_later a : preserves later (_resumeSession a).
Proof. frame. Qed.

Lemma _processChildState_later c st : preserves later (_processChildState c st).
Proof. frame. Qed.


(** * Properties of the API methods and of the plugin *)

Section Api.
Import Psn.

(** A request either stops at the token check, with no call made, or makes
    exactly one call and ends as that call ends. *)
Lemma request_cases m ep d w res w' :
  request m ep d w = (res, w') ->
  (exists e, ensureAuthenticated w = (Throw e, w') /\ res = Throw e /\
             rest_calls (log w') = rest_calls (log w) /\
             emitted (log w') = emitted (log w))
  \/
  (exists w1, ensureAuthenticated w = (Return tt, w1) /\
     w' = record (Call m (baseURL +:+ ep) d (accessToken (psn w1)) (region (psn w1))
                    (outcome (remote w1 (calls w1)))) (served w1) /\
     rest_calls (log w')
     = rest_calls (log w) ++ [(m, baseURL +:+ ep, d, outcome (remote w1 (calls w1)))] /\
     emitted (log w') = emitted (log w) /\
     res = match outcome (remote w1 (calls w1)) with
           | Resolved data => Return data
           | Rejected e => Throw e
           end).
Proof.
  rewrite request_unfold.
  destruct (ensureAuthenticated w) as [[[]|e] w1] eqn:E;
    destruct (ensureAuthenticated_quiet _ _ _ E) as [Hq He].
  - intros H. right. exists w1. split; [reflexivity|].
    unfold outbound in H.
    destruct (outcome (remote w1 (calls w1))) eqn:Ho; injection H as <- <-;
      simpl; rewrite Hq, He; auto.
  - intros [= <- <-]. left. exists e. auto.
Qed.

(** The shape shared by [setPlayTimeLimit], [blockGame] and [unblockGame]:
    a line on the console, one request, a tail that cannot fail, and a
    handler that wraps the error. *)
Lemma guarded_request_cases line m ep d (tail : M bool) label1 label2 w res w' :
  (forall v, exists v', tail v = (Return true, v') /\
                        rest_calls (log v') = rest_calls (log v)) ->
  try_catch (console line ;; request m ep d ;; tail)
    (fun error => console (label1 +:+ message error) ;;
                  throw (newError (label2 +:+ message error))) w = (res, w') ->
  (exists e w1, ensureAuthenticated (record (Console line) w) = (Throw e, w1) /\
     res = Throw (newError (label2 +:+ message e)) /\
     rest_calls (log w') = rest_calls (log w))
  \/
  (exists w1, ensureAuthenticated (record (Console line) w) = (Return tt, w1) /\
     rest_calls (log w')
     = rest_calls (log w) ++ [(m, baseURL +:+ ep, d, outcome (remote w1 (calls w1)))] /\
     res = match outcome (remote w1 (calls w1)) with
           | Resolved _ => Return true
           | Rejected e => Throw (newError (label2 +:+ message e))
           end).
Proof.
  intros Htail. unfold try_catch. unfold bind at 1, console at 1, modify at 1.
  set (w0 := record (Console line) w). unfold bind at 1.
  destruct (request m ep d w0) as [r w2] eqn:Hreq.
  destruct (request_cases _ _ _ _ _ _ Hreq)
    as [(e & Hens & -> & Hcalls & _) | (w1 & Hens & Hw2 & Hcalls & _ & ->)].
  - intros [= <- <-]. left. exists e, w2. simpl. auto.
  - intros Hrun. right. exists w1. split; [assumption|]. revert Hrun.
    destruct (outcome (remote w1 (calls w1))) as [data|e].
    + destruct (Htail w2) as (v' & -> & Hv'). intros [= <- <-].
      rewrite Hv', Hcalls. auto.
    + intros [= <- <-]. simpl. rewrite Hcalls. auto.
Qed.

Lemma setPlayTimeLimit_cases a l w res w' :
  setPlayTimeLimit a l w = (res, w') ->
  let w0 := record (Console ("[PSN API] Setting play time limit for " +:+ a +:+ ": "
                             +:+ pretty l +:+ " minutes")) w in
  (exists e w1, ensureAuthenticated w0 = (Throw e, w1) /\
     res = Throw (newError ("Failed to set play time limit: " +:+ message e)) /\
     rest_calls (log w') = rest_calls (log w))
  \/
  (exists w1, ensureAuthenticated w0 = (Return tt, w1) /\
     rest_calls (log w')
     = rest_calls (log w)
         ++ [("PUT", baseURL +:+ (users a +:+ "/playTimeSettings"),
              Some (PlayTimeSettings l (0 <? l)), outcome (remote w1 (calls w1)))] /\
     res = match outcome (remote w1 (calls w1)) with
           | Resolved _ => Return true
           | Rejected e =>
               Throw (newError ("Failed to set play time limit: " +:+ message e))
           end).
Proof.
  intros H. eapply guarded_request_cases; [|exact H].
  intros v. eexists. split; reflexivity.
Qed.

Lemma blockGame_cases a g w res w' :
  blockGame a g w = (res, w') ->
  let w0 := record (Console ("[PSN API] Blocking game " +:+ g +:+ " for " +:+ a)) w in
  (exists e w1, ensureAuthenticated w0 = (Throw e, w1) /\
     res = Throw (newError ("Failed to block game: " +:+ message e)) /\
     rest_calls (log w') = rest_calls (log w))
  \/
  (exists w1, ensureAuthenticated w0 = (Return tt, w1) /\
     rest_calls (log w')
     = rest_calls (log w)
         ++ [("POST", baseURL +:+ (users a +:+ "/restrictedContent"),
              Some (RestrictedContent g "game" "block"), outcome (remote w1 (calls w1)))] /\
     res = match outcome (remote w1 (calls w1)) with
           | Resolved _ => Return true
           | Rejected e => Throw (newError ("Failed to block game: " +:+ message e))
           end).
Proof.
  intros H. eapply guarded_request_cases; [|exact H].
  intros v. eexists. split; reflexivity.
Qed.

Lemma unblockGame_cases a g w res w' :
  unblockGame a g w = (res, w') ->
  let w0 := record (Console ("[PSN API] Unblocking game " +:+ g +:+ " for " +:+ a)) w in
  (exists e w1, ensureAuthenticated w0 = (Throw e, w1) /\
     res = Throw (newError ("Failed to unblock game: " +:+ message e)) /\
     rest_calls (log w') = rest_calls (log w))
  \/
  (exists w1, ensureAuthenticated w0 = (Return tt, w1) /\
     rest_calls (log w')
     = rest_calls (log w)
         ++ [("DELETE", baseURL +:+ (users a +:+ "/restrictedContent/" +:+ g),
              None, outcome (remote w1 (calls w1)))] /\
     res = match outcome (remote w1 (calls w1)) with
           | Resolved _ => Return true
           | Rejected e => Throw (newError ("Failed to unblock game: " +:+ message e))
           end).
Proof.
  intros H. eapply guarded_request_cases; [|exact H].
  intros v. eexists. split; reflexivity.
Qed.

Lemma fresh_after_console line w :
  truthy (accessToken (psn w)) = true ->
  expiring (tokenExpiry (psn w)) (now w) = false ->
  ensureAuthenticated (record (Console line) w) = (Return tt, record (Console line) w).
Proof. intros Ha Hx. apply ensureAuthenticated_fresh; assumption. Qed.

Lemma setPlayTimeLimit_call a l w res w' :
  setPlayTimeLimit a l w = (res, w') ->
  ((rest_calls (log w') = rest_calls (log w) /\ exists e, res = Throw e) \/
   exists o,
     rest_calls (log w')
     = rest_calls (log w)
         ++ [("PUT", baseURL +:+ (users a +:+ "/playTimeSettings"),
              Some (PlayTimeSettings l (0 <? l)), o)]) /\
  (truthy (accessToken (psn w)) = true ->
   expiring (tokenExpiry (psn w)) (now w) = false ->
   rest_calls (log w')
   = rest_calls (log w)
       ++ [("PUT", baseURL +:+ (users a +:+ "/playTimeSettings"),
            Some (PlayTimeSettings l (0 <? l)), outcome (remote w (calls w)))]).
Proof.
  intros H.
  destruct (setPlayTimeLimit_cases _ _ _ _ _ H)
    as [(e & w1 & Hens & -> & Hc) | (w1 & Hens & Hc & _)].
  - split; [left; eauto|]. intros Ha Hx.
    rewrite (fresh_after_console _ _ Ha Hx) in Hens. discriminate.
  - split; [right; eauto|]. intros Ha Hx.
    rewrite (fresh_after_console _ _ Ha Hx) in Hens. injection Hens as <-.
    exact Hc.
Qed.

(** C9.  Every call that [setPlayTimeLimit] makes is a PUT of
    [{dailyPlayTimeLimit: limitMinutes, enabled: limitMinutes > 0}] on the
    account's play-time settings; it makes at most one, none only when the
    token check throws, and exactly one when the token is fresh.  For
    [_suspendSession] the body is [{dailyPlayTimeLimit: 0, enabled: false}]. *)
Theorem setPlayTimeLimit_enabled_iff_positive :
  (forall a l w res w',
     setPlayTimeLimit a l w = (res, w') ->
     ((rest_calls (log w') = rest_calls (log w) /\ exists e, res = Throw e) \/
      exists o,
        rest_calls (log w')
        = rest_calls (log w)
            ++ [("PUT", baseURL +:+ (users a +:+ "/playTimeSettings"),
                 Some (PlayTimeSettings l (0 <? l)), o)]) /\
     (truthy (accessToken (psn w)) = true ->
      expiring (tokenExpiry (psn w)) (now w) = false ->
      rest_calls (log w')
      = rest_calls (log w)
          ++ [("PUT", baseURL +:+ (users a +:+ "/playTimeSettings"),
               Some (PlayTimeSettings l (0 <? l)), outcome (remote w (calls w)))])) /\
  (forall acct w res w',
     _suspendSession acct w = (res, w') ->
     ((rest_calls (log w') = rest_calls (log w) /\ exists e, res = Throw e) \/
      exists o,
        rest_calls (log w')
        = rest_calls (log w)
            ++ [("PUT", baseURL +:+ (users (accountId acct) +:+ "/playTimeSettings"),
                 Some (PlayTimeSettings 0 false), o)]) /\
     (truthy (accessToken (psn w)) = true ->
      expiring (tokenExpiry (psn w)) (now w) = false ->
      rest_calls (log w')
      = rest_calls (log w)
          ++ [("PUT", baseURL +:+ (users (accountId acct) +:+ "/playTimeSettings"),
               Some (PlayTimeSettings 0 false), outcome (remote w (calls w)))])).
Proof.
  split; [exact setPlayTimeLimit_call|].
  intros acct w res w'. unfold _suspendSession, try_catch. unfold bind at 1.
  destruct (setPlayTimeLimit (accountId acct) 0 w) as [[b|e] w1] eqn:E;
    destruct (setPlayTimeLimit_call _ _ _ _ _ E) as [Hcall Hfresh];
    change (0 <? 0) with false in Hcall, Hfresh.
  - unfold bind, get, put_session, emit, modify. simpl. intros [= <- <-]. simpl.
    split; [|exact Hfresh].
    destruct Hcall as [(_ & e & He) | Ho]; [discriminate | right; exact Ho].
  - unfold throw. intros [= <- <-]. split; [|exact Hfresh].
    destruct Hcall as [(Hc & _) | Ho]; [left; eauto | right; exact Ho].
Qed.

Lemma obliging_later w w' : later w w' -> obliging w -> obliging w'.
Proof.
  intros (Hr & Hc & _) Hob n Hn. rewrite Hr. apply Hob. lia.
Qed.

Lemma ensureAuthenticated_obliging w :
  obliging w -> truthy (npsso (psn w)) = true ->
  exists w1, ensureAuthenticated w = (Return tt, w1).
Proof.
  intros Hob Hn. destruct (Hob (calls w) (le_n _)) as [data Hd].
  unfold ensureAuthenticated, refreshAccessToken, authenticate, try_catch, bind, get,
    console, modify, throw, ret, outbound, store_tokens. simpl.
  destruct (truthy (accessToken (psn w))); simpl.
  - destruct (expiring (tokenExpiry (psn w)) (now w)); simpl; [|eauto].
    rewrite Hd. simpl. eauto.
  - rewrite Hn. simpl. rewrite Hd. simpl. eauto.
Qed.

(** With the credential present and a remote side that accepts every call,
    [_resumeSession] makes its one call, writes the session and emits. *)
Lemma resume_once acct w :
  obliging w -> truthy (npsso (psn w)) = true ->
  exists w1 o,
    _resumeSession acct w = (Return tt, w1) /\
    later w w1 /\
    rest_calls (log w1)
    = rest_calls (log w)
        ++ [("PUT", baseURL +:+ (users (accountId acct) +:+ "/playTimeSettings"),
             Some (PlayTimeSettings (number_or (defaultDailyLimit (self w)) 480)
                     (0 <? number_or (defaultDailyLimit (self w)) 480)), o)] /\
    emitted (log w1) = emitted (log w) ++ [sessionResumed (accountId acct)] /\
    activeSessions (self w1)
    = <[accountId acct :=
          {| suspended := Some false;
             suspendedAt := suspendedAt (session_of (accountId acct) w);
             resumedAt := Some (now w1);
             lastActive := lastActive (session_of (accountId acct) w);
             sessionGame := sessionGame (session_of (accountId acct) w) |}]>
        (activeSessions (self w)).
Proof.
  intros Hob Hn.
  set (limit := number_or (defaultDailyLimit (self w)) 480).
  set (line := "[PSN API] Setting play time limit for " +:+ accountId acct +:+ ": "
               +:+ pretty limit +:+ " minutes").
  destruct (setPlayTimeLimit (accountId acct) limit w) as [r ws] eqn:E.
  pose proof (setPlayTimeLimit_same_plugin _ _ _ _ _ E) as Hself.
  pose proof (setPlayTimeLimit_silent _ _ _ _ _ E) as Hsil.
  unfold same_plugin in Hself. unfold silent in Hsil.
  destruct (setPlayTimeLimit_cases _ _ _ _ _ E) as
    [(e & w1 & Hens & _) | (w1 & Hens & Hc & Hr)]; fold line in Hens.
  { destruct (ensureAuthenticated_obliging (record (Console line) w)) as [w1' Hok];
      [exact Hob | exact Hn |].
    rewrite Hok in Hens. discriminate. }
  assert (Hob1 : obliging w1).
  { eapply obliging_later; [|exact Hob].
    transitivity (record (Console line) w).
    - related.
    - eapply ensureAuthenticated_later; eassumption. }
  destruct (Hob1 (calls w1) (le_n _)) as [data Hd]. rewrite Hd in Hc, Hr. subst r.
  assert (Hrun : _resumeSession acct w
                 = (Return tt,
                    record (Emit (sessionResumed (accountId acct)))
                      (set_self
                         (set_activeSessions
                            (<[accountId acct :=
                                 {| suspended := Some false;
                                    suspendedAt := suspendedAt (session_of (accountId acct) ws);
                                    resumedAt := Some (now ws);
                                    lastActive := lastActive (session_of (accountId acct) ws);
                                    sessionGame := sessionGame (session_of (accountId acct) ws) |}]>
                               (activeSessions (self ws)))
                            (self ws)) ws))).
  { unfold _resumeSession, try_catch. unfold bind at 1, get. unfold bind at 1.
    fold limit. rewrite E. reflexivity. }
  eexists. exists (Resolved data). split; [exact Hrun|].
  split; [eapply _resumeSession_later; exact Hrun|]. simpl.
  unfold session_of. rewrite Hself, Hsil. auto.
Qed.

(** C6.  With the credential present and a remote side that accepts the
    calls, [_resumeSession] called twice in a row returns normally both
    times, whatever the session was before; each call PUTs the configured
    daily limit, and 480 when none is configured or the one configured is
    0, so two remote calls are made, both with that limit;
    [sessionResumed] is emitted each time; [suspended] is [false] after the
    first call and after the second, and the second call leaves [suspended],
    [lastActive] and the current game of the account as the first left them,
    and the sessions of the other accounts as they were. *)
Theorem resume_twice_is_harmless acct w :
  obliging w -> truthy (npsso (psn w)) = true ->
  let limit := match defaultDailyLimit (self w) with
               | Some minutes => if minutes =? 0 then 480 else minutes
               | None => 480
               end in
  let put o := ("PUT", baseURL +:+ (users (accountId acct) +:+ "/playTimeSettings"),
                Some (PlayTimeSettings limit (0 <? limit)), o) in
  (defaultDailyLimit (self w) = None -> limit = 480) /\
  (forall minutes, defaultDailyLimit (self w) = Some minutes -> minutes <> 0 ->
     limit = minutes) /\
  exists w1 w2 o1 o2,
    _resumeSession acct w = (Return tt, w1) /\
    _resumeSession acct w1 = (Return tt, w2) /\
    rest_calls (log w2) = rest_calls (log w) ++ [put o1; put o2] /\
    emitted (log w2)
    = emitted (log w)
        ++ [sessionResumed (accountId acct); sessionResumed (accountId acct)] /\
    suspended <$> activeSessions (self w1) !! accountId acct = Some (Some false) /\
    suspended <$> activeSessions (self w2) !! accountId acct = Some (Some false) /\
    session_state <$> activeSessions (self w2) !! accountId acct
    = session_state <$> activeSessions (self w1) !! accountId acct /\
    forall other, other <> accountId acct ->
      activeSessions (self w2) !! other = activeSessions (self w) !! other.
Proof.
  intros Hob Hn limit put.
  split; [intros Hd; unfold limit; rewrite Hd; reflexivity|].
  split.
  { intros minutes Hd Hm. unfold limit. rewrite Hd.
    apply Z.eqb_neq in Hm. rewrite Hm. reflexivity. }
  change limit with (number_or (defaultDailyLimit (self w)) 480) in *.
  destruct (resume_once acct w Hob Hn) as (w1 & o1 & Hr1 & Hl1 & Hc1 & He1 & Hs1).
  assert (Hob1 : obliging w1) by (eapply obliging_later; eassumption).
  assert (Hn1 : truthy (npsso (psn w1)) = true).
  { destruct Hl1 as (_ & _ & _ & -> & _). assumption. }
  destruct (resume_once acct w1 Hob1 Hn1) as (w2 & o2 & Hr2 & Hl2 & Hc2 & He2 & Hs2).
  assert (Hlim : defaultDailyLimit (self w1) = defaultDailyLimit (self w)).
  { destruct Hl1 as (_ & _ & _ & _ & _ & _ & -> & _). reflexivity. }
  rewrite Hlim in Hc2. fold limit in Hc1, Hc2.
  exists w1, w2, o1, o2. split; [assumption|]. split; [assumption|].
  split; [rewrite Hc2, Hc1, <- app_assoc; reflexivity|].
  split; [rewrite He2, He1, <- app_assoc; reflexivity|].
  split; [rewrite Hs1, lookup_insert_eq; reflexivity|].
  split; [rewrite Hs2, lookup_insert_eq; reflexivity|].
  split.
  - rewrite Hs2, lookup_insert_eq. unfold session_of.
    rewrite Hs1, !lookup_insert_eq. reflexivity.
  - intros other Hother. rewrite Hs2, lookup_insert_ne by congruence.
    rewrite Hs1, lookup_insert_ne by congruence. reflexivity.
Qed.

(** One entry: no call when the token check throws, else one call, and the
    entry ends as its call ends. *)
Lemma apply_restriction_cases acct r w res w' :
  action r = "block" \/ action r = "unblock" ->
  apply_restriction acct r w = (res, w') ->
  emitted (log w') = emitted (log w) /\
  ((rest_calls (log w') = rest_calls (log w) /\ exists e, res = Throw e) \/
   exists o,
     rest_calls (log w') = rest_calls (log w) ++ [restriction_call (accountId acct) r o] /\
     res = match o with
           | Resolved _ => Return tt
           | Rejected e => Throw (restriction_error r e)
           end).
Proof.
  intros Hknown H. split; [exact (apply_restriction_silent _ _ _ _ _ H)|].
  revert H. unfold apply_restriction, restriction_call, restriction_error.
  destruct (String.eqb (action r) "block") eqn:Hb.
  - unfold bind. destruct (blockGame (accountId acct) (gameId r) w) as [b w1] eqn:E.
    destruct (blockGame_cases _ _ _ _ _ E) as [(e & w0 & _ & -> & Hc) | (w0 & _ & Hc & ->)].
    + intros [= <- <-]. left. eauto.
    + right. exists (outcome (remote w0 (calls w0))).
      destruct (outcome (remote w0 (calls w0))); injection H as <- <-; auto.
  - destruct (String.eqb (action r) "unblock") eqn:Hu.
    + unfold bind. destruct (unblockGame (accountId acct) (gameId r) w) as [b w1] eqn:E.
      destruct (unblockGame_cases _ _ _ _ _ E)
        as [(e & w0 & _ & -> & Hc) | (w0 & _ & Hc & ->)].
      * intros [= <- <-]. left. eauto.
      * right. exists (outcome (remote w0 (calls w0))).
        destruct (outcome (remote w0 (calls w0))); injection H as <- <-; auto.
    + destruct Hknown as [Hk|Hk]; rewrite Hk in *; discriminate.
Qed.

Lemma restriction_call_outcome a r o : snd (restriction_call a r o) = o.
Proof. unfold restriction_call. destruct (String.eqb (action r) "block"); reflexivity. Qed.

Lemma restriction_outcomes a entries : forall outcomes,
  (length outcomes <= length entries)%nat ->
  map snd (zip_with (restriction_call a) entries outcomes) = outcomes.
Proof.
  induction entries as [|r entries IH]; intros [|o outcomes] Hlen; simpl in *;
    try reflexivity; try lia.
  rewrite restriction_call_outcome, IH by lia. reflexivity.
Qed.

Lemma answers_length replies n : forall from, (length (answers replies from n) <= n)%nat.
Proof.
  induction n as [|n IH]; intros from; simpl; [lia|].
  destruct (outcome (replies from)); simpl; [specialize (IH (S from))|]; lia.
Qed.

(** One entry with a token outside the margin: its call is made, and the
    entry ends as the call ends. *)
Lemma apply_restriction_fresh acct r w :
  action r = "block" \/ action r = "unblock" ->
  truthy (accessToken (psn w)) = true ->
  expiring (tokenExpiry (psn w)) (now w) = false ->
  exists w',
    apply_restriction acct r w
    = (match outcome (remote w (calls w)) with
       | Resolved _ => Return tt
       | Rejected e => Throw (restriction_error r e)
       end, w') /\
    rest_calls (log w')
    = rest_calls (log w)
        ++ [restriction_call (accountId acct) r (outcome (remote w (calls w)))] /\
    now w' = now w + Z.of_N (latency (remote w (calls w))) /\
    calls w' = S (calls w) /\ remote w' = remote w /\
    accessToken (psn w') = accessToken (psn w) /\
    tokenExpiry (psn w') = tokenExpiry (psn w).
Proof.
  intros Hknown Ha Hx.
  unfold apply_restriction, restriction_call, restriction_error.
  destruct (String.eqb (action r) "block") eqn:Hb.
  - unfold blockGame, try_catch. unfold bind at 1. unfold bind at 1.
    unfold console at 1, modify at 1. unfold bind at 1.
    rewrite request_unfold, (fresh_after_console _ _ Ha Hx). unfold outbound. simpl.
    destruct (outcome (remote w (calls w))); simpl; eexists; auto 10.
  - destruct (String.eqb (action r) "unblock") eqn:Hu.
    + unfold unblockGame, try_catch. unfold bind at 1. unfold bind at 1.
      unfold console at 1, modify at 1. unfold bind at 1.
      rewrite request_unfold, (fresh_after_console _ _ Ha Hx). unfold outbound. simpl.
      destruct (outcome (remote w (calls w))); simpl; eexists; auto 10.
    + destruct Hknown as [Hk|Hk]; rewrite Hk in *; discriminate.
Qed.

Lemma for_of_restrictions acct entries : forall w res w',
  Forall (fun r => action r = "block" \/ action r = "unblock") entries ->
  for_of entries (apply_restriction acct) w = (res, w') ->
  emitted (log w') = emitted (log w) /\
  exists outcomes,
    (length outcomes <= length entries)%nat /\
    rest_calls (log w')
    = rest_calls (log w) ++ zip_with (restriction_call (accountId acct)) entries outcomes /\
    (forall k e, outcomes !! k = Some (Rejected e) ->
       S k = length outcomes /\
       exists r, entries !! k = Some r /\ res = Throw (restriction_error r e)) /\
    (res = Return tt -> length outcomes = length entries).
Proof.
  induction entries as [|r entries IH]; intros w res w' Hknown; simpl.
  - intros [= <- <-]. split; [reflexivity|]. exists []. simpl.
    rewrite app_nil_r. split; [lia|]. split; [reflexivity|].
    split; [|reflexivity]. intros k e Hk. discriminate.
  - inversion Hknown as [|? ? Hr Hrest]; subst. unfold bind.
    destruct (apply_restriction acct r w) as [res1 w1] eqn:E.
    destruct (apply_restriction_cases _ _ _ _ _ Hr E) as [He1 [(Hc1 & e & ->) | (o & Hc1 & ->)]].
    + intros [= <- <-]. split; [assumption|]. exists []. simpl.
      rewrite app_nil_r. split; [lia|]. split; [assumption|].
      split; [|discriminate]. intros k e' Hk. discriminate.
    + destruct o as [data|e].
      * intros Hloop. destruct (IH _ _ _ Hrest Hloop) as (He & outcomes & Hlen & Hc & Hfail & Hall).
        split; [congruence|]. exists (Resolved data :: outcomes). simpl.
        split; [lia|]. split; [rewrite Hc, Hc1, <- app_assoc; reflexivity|].
        split.
        -- intros [|k] e Hk; simpl in Hk; [discriminate|].
           destruct (Hfail k e Hk) as (Hlast & r' & Hr' & Hres).
           split; [lia|]. exists r'. auto.
        -- intros Hres. rewrite (Hall Hres). reflexivity.
      * intros [= <- <-]. split; [assumption|]. exists [Rejected e]. simpl.
        split; [lia|]. split; [rewrite Hc1; destruct entries; reflexivity|].
        split; [|discriminate].
        intros [|k] e' Hk; simpl in Hk; [|discriminate].
        injection Hk as <-. split; [reflexivity|]. exists r. auto.
Qed.

(** With a token that stays outside the margin, the loop makes the call of
    each entry, in list order, up to and including the first call that is
    refused, and returns when none is. *)
Lemma for_of_fresh acct entries : forall w res w',
  Forall (fun r => action r = "block" \/ action r = "unblock") entries ->
  truthy (accessToken (psn w)) = true ->
  stays_fresh (tokenExpiry (psn w)) (remote w) (calls w) (now w) (length entries) = true ->
  for_of entries (apply_restriction acct) w = (res, w') ->
  rest_calls (log w')
  = rest_calls (log w)
      ++ zip_with (restriction_call (accountId acct)) entries
           (answers (remote w) (calls w) (length entries)) /\
  (Forall resolved (answers (remote w) (calls w) (length entries)) -> res = Return tt).
Proof.
  induction entries as [|r entries IH]; intros w res w' Hknown Ha Hfresh; simpl.
  - intros [= <- <-]. rewrite app_nil_r. auto.
  - inversion Hknown as [|? ? Hr Hrest]; subst.
    simpl in Hfresh. apply andb_true_iff in Hfresh. destruct Hfresh as [Hx Hfresh].
    apply negb_true_iff in Hx.
    destruct (apply_restriction_fresh acct r w Hr Ha Hx)
      as (w1 & Hrun & Hc1 & Hnow & Hcalls & Hrem & Hacc & Hexp).
    unfold bind. rewrite Hrun.
    destruct (outcome (remote w (calls w))) as [data|e] eqn:Ho.
    + intros Hloop.
      rewrite <- Hnow, <- Hcalls, <- Hexp, <- Hrem in Hfresh. rewrite <- Hacc in Ha.
      destruct (IH _ _ _ Hrest Ha Hfresh Hloop) as [Hc Hall].
      rewrite Hrem, Hcalls in Hc, Hall. split.
      * rewrite Hc, Hc1, <- app_assoc. reflexivity.
      * intros Hres. apply Hall. inversion Hres; assumption.
    + intros [= <- <-]. split.
      * rewrite Hc1. destruct entries; reflexivity.
      * intros Hres. inversion Hres as [|? ? [data Hd] _]. discriminate.
Qed.

Lemma apply_restriction_later a r : preserves later (apply_restriction a r).
Proof. frame. Qed.

(** With the credential present and a remote side that accepts every call,
    the loop returns. *)
Lemma for_of_obliging acct entries : forall w res w',
  Forall (fun r => action r = "block" \/ action r = "unblock") entries ->
  obliging w -> truthy (npsso (psn w)) = true ->
  for_of entries (apply_restriction acct) w = (res, w') ->
  res = Return tt.
Proof.
  induction entries as [|r entries IH]; intros w res w' Hknown Hob Hn; simpl.
  - intros [= <- <-]. reflexivity.
  - inversion Hknown as [|? ? Hr Hrest]; subst. unfold bind.
    destruct (apply_restriction acct r w) as [res1 w1] eqn:E.
    pose proof (apply_restriction_later _ _ _ _ _ E) as Hl.
    assert (Hres1 : res1 = Return tt).
    { revert E. unfold apply_restriction.
      destruct (String.eqb (action r) "block") eqn:Hb.
      - unfold bind. destruct (blockGame (accountId acct) (gameId r) w) as [b w2] eqn:E.
        destruct (blockGame_cases _ _ _ _ _ E) as [(e & w0 & Hens & _) | (w0 & Hens & _ & ->)].
        + match type of Hens with
          | ensureAuthenticated ?v = _ =>
              destruct (ensureAuthenticated_obliging v) as [w0' Hok];
                [exact Hob | exact Hn |]
          end.
          rewrite Hok in Hens. discriminate.
        + assert (Hob0 : obliging w0).
          { eapply obliging_later; [|exact Hob].
            etransitivity; [|eapply ensureAuthenticated_later; exact Hens]. related. }
          destruct (Hob0 (calls w0) (le_n _)) as [data Hd]. rewrite Hd.
          intros [= <- <-]. reflexivity.
      - destruct (String.eqb (action r) "unblock") eqn:Hu.
        + unfold bind. destruct (unblockGame (accountId acct) (gameId r) w) as [b w2] eqn:E.
          destruct (unblockGame_cases _ _ _ _ _ E)
            as [(e & w0 & Hens & _) | (w0 & Hens & _ & ->)].
          * match type of Hens with
            | ensureAuthenticated ?v = _ =>
                destruct (ensureAuthenticated_obliging v) as [w0' Hok];
                  [exact Hob | exact Hn |]
            end.
            rewrite Hok in Hens. discriminate.
          * assert (Hob0 : obliging w0).
            { eapply obliging_later; [|exact Hob].
              etransitivity; [|eapply ensureAuthenticated_later; exact Hens]. related. }
            destruct (Hob0 (calls w0) (le_n _)) as [data Hd]. rewrite Hd.
            intros [= <- <-]. reflexivity.
        + destruct Hr as [Hk|Hk]; rewrite Hk in *; discriminate. }
    subst res1. intros Hloop.
    eapply IH; [exact Hrest| | |exact Hloop].
    + eapply obliging_later; eassumption.
    + destruct Hl as (_ & _ & _ & -> & _). exact Hn.
Qed.

(** C7.  On entries whose action is block or unblock, the calls that
    [_applyGameRestrictions] makes are the call of the first entry, of the
    second, and so on, one per entry, in list order, up to some entry.  A
    call that fails is the last one made: no later entry is attempted, the
    calls already made stay as they are, and the error of that entry is what
    [_applyGameRestrictions] throws, with nothing emitted.  When it returns,
    every entry had its call and [restrictionsApplied] is emitted.  With a
    token that stays outside the margin the calls are made: one for each
    entry up to and including the first that the remote side refuses, each
    ending with the answer the remote side gave to it, and when none is
    refused [_applyGameRestrictions] returns.  It also returns whenever the
    credential is present and the remote side accepts every call. *)
Theorem restrictions_applied_in_order acct entries w res w' :
  Forall (fun r => action r = "block" \/ action r = "unblock") entries ->
  _applyGameRestrictions acct entries w = (res, w') ->
  exists outcomes,
    (length outcomes <= length entries)%nat /\
    rest_calls (log w')
    = rest_calls (log w) ++ zip_with (restriction_call (accountId acct)) entries outcomes /\
    (forall k e, outcomes !! k = Some (Rejected e) ->
       S k = length outcomes /\
       exists r, entries !! k = Some r /\ res = Throw (restriction_error r e)) /\
    match res with
    | Return _ =>
        length outcomes = length entries /\
        emitted (log w')
        = emitted (log w) ++ [restrictionsApplied (accountId acct) entries]
    | Throw _ => emitted (log w') = emitted (log w)
    end /\
    (truthy (accessToken (psn w)) = true ->
     stays_fresh (tokenExpiry (psn w)) (remote w) (calls w) (now w) (length entries) = true ->
     outcomes = answers (remote w) (calls w) (length entries) /\
     (Forall resolved outcomes -> res = Return tt)) /\
    (obliging w -> truthy (npsso (psn w)) = true -> res = Return tt).
Proof.
  intros Hknown. unfold _applyGameRestrictions, try_catch. unfold bind at 1.
  destruct (for_of entries (apply_restriction acct) w) as [r1 w1] eqn:E.
  destruct (for_of_restrictions _ _ _ _ _ Hknown E)
    as (He & outcomes & Hlen & Hc & Hfail & Hall).
  assert (Hfresh : truthy (accessToken (psn w)) = true ->
            stays_fresh (tokenExpiry (psn w)) (remote w) (calls w) (now w) (length entries)
            = true ->
            outcomes = answers (remote w) (calls w) (length entries) /\
            (Forall resolved outcomes -> r1 = Return tt)).
  { intros Ha Hf. destruct (for_of_fresh _ _ _ _ _ Hknown Ha Hf E) as [Hc' Hret].
    assert (Heq : outcomes = answers (remote w) (calls w) (length entries)).
    { rewrite Hc in Hc'. apply app_inv_head in Hc'.
      apply (f_equal (map snd)) in Hc'.
      rewrite !restriction_outcomes in Hc' by (assumption || apply answers_length).
      exact Hc'. }
    split; [exact Heq|]. rewrite Heq. exact Hret. }
  assert (Hobl : obliging w -> truthy (npsso (psn w)) = true -> r1 = Return tt).
  { intros Hob Hn. eapply for_of_obliging; eassumption. }
  destruct r1 as [[]|e].
  - unfold emit, modify. intros [= <- <-]. exists outcomes. simpl.
    rewrite Hc, He. split; [assumption|]. split; [reflexivity|].
    split; [assumption|]. split; [split; [apply Hall|]; reflexivity|].
    split; [assumption|]. auto.
  - unfold throw. intros [= <- <-]. exists outcomes.
    split; [assumption|]. split; [assumption|]. split; [assumption|].
    split; [assumption|]. split.
    + intros Ha Hf. destruct (Hfresh Ha Hf) as [Heq Hret]. split; [exact Heq|].
      intros Hres. discriminate (Hret Hres).
    + intros Hob Hn. discriminate (Hobl Hob Hn).
Qed.

(** Processing one child never throws: every error raised inside ends as
    the [Failed] result of that child. *)
Lemma _processChildState_returns cid st w :
  exists r w',
    _processChildState cid st w = (Return r, w') /\
    result_child r = cid /\
    (_getPSNAccountForChild cid w = None ->
     r = Skipped cid "No PSN account mapped" /\ w' = w).
Proof.
  unfold _processChildState, try_catch. unfold bind at 1, get.
  destruct (_getPSNAccountForChild cid w) as [acct|] eqn:Hacct.
  - unfold bind at 1.
    match goal with
    | |- context [match ?c w with _ => _ end] => destruct (c w) as [[actions|e] w1]
    end.
    + unfold bind at 1.
      match goal with
      | |- context [match ?c w1 with _ => _ end] => destruct (c w1) as [[actions'|e] w2]
      end.
      * eexists _, _. split; [reflexivity|]. split; [reflexivity|]. discriminate.
      * eexists _, _. split; [reflexivity|]. split; [reflexivity|]. discriminate.
    + eexists _, _. split; [reflexivity|]. split; [reflexivity|]. discriminate.
  - eexists _, _. split; [reflexivity|]. split; [reflexivity|]. auto.
Qed.

(** The result of a child says what became of it: skipped when no account
    is mapped to it, and otherwise processed for the account mapped to it,
    or failed. *)
Lemma _processChildState_kinds cid st w r w' :
  _processChildState cid st w = (Return r, w') ->
  match _getPSNAccountForChild cid w with
  | None => r = Skipped cid "No PSN account mapped" /\ w' = w
  | Some acct =>
      (exists actions, r = Processed cid (accountId acct) actions) \/
      (exists e, r = Failed cid (message e))
  end.
Proof.
  unfold _processChildState, try_catch. unfold bind at 1, get.
  destruct (_getPSNAccountForChild cid w) as [acct|] eqn:Hacct.
  - unfold bind at 1.
    match goal with
    | |- context [match ?c w with _ => _ end] => destruct (c w) as [[actions|e] w1]
    end.
    + unfold bind at 1.
      match goal with
      | |- context [match ?c w1 with _ => _ end] => destruct (c w1) as [[actions'|e] w2]
      end.
      * intros [= <- <-]. left. eauto.
      * intros [= <- <-]. right. eauto.
    + intros [= <- <-]. right. eauto.
  - intros [= <- <-]. auto.
Qed.

Lemma _getPSNAccountForChild_later cid w w' :
  later w w' -> _getPSNAccountForChild cid w' = _getPSNAccountForChild cid w.
Proof.
  intros (_ & _ & _ & _ & _ & Hm & _). unfold _getPSNAccountForChild.
  rewrite Hm. reflexivity.
Qed.

Lemma process_children_returns children : forall acc w,
  exists results w',
    process_children children acc w = (Return (acc ++ results), w') /\
    later w w' /\
    processed_in_turn children w results w' /\
    map result_child results = map fst children /\
    (forall (i : nat) cid st,
       children !! i = Some (cid, st) ->
       _getPSNAccountForChild cid w = None ->
       results !! i = Some (Skipped cid "No PSN account mapped")).
Proof.
  induction children as [|[cid st] children IH]; intros acc w; simpl.
  - exists [], w. rewrite app_nil_r. split; [reflexivity|].
    split; [reflexivity|]. split; [constructor|]. split; [reflexivity|].
    intros i c s Hi. discriminate.
  - unfold bind at 1.
    destruct (_processChildState_returns cid st w) as (r & w1 & Hrun & Hchild & Hskip).
    rewrite Hrun.
    pose proof (_processChildState_later _ _ _ _ _ Hrun) as Hl1.
    destruct (IH (acc ++ [r]) w1) as (results & w' & Hrest & Hl & Hturn & Hmap & Hskips).
    exists (r :: results), w'. rewrite Hrest, <- app_assoc. simpl.
    split; [reflexivity|]. split; [etransitivity; eassumption|].
    split; [econstructor; eassumption|].
    split; [congruence|].
    intros [|i] c s Hi Hnone; simpl in *.
    + injection Hi as <- <-. destruct (Hskip Hnone) as [-> _]. reflexivity.
    + apply (Hskips i c s Hi). rewrite (_getPSNAccountForChild_later _ _ _ Hl1). exact Hnone.
Qed.

(** C8.  Processing one child always returns a result for that child, never
    throws, and is a [Skipped] result that leaves the world untouched when
    the child has no mapped account; for a child with a mapped account the
    result is [Processed], for that account, or [Failed].  A loaded plugin
    asked for a batch returns success with one result per child of the
    batch, in the order of the batch, whatever happens while a child is
    processed: every child of the batch is processed, on the world the
    child before it left, also after a child that failed, and its entry is
    the result its processing gave; the result of a child with no mapped
    account is the [Skipped] one; and [stateProcessed] is emitted last, once
    all are processed, with the same results. *)
Theorem newState_reports_every_child children w :
  isInitialized (self w) = true ->
  (forall cid st v,
     exists r v',
       _processChildState cid st v = (Return r, v') /\ result_child r = cid /\
       match _getPSNAccountForChild cid v with
       | None => r = Skipped cid "No PSN account mapped" /\ v' = v
       | Some acct =>
           (exists actions, r = Processed cid (accountId acct) actions) \/
           (exists e, r = Failed cid (message e))
       end) /\
  exists results w1,
    newState children w
    = (Return (Success results), record (Emit (stateProcessed results)) w1) /\
    processed_in_turn children w results w1 /\
    map result_child results = map fst children /\
    (forall (i : nat) cid st,
       children !! i = Some (cid, st) ->
       _getPSNAccountForChild cid w = None ->
       results !! i = Some (Skipped cid "No PSN account mapped")) /\
    emitted (log (record (Emit (stateProcessed results)) w1))
    = emitted (log w1) ++ [stateProcessed results].
Proof.
  intros Hinit. split.
  { intros cid st v.
    destruct (_processChildState_returns cid st v) as (r & v' & Hrun & Hchild & _).
    exists r, v'. split; [exact Hrun|]. split; [exact Hchild|].
    exact (_processChildState_kinds _ _ _ _ _ Hrun). }
  destruct (process_children_returns children [] w)
    as (results & w1 & Hrun & Hl & Hturn & Hmap & Hskips).
  exists results, w1.
  unfold newState, try_catch. unfold bind at 1, get. rewrite Hinit. simpl.
  unfold bind at 1, ret at 1. unfold bind at 1. rewrite Hrun. simpl.
  unfold bind, emit, modify, ret. simpl.
  split; [reflexivity|]. split; [assumption|]. split; [assumption|].
  split; [assumption|]. reflexivity.
Qed.

Lemma setPlayTimeLimit_enabled_iff_positive_witness :
  setPlayTimeLimit "psn-1" 0 fresh
  = (Return true, snd (setPlayTimeLimit "psn-1" 0 fresh)) /\
  rest_calls (log (snd (setPlayTimeLimit "psn-1" 0 fresh)))
  = [("PUT", baseURL +:+ (users "psn-1" +:+ "/playTimeSettings"),
      Some (PlayTimeSettings 0 false), Resolved no_body)].
Proof.
  assert (Hrun : setPlayTimeLimit "psn-1" 0 fresh
                 = (Return true, snd (setPlayTimeLimit "psn-1" 0 fresh)))
    by (vm_compute; reflexivity).
  split; [exact Hrun|].
  destruct setPlayTimeLimit_enabled_iff_positive as (H & _).
  destruct (H _ _ _ _ _ Hrun) as (_ & Hfresh).
  exact (Hfresh eq_refl eq_refl).
Defined.

Lemma resume_twice_is_harmless_witness :
  obliging fresh /\ truthy (npsso (psn fresh)) = true /\
  (exists w1 w2,
     _resumeSession first_child fresh = (Return tt, w1) /\
     _resumeSession first_child w1 = (Return tt, w2) /\
     suspended <$> activeSessions (self w2) !! "psn-1" = Some (Some false)) /\
  obliging (fresh_with_limit 120) /\
  exists w1 w2 o1 o2,
    _resumeSession first_child (fresh_with_limit 120) = (Return tt, w1) /\
    _resumeSession first_child w1 = (Return tt, w2) /\
    rest_calls (log w2)
    = [("PUT", baseURL +:+ (users "psn-1" +:+ "/playTimeSettings"),
        Some (PlayTimeSettings 120 true), o1);
       ("PUT", baseURL +:+ (users "psn-1" +:+ "/playTimeSettings"),
        Some (PlayTimeSettings 120 true), o2)].
Proof.
  assert (Hob : obliging fresh) by (intros n _; exists no_body; reflexivity).
  assert (Hob' : obliging (fresh_with_limit 120))
    by (intros n _; exists no_body; reflexivity).
  split; [exact Hob|]. split; [reflexivity|]. split.
  - destruct (resume_twice_is_harmless first_child fresh Hob eq_refl)
      as (_ & _ & w1 & w2 & o1 & o2 & H1 & H2 & _ & _ & _ & Hs & _).
    exists w1, w2. split; [exact H1|]. split; [exact H2 | exact Hs].
  - split; [exact Hob'|].
    destruct (resume_twice_is_harmless first_child (fresh_with_limit 120) Hob' eq_refl)
      as (_ & _ & w1 & w2 & o1 & o2 & H1 & H2 & Hc & _).
    exists w1, w2, o1, o2. split; [exact H1|]. split; [exact H2 | exact Hc].
Defined.

Lemma restrictions_applied_in_order_witness :
  Forall (fun r => action r = "block" \/ action r = "unblock") two_entries /\
  _applyGameRestrictions first_child two_entries fresh_flaky
  = (Throw (newError "Failed to block game: Network Error"),
     snd (_applyGameRestrictions first_child two_entries fresh_flaky)) /\
  rest_calls (log (snd (_applyGameRestrictions first_child two_entries fresh_flaky)))
  = zip_with (restriction_call "psn-1") two_entries [Rejected network_error] /\
  rest_calls (log (snd (_applyGameRestrictions first_child two_entries fresh)))
  = zip_with (restriction_call "psn-1") two_entries [Resolved no_body; Resolved no_body].
Proof.
  assert (Hknown : Forall (fun r => action r = "block" \/ action r = "unblock") two_entries)
    by (repeat constructor; simpl; auto).
  assert (Hrun : _applyGameRestrictions first_child two_entries fresh_flaky
                 = (Throw (newError "Failed to block game: Network Error"),
                    snd (_applyGameRestrictions first_child two_entries fresh_flaky)))
    by (vm_compute; reflexivity).
  assert (Hrun' : _applyGameRestrictions first_child two_entries fresh
                  = (Return tt, snd (_applyGameRestrictions first_child two_entries fresh)))
    by (vm_compute; reflexivity).
  assert (Hf : stays_fresh (tokenExpiry (psn fresh_flaky)) (remote fresh_flaky)
                 (calls fresh_flaky) (now fresh_flaky) (length two_entries) = true)
    by (vm_compute; reflexivity).
  assert (Hf' : stays_fresh (tokenExpiry (psn fresh)) (remote fresh)
                  (calls fresh) (now fresh) (length two_entries) = true)
    by (vm_compute; reflexivity).
  split; [exact Hknown|]. split; [exact Hrun|]. split.
  - destruct (restrictions_applied_in_order _ _ _ _ _ Hknown Hrun)
      as (outcomes & _ & Hcalls & _ & _ & Hfresh & _).
    destruct (Hfresh eq_refl Hf) as [Heq _]. rewrite Heq in Hcalls. exact Hcalls.
  - destruct (restrictions_applied_in_order _ _ _ _ _ Hknown Hrun')
      as (outcomes & _ & Hcalls & _ & _ & Hfresh & _).
    destruct (Hfresh eq_refl Hf') as [Heq _]. rewrite Heq in Hcalls. exact Hcalls.
Defined.

Lemma newState_reports_every_child_witness :
  isInitialized (self fresh_flaky) = true /\
  exists results w1,
    newState batch fresh_flaky
    = (Return (Success results), record (Emit (stateProcessed results)) w1) /\
    processed_in_turn batch fresh_flaky results w1 /\
    map result_child results = ["child-7"; "child-1"; "child-2"].
Proof.
  split; [reflexivity|].
  destruct (newState_reports_every_child batch fresh_flaky eq_refl)
    as (_ & results & w1 & Hrun & Hturn & Hmap & _).
  exists results, w1. split; [exact Hrun|]. split; [exact Hturn | exact Hmap].
Defined.

(** The first entry fails: one call was made, the second entry was not
    tried. *)
Example first_entry_fails :
  rest_calls (log (snd (_applyGameRestrictions first_child two_entries fresh_flaky)))
  = [("POST", "https://m.np.playstation.com/api/familyManagement/v1/users/psn-1/restrictedContent",
      Some (RestrictedContent "g1" "game" "block"), Rejected network_error)].
Proof. vm_compute. reflexivity. Qed.

(** Both entries succeed: two calls, in list order. *)
Example both_entries_succeed :
  map fst (rest_calls (log (snd (_applyGameRestrictions first_child two_entries fresh))))
  = [("POST", "https://m.np.playstation.com/api/familyManagement/v1/users/psn-1/restrictedContent",
      Some (RestrictedContent "g1" "game" "block"));
     ("DELETE", "https://m.np.playstation.com/api/familyManagement/v1/users/psn-1/restrictedContent/g2",
      None)] /\
  fst (_applyGameRestrictions first_child two_entries fresh) = Return tt.
Proof. vm_compute. split; reflexivity. Qed.

(** A batch with an unmapped child, a child whose call fails and a child
    whose calls succeed: three results in one response. *)
Example mixed_batch :
  fst (newState batch fresh_flaky)
  = Return (Success
      [Skipped "child-7" "No PSN account mapped";
       Failed "child-1" "Failed to set play time limit: Network Error";
       Processed "child-2" "psn-2" [Suspend None; Restrictions []]]).
Proof. vm_compute. reflexivity. Qed.

(** A plugin that is not loaded and has no 'error' listener: [newState]
    throws instead of returning a failure. *)
Example newState_before_load :
  fst (newState batch
         (set_self (mkPlugin [] None ∅ false None) fresh))
  = Throw (newError "Plugin not initialized").
Proof. vm_compute. reflexivity. Qed.

End Api.

(** * More properties of the request pipeline *)

Section PipelineMore.
Import Pipeline.

(** X1.  On every reachable state [isProcessingQueue] is true exactly when
    an activation of [_processQueue] is alive, at most one is, and a
    non-empty queue always has one: a pushed request is never left in the
    queue with nobody to send it. *)
Theorem queue_is_never_stranded ls s :
  run ls init = Some s ->
  (isProcessingQueue s = true <-> suspended s <> []) /\
  (length (suspended s) <= 1)%nat /\
  (requestQueue s <> [] -> isProcessingQueue s = true /\ length (suspended s) = 1%nat) /\
  (isProcessingQueue s = false -> requestQueue s = [] /\ in_flight s = 0%nat).
Proof.
  intros Hrun.
  assert (Hinv : invariant s) by (apply invariant_reachable; exists ls; assumption).
  pose proof (inv_parked s Hinv) as Hp. unfold parked in Hp. unfold in_flight.
  destruct (suspended s) as [|[r|due] [|b l]]; try contradiction;
    [destruct Hp as (Hb & Hq & _); rewrite Hq | destruct Hp as (Hb & _) ..];
    rewrite Hb; simpl;
    (split; [split; [intros H; try discriminate H; congruence
                    | intros H; try reflexivity; congruence]|]);
    (split; [lia|]);
    (split; [intros H; try congruence; split; reflexivity|]);
    intros H; try discriminate H; split; reflexivity.
Qed.

Lemma queue_is_never_stranded_witness :
  run burst init = Some (state_after burst) /\
  isProcessingQueue (state_after burst) = true /\
  length (suspended (state_after burst)) = 1%nat.
Proof.
  assert (Hrun : run burst init = Some (state_after burst)) by (vm_compute; reflexivity).
  split; [exact Hrun|].
  destruct (queue_is_never_stranded burst (state_after burst) Hrun) as (_ & _ & H & _).
  apply H. vm_compute. discriminate.
Defined.

(** X2.  On every reachable state each pushed request is in exactly one
    place: settled, in flight or queued, in this order of submission; and
    once the machine has drained, every promise has been settled exactly
    once, in submission order, each with the outcome of its own call. *)
Theorem every_request_settles_once ls s :
  run ls init = Some s ->
  map fst (delivered (trace s)) ++ map promise (calling (suspended s))
    ++ map promise (requestQueue s)
  = seq 0 (length (pushed s)) /\
  forall answer,
    let s' := drain (2 * length (requestQueue s) + 1) answer s in
    map fst (delivered (trace s')) = seq 0 (length (pushed s)) /\
    NoDup (map fst (delivered (trace s'))) /\
    delivered (trace s')
    = delivered (trace s)
        ++ map (fun r => (promise r, answer r)) (calling (suspended s) ++ requestQueue s).
Proof.
  intros Hrun.
  assert (Hreach : reachable s) by (exists ls; assumption).
  pose proof (invariant_reachable s Hreach) as Hinv.
  assert (Hall : map fst (delivered (trace s)) ++ map promise (calling (suspended s))
                   ++ map promise (requestQueue s) = seq 0 (length (pushed s))).
  { rewrite app_assoc, <- (inv_once s Hinv), <- map_app, (inv_fifo s Hinv).
    apply (inv_ids s Hinv). }
  split; [exact Hall|]. intros answer s'.
  destruct (drain_rests answer (2 * length (requestQueue s) + 1) s Hinv
              (work_bound s Hinv)) as (_ & _ & _ & Hd & _).
  fold s' in Hd.
  assert (Hids : map fst (delivered (trace s')) = seq 0 (length (pushed s))).
  { rewrite Hd, map_app, map_map. simpl. rewrite map_app, <- Hall. reflexivity. }
  split; [exact Hids|]. split; [rewrite Hids; apply NoDup_seq | exact Hd].
Qed.

Lemma every_request_settles_once_witness :
  run busy init = Some (state_after busy) /\
  map fst (delivered (trace (state_after busy)))
    ++ map promise (calling (suspended (state_after busy)))
    ++ map promise (requestQueue (state_after busy))
  = seq 0 (length (pushed (state_after busy))).
Proof.
  assert (Hrun : run busy init = Some (state_after busy)) by (vm_compute; reflexivity).
  split; [exact Hrun|].
  exact (proj1 (every_request_settles_once busy (state_after busy) Hrun)).
Defined.

(** X3.  What a submission does depends only on [isProcessingQueue].  At
    rest the request is handed to the transport in the same step, whatever
    the time since the last call ended: the delay is only kept inside a
    burst.  While an activation is alive the request is only appended to
    the queue and nothing is sent. *)
Theorem submission_by_state ls s m ep d :
  run ls init = Some s ->
  let r := mkRequest m ep d (length (pushed s)) in
  (isProcessingQueue s = false ->
   trace (submit m ep d s) = Sent (now s) r :: trace s /\
   suspended (submit m ep d s) = [AtAxios r] /\
   requestQueue (submit m ep d s) = [] /\
   isProcessingQueue (submit m ep d s) = true) /\
  (isProcessingQueue s = true ->
   trace (submit m ep d s) = trace s /\
   suspended (submit m ep d s) = suspended s /\
   requestQueue (submit m ep d s) = requestQueue s ++ [r]).
Proof.
  intros Hrun r.
  assert (Hinv : invariant s) by (apply invariant_reachable; exists ls; assumption).
  pose proof (inv_parked s Hinv) as Hp. unfold parked in Hp.
  unfold submit, _processQueue. simpl. split; intros Hb; rewrite Hb; simpl.
  - destruct (suspended s) as [|[r'|due] [|b l]] eqn:Hs; try contradiction.
    + destruct Hp as (_ & Hq & _). rewrite Hq. simpl.
      unfold while_test. simpl. rewrite Hs. auto.
    + destruct Hp as (Hb' & _). congruence.
    + destruct Hp as (Hb' & _). congruence.
  - auto.
Qed.

Lemma submission_by_state_witness :
  run solo init = Some (state_after solo) /\
  isProcessingQueue (state_after solo) = false /\
  trace (submit "GET" "/b" None (state_after solo))
  = Sent 0 (mkRequest "GET" "/b" None 1)
      :: Idle 0 :: Settled 0 (mkRequest "GET" "/a" None 0) (Resolved no_body)
      :: Sent 0 (mkRequest "GET" "/a" None 0) :: [].
Proof.
  assert (Hrun : run solo init = Some (state_after solo)) by (vm_compute; reflexivity).
  assert (Hb : isProcessingQueue (state_after solo) = false) by (vm_compute; reflexivity).
  split; [exact Hrun|]. split; [exact Hb|].
  destruct (submission_by_state solo (state_after solo) "GET" "/b" None Hrun) as (H & _).
  destruct (H Hb) as (Htrace & _). rewrite Htrace. vm_compute. reflexivity.
Defined.

End PipelineMore.

(** * More properties of the token manager *)

Section TokenMore.
Import Psn.

(** X4.  When [ensureAuthenticated] throws, the API object is as it was:
    a refused exchange never clears or half-writes the stored token pair,
    and the plugin is not written either.  The error thrown is always the
    one of [authenticate]; the error of a refused refresh is only printed. *)
Theorem failed_token_check_changes_nothing w e w' :
  ensureAuthenticated w = (Throw e, w') ->
  psn w' = psn w /\ self w' = self w /\
  exists m, e = newError ("PSN authentication failed: " +:+ m).
Proof.
  unfold ensureAuthenticated, refreshAccessToken, authenticate, try_catch, bind, get,
    console, modify, throw, ret, outbound, store_tokens. simpl.
  destruct (truthy (accessToken (psn w))); simpl.
  - destruct (expiring (tokenExpiry (psn w)) (now w)); simpl; [|discriminate].
    destruct (outcome (remote w (calls w))) as [d1|e1]; simpl; [discriminate|].
    destruct (truthy (npsso (psn w))); simpl.
    + destruct (outcome (remote w (S (calls w)))) as [d2|e2]; simpl; [discriminate|].
      intros [= <- <-]. simpl. eauto.
    + intros [= <- <-]. simpl. eauto.
  - destruct (truthy (npsso (psn w))); simpl.
    + destruct (outcome (remote w (calls w))) as [d1|e1]; simpl; [discriminate|].
      intros [= <- <-]. simpl. eauto.
    + intros [= <- <-]. simpl. eauto.
Qed.

Lemma failed_token_check_changes_nothing_witness :
  ensureAuthenticated cold_offline
  = (Throw (newError "PSN authentication failed: Network Error"),
     snd (ensureAuthenticated cold_offline)) /\
  psn (snd (ensureAuthenticated cold_offline)) = psn cold_offline.
Proof.
  assert (Hrun : ensureAuthenticated cold_offline
                 = (Throw (newError "PSN authentication failed: Network Error"),
                    snd (ensureAuthenticated cold_offline)))
    by (vm_compute; reflexivity).
  split; [exact Hrun|].
  exact (proj1 (failed_token_check_changes_nothing _ _ _ Hrun)).
Defined.

(** With a token inside the margin the first exchange is the refresh. *)
Lemma ensureAuthenticated_refreshes w :
  truthy (accessToken (psn w)) = true ->
  expiring (tokenExpiry (psn w)) (now w) = true ->
  exists fallback,
    grants (log (snd (ensureAuthenticated w)))
    = grants (log w) ++ RefreshGrant (refreshToken (psn w)) :: fallback.
Proof.
  intros Ha Hx.
  unfold ensureAuthenticated, refreshAccessToken, authenticate, try_catch, bind, get,
    console, modify, throw, ret, outbound, store_tokens. simpl. rewrite Ha, Hx. simpl.
  destruct (outcome (remote w (calls w))) as [d1|e1]; simpl; [exists []; reflexivity|].
  destruct (truthy (npsso (psn w))); simpl; [|exists []; reflexivity].
  destruct (outcome (remote w (S (calls w)))) as [d2|e2]; simpl;
    eexists; rewrite <- app_assoc; reflexivity.
Qed.

(** X5.  A first authentication that is accepted with [expires_in = seconds]
    leaves a token pair that the next check, made at the same instant, uses
    as it is exactly when [seconds] is more than 300: with a lifetime of 300
    seconds or less the very next check already starts with a refresh.  The
    expiry stored is the time of the answer plus [seconds * 1000], for every
    lifetime that keeps this sum within [2 ^ 53], where the doubles of line
    530 are exact. *)
Theorem lifetime_boundary w data seconds :
  truthy (accessToken (psn w)) = false ->
  truthy (npsso (psn w)) = true ->
  outcome (remote w (calls w)) = Resolved data ->
  truthy (access_token data) = true ->
  expires_in data = Some seconds ->
  0 < now w -> 0 <= seconds ->
  let w1 := snd (ensureAuthenticated w) in
  fst (ensureAuthenticated w) = Return tt /\
  (now w1 + seconds * 1000 <= 2 ^ 53 ->
   tokenExpiry (psn w1) = Some (now w1 + seconds * 1000)) /\
  (300 < seconds -> ensureAuthenticated w1 = (Return tt, w1)) /\
  (seconds <= 300 ->
   exists fallback,
     grants (log (snd (ensureAuthenticated w1)))
     = grants (log w1) ++ RefreshGrant (refresh_token data) :: fallback).
Proof.
  intros Ha Hn Ho Ht He Hnow Hs w1.
  assert (Hrun : ensureAuthenticated w
                 = (Return tt,
                    record (Console "[PSN API] Authentication successful")
                      (set_psn (set_tokens (access_token data) (refresh_token data)
                                  (Some (now (served w) + seconds * 1000)) (psn w))
                         (record (Post (NpssoGrant (npsso (psn w))) (Resolved data))
                            (served (record (Console "[PSN API] Authenticating...") w)))))).
  { unfold ensureAuthenticated, authenticate, try_catch, bind, get,
      console, modify, throw, ret, outbound, store_tokens. simpl.
    rewrite Ha. simpl. rewrite Hn. simpl. rewrite Ho. simpl. rewrite He. reflexivity. }
  unfold w1. rewrite Hrun. simpl.
  split; [reflexivity|]. split; [intros _; reflexivity|].
  set (w2 := record _ _).
  assert (Hlat : 0 <= Z.of_N (latency (remote w (calls w)))) by lia.
  split.
  - intros Hlong. apply ensureAuthenticated_fresh; [exact Ht|]. simpl.
    apply andb_false_intro2. apply Z.leb_gt. lia.
  - intros Hshort.
    destruct (ensureAuthenticated_refreshes w2) as [fallback Hg]; [exact Ht| |].
    + simpl. apply andb_true_intro. split.
      * apply negb_true_iff, Z.eqb_neq. lia.
      * apply Z.leb_le. lia.
    + exists fallback. exact Hg.
Qed.

Lemma lifetime_boundary_witness :
  tokenExpiry (psn (snd (ensureAuthenticated (cold_with_lifetime 301))))
  = Some (now (snd (ensureAuthenticated (cold_with_lifetime 301))) + 301 * 1000) /\
  ensureAuthenticated (snd (ensureAuthenticated (cold_with_lifetime 301)))
  = (Return tt, snd (ensureAuthenticated (cold_with_lifetime 301))) /\
  exists fallback,
    grants (log (snd (ensureAuthenticated (snd (ensureAuthenticated (cold_with_lifetime 300))))))
    = grants (log (snd (ensureAuthenticated (cold_with_lifetime 300))))
        ++ RefreshGrant (Some "refresh-2") :: fallback.
Proof.
  assert (Hsafe : now (snd (ensureAuthenticated (cold_with_lifetime 301))) + 301 * 1000
                  <= 2 ^ 53) by (vm_compute; discriminate).
  split; [|split].
  - destruct (lifetime_boundary (cold_with_lifetime 301) (lifetime_body 301) 301
                eq_refl eq_refl eq_refl eq_refl eq_refl) as (_ & H & _);
      [reflexivity | lia |]. exact (H Hsafe).
  - destruct (lifetime_boundary (cold_with_lifetime 301) (lifetime_body 301) 301
                eq_refl eq_refl eq_refl eq_refl eq_refl) as (_ & _ & H & _);
      [reflexivity | lia |]. apply H. lia.
  - destruct (lifetime_boundary (cold_with_lifetime 300) (lifetime_body 300) 300
                eq_refl eq_refl eq_refl eq_refl eq_refl) as (_ & _ & _ & H);
      [reflexivity | lia |]. apply H. lia.
Defined.

(** X6.  A request made with a token inside the margin first refreshes and
    then sends its call with the access token of the refresh answer, not
    with the stored one: two outbound calls, the token endpoint first. *)
Theorem request_uses_the_refreshed_token m ep d w data :
  truthy (accessToken (psn w)) = true ->
  expiring (tokenExpiry (psn w)) (now w) = true ->
  outcome (remote w (calls w)) = Resolved data ->
  log (snd (request m ep d w))
  = Call m (baseURL +:+ ep) d (access_token data) (region (psn w))
      (outcome (remote w (S (calls w))))
      :: Console "[PSN API] Token refreshed"
      :: Post (RefreshGrant (refreshToken (psn w))) (Resolved data)
      :: Console "[PSN API] Refreshing access token..."
      :: log w /\
  calls (snd (request m ep d w)) = S (S (calls w)).
Proof.
  intros Ha Hx Ho. rewrite request_unfold.
  unfold ensureAuthenticated, refreshAccessToken, try_catch, bind, get,
    console, modify, throw, ret, outbound, store_tokens. simpl.
  rewrite Ha, Hx. simpl. rewrite Ho. simpl.
  destruct (outcome (remote w (S (calls w)))); simpl; auto.
Qed.

Lemma request_uses_the_refreshed_token_witness :
  log (snd (request "GET" "/api/familyManagement/v1/families" None stale))
  = [Call "GET" "https://m.np.playstation.com/api/familyManagement/v1/families" None
       (Some "access-2") "en-us" (Resolved token_body);
     Console "[PSN API] Token refreshed";
     Post (RefreshGrant (Some "refresh-1")) (Resolved token_body);
     Console "[PSN API] Refreshing access token..."].
Proof.
  destruct (request_uses_the_refreshed_token "GET" "/api/familyManagement/v1/families"
              None stale token_body eq_refl eq_refl eq_refl) as (H & _).
  rewrite H. vm_compute. reflexivity.
Defined.

End TokenMore.

(** * More properties of the API methods *)

#[global] Instance same_cache_refl : Reflexive same_cache.
Proof. intros w. reflexivity. Qed.

#[global] Instance same_cache_trans : Transitive same_cache.
Proof. intros a b c H G. unfold same_cache in *. congruence. Qed.

#[global] Instance same_api_refl : Reflexive same_api.
Proof. intros w. reflexivity. Qed.

#[global] Instance same_api_trans : Transitive same_api.
Proof. intros a b c H G. unfold same_api in *. congruence. Qed.

Section ApiMore.
Import Psn.

Lemma request_same_cache m ep d : preserves same_cache (request m ep d).
Proof. frame. Qed.

Lemma request_same_plugin m ep d : preserves same_plugin (request m ep d).
Proof. frame. Qed.

Lemma request_later m ep d : preserves later (request m ep d).
Proof. frame. Qed.

Lemma getPlayTime_later a : preserves later (getPlayTime a).
Proof. frame. Qed.

Lemma getPlayTime_same_plugin a : preserves same_plugin (getPlayTime a).
Proof. frame. Qed.

Lemma getPlayTime_silent a : preserves silent (getPlayTime a).
Proof. frame. Qed.

(** [getPlayTime] by what the cache and the request give. *)
Lemma getPlayTime_unfold a w :
  getPlayTime a w
  = match cache_get (playTime_key a) w with
    | (Return (Some pt), w0) => (Return pt, w0)
    | (Return None, w0) =>
        match request "GET" (users a +:+ "/playTime") None w0 with
        | (Return data, w2) =>
            (Return (playTime_of a data),
             set_psn (set_cache (<[playTime_key a := (playTime_of a data, now w2 + 60 * 1000)]>
                                   (cache (psn w2))) (psn w2)) w2)
        | (Throw e, w2) =>
            (Throw (newError ("Failed to get play time: " +:+ message e)),
             record (Console ("[PSN API] Get play time error: " +:+ message e)) w2)
        end
    | (Throw e, w0) =>
        (Throw (newError ("Failed to get play time: " +:+ message e)),
         record (Console ("[PSN API] Get play time error: " +:+ message e)) w0)
    end.
Proof.
  unfold getPlayTime, try_catch, playTime_key. unfold bind at 1.
  destruct (cache_get ("playTime_" +:+ a) w) as [[[pt|]|e] w0]; try reflexivity.
  unfold bind at 1.
  destruct (request "GET" (users a +:+ "/playTime") None w0) as [[data|e] w2];
    reflexivity.
Qed.

(** What [cache.get] gives: the entry while its time has not passed, else
    nothing, the entry being dropped. *)
Lemma cache_get_cases key w :
  (exists v t, cache (psn w) !! key = Some (v, t) /\ (t = 0 \/ now w <= t) /\
               cache_get key w = (Return (Some v), w))
  \/
  (cache_get key w
   = (Return None,
      match cache (psn w) !! key with
      | Some _ => set_psn (set_cache (delete key (cache (psn w))) (psn w)) w
      | None => w
      end) /\
   match cache (psn w) !! key with
   | Some (_, t) => t <> 0 /\ t < now w
   | None => True
   end).
Proof.
  unfold cache_get. destruct (cache (psn w) !! key) as [[v t]|] eqn:E.
  - destruct (negb (t =? 0) && (t <? now w)) eqn:Hx.
    + right. apply andb_true_iff in Hx. destruct Hx as [H0 Hlt].
      apply negb_true_iff, Z.eqb_neq in H0. apply Z.ltb_lt in Hlt. auto.
    + left. exists v, t. split; [reflexivity|]. split; [|reflexivity].
      apply andb_false_iff in Hx. destruct Hx as [H0|Hlt].
      * left. apply negb_false_iff, Z.eqb_eq in H0. exact H0.
      * right. apply Z.ltb_ge in Hlt. exact Hlt.
  - right. auto.
Qed.

(** X7.  A play time that [getPlayTime] has returned is returned again by
    the next call made at the same instant, with no outbound call, no
    exchange and nothing printed: the world is left as it is. *)
Theorem getPlayTime_is_cached a w pt w' :
  getPlayTime a w = (Return pt, w') ->
  getPlayTime a w' = (Return pt, w').
Proof.
  rewrite getPlayTime_unfold.
  destruct (cache_get_cases (playTime_key a) w)
    as [(v & t & Hl & Ht & Hget) | (Hget & _)]; rewrite Hget.
  - intros [= <- <-]. rewrite getPlayTime_unfold, Hget. reflexivity.
  - destruct (request "GET" (users a +:+ "/playTime") None _) as [[data|e] w2];
      [|discriminate].
    intros [= <- <-]. rewrite getPlayTime_unfold.
    unfold cache_get. simpl. rewrite lookup_insert_eq.
    assert (Hx : negb (now w2 + 60 * 1000 =? 0) && (now w2 + 60 * 1000 <? now w2) = false).
    { apply andb_false_intro2. apply Z.ltb_ge. lia. }
    rewrite Hx. reflexivity.
Qed.

Lemma getPlayTime_is_cached_witness :
  getPlayTime "psn-1" generous
  = (Return (playTime_of "psn-1" playing_body), snd (getPlayTime "psn-1" generous)) /\
  getPlayTime "psn-1" (snd (getPlayTime "psn-1" generous))
  = (Return (playTime_of "psn-1" playing_body), snd (getPlayTime "psn-1" generous)).
Proof.
  assert (Hrun : getPlayTime "psn-1" generous
                 = (Return (playTime_of "psn-1" playing_body),
                    snd (getPlayTime "psn-1" generous)))
    by (vm_compute; reflexivity).
  split; [exact Hrun|]. exact (getPlayTime_is_cached _ _ _ _ Hrun).
Defined.

(** With a fresh token and nothing usable in the cache, [getPlayTime] makes
    its one GET and, when it is accepted, caches the value for 60 s from
    the time of the answer. *)
Lemma getPlayTime_fetches a w w0 :
  cache_get (playTime_key a) w = (Return None, w0) ->
  now w0 = now w -> remote w0 = remote w -> calls w0 = calls w -> log w0 = log w ->
  accessToken (psn w0) = accessToken (psn w) ->
  tokenExpiry (psn w0) = tokenExpiry (psn w) ->
  truthy (accessToken (psn w)) = true ->
  expiring (tokenExpiry (psn w)) (now w) = false ->
  rest_calls (log (snd (getPlayTime a w)))
  = rest_calls (log w)
      ++ [("GET", baseURL +:+ (users a +:+ "/playTime"), None, outcome (remote w (calls w)))] /\
  match outcome (remote w (calls w)) with
  | Resolved data =>
      fst (getPlayTime a w) = Return (playTime_of a data) /\
      cache (psn (snd (getPlayTime a w))) !! playTime_key a
      = Some (playTime_of a data,
              now w + Z.of_N (latency (remote w (calls w))) + 60 * 1000)
  | Rejected e =>
      fst (getPlayTime a w)
      = Throw (newError ("Failed to get play time: " +:+ message e))
  end.
Proof.
  intros Hget Hnow Hrem Hcalls Hlog Hacc Hexp Ha Hx.
  rewrite getPlayTime_unfold, Hget, request_unfold.
  rewrite (ensureAuthenticated_fresh w0) by (rewrite ?Hacc, ?Hexp, ?Hnow; assumption).
  unfold outbound. rewrite Hrem, Hcalls.
  destruct (outcome (remote w (calls w))) as [data|e]; simpl; rewrite Hlog.
  - split; [reflexivity|]. split; [reflexivity|].
    rewrite lookup_insert_eq, Hnow, Hrem, Hcalls. reflexivity.
  - split; reflexivity.
Qed.

(** X8.  An entry of the play-time cache with time [t] is what
    [getPlayTime] returns, with the world left as it is, as long as the
    clock has not passed [t] (or [t] is [0]); once the clock is past [t]
    the entry is not used any more: with a fresh token the call goes out,
    and an accepted answer is cached until 60 s after it arrived. *)
Theorem cache_entry_lifetime a w v t :
  cache (psn w) !! playTime_key a = Some (v, t) ->
  ((t = 0 \/ now w <= t) -> getPlayTime a w = (Return v, w)) /\
  (t <> 0 -> t < now w ->
   truthy (accessToken (psn w)) = true ->
   expiring (tokenExpiry (psn w)) (now w) = false ->
   rest_calls (log (snd (getPlayTime a w)))
   = rest_calls (log w)
       ++ [("GET", baseURL +:+ (users a +:+ "/playTime"), None, outcome (remote w (calls w)))] /\
   forall data, outcome (remote w (calls w)) = Resolved data ->
     fst (getPlayTime a w) = Return (playTime_of a data) /\
     cache (psn (snd (getPlayTime a w))) !! playTime_key a
     = Some (playTime_of a data,
             now w + Z.of_N (latency (remote w (calls w))) + 60 * 1000)).
Proof.
  intros Hl. split.
  - intros Ht. rewrite getPlayTime_unfold. unfold cache_get. rewrite Hl.
    assert (Hx : negb (t =? 0) && (t <? now w) = false).
    { destruct Ht as [-> | Ht]; [reflexivity|].
      apply andb_false_intro2. apply Z.ltb_ge. exact Ht. }
    rewrite Hx. reflexivity.
  - intros H0 Hlt Ha Hx.
    assert (Hget : cache_get (playTime_key a) w
                   = (Return None,
                      set_psn (set_cache (delete (playTime_key a) (cache (psn w))) (psn w)) w)).
    { unfold cache_get. rewrite Hl.
      assert (Hd : negb (t =? 0) && (t <? now w) = true).
      { apply andb_true_intro. split; [apply negb_true_iff, Z.eqb_neq; exact H0|].
        apply Z.ltb_lt. exact Hlt. }
      rewrite Hd. reflexivity. }
    destruct (getPlayTime_fetches a w _ Hget eq_refl eq_refl eq_refl eq_refl eq_refl
                eq_refl Ha Hx) as (Hcalls & Hres).
    split; [exact Hcalls|]. intros data Hd. rewrite Hd in Hres. exact Hres.
Qed.

Lemma cache_entry_lifetime_witness :
  getPlayTime "psn-1" (cached_until 1000000)
  = (Return (playTime_of "psn-1" playing_body), cached_until 1000000) /\
  rest_calls (log (snd (getPlayTime "psn-1" (cached_until 999999))))
  = [("GET", baseURL +:+ (users "psn-1" +:+ "/playTime"), None, Resolved no_body)].
Proof.
  split.
  - destruct (cache_entry_lifetime "psn-1" (cached_until 1000000)
                (playTime_of "psn-1" playing_body) 1000000 eq_refl) as (H & _).
    apply H. right. simpl. lia.
  - destruct (cache_entry_lifetime "psn-1" (cached_until 999999)
                (playTime_of "psn-1" playing_body) 999999 eq_refl) as (_ & H).
    destruct H as (Hcalls & _); [lia | simpl; lia | reflexivity | reflexivity |].
    exact Hcalls.
Defined.

(** X9.  [setPlayTimeLimit] drops the cached play time of its account, and
    only that entry, when its call is accepted; when it throws, the cache
    is as it was. *)
Theorem setPlayTimeLimit_drops_the_cached_play_time a l w res w' :
  setPlayTimeLimit a l w = (res, w') ->
  cache (psn w')
  = match res with
    | Return _ => delete (playTime_key a) (cache (psn w))
    | Throw _ => cache (psn w)
    end.
Proof.
  unfold setPlayTimeLimit, try_catch. unfold bind at 1, console at 1, modify at 1.
  set (w0 := record _ w). unfold bind at 1.
  destruct (request "PUT" (users a +:+ "/playTimeSettings")
              (Some (PlayTimeSettings l (0 <? l))) w0) as [[data|e] w2] eqn:E;
    pose proof (request_same_cache _ _ _ _ _ _ E) as Hc; unfold same_cache in Hc;
    simpl in Hc.
  - unfold bind, cache_del, modify, ret. intros [= <- <-]. simpl. rewrite Hc. reflexivity.
  - unfold bind, console, modify, throw. intros [= <- <-]. simpl. exact Hc.
Qed.

Lemma setPlayTimeLimit_drops_the_cached_play_time_witness :
  setPlayTimeLimit "psn-1" 60 (cached_until 2000000)
  = (Return true, snd (setPlayTimeLimit "psn-1" 60 (cached_until 2000000))) /\
  cache (psn (snd (setPlayTimeLimit "psn-1" 60 (cached_until 2000000))))
    !! playTime_key "psn-1" = None.
Proof.
  assert (Hrun : setPlayTimeLimit "psn-1" 60 (cached_until 2000000)
                 = (Return true, snd (setPlayTimeLimit "psn-1" 60 (cached_until 2000000))))
    by (vm_compute; reflexivity).
  split; [exact Hrun|].
  rewrite (setPlayTimeLimit_drops_the_cached_play_time _ _ _ _ _ Hrun).
  apply lookup_delete_eq.
Defined.

(** X10.  When [getPlayTime] throws, the error is the wrapped one, nothing
    is cached for the account afterwards (an entry past its time is dropped,
    not served in place of the failed call), and the other entries are as
    they were. *)
Theorem failed_getPlayTime_caches_nothing a w e w' :
  getPlayTime a w = (Throw e, w') ->
  (exists m, e = newError ("Failed to get play time: " +:+ m)) /\
  cache (psn w') !! playTime_key a = None /\
  forall key, key <> playTime_key a -> cache (psn w') !! key = cache (psn w) !! key.
Proof.
  rewrite getPlayTime_unfold.
  destruct (cache_get_cases (playTime_key a) w)
    as [(v & t & Hl & Ht & Hget) | (Hget & _)]; rewrite Hget; [discriminate|].
  set (w0 := match cache (psn w) !! playTime_key a with Some _ => _ | None => w end).
  assert (Hnone : cache (psn w0) !! playTime_key a = None).
  { unfold w0. destruct (cache (psn w) !! playTime_key a) eqn:E; simpl;
      [apply lookup_delete_eq | exact E]. }
  assert (Hother : forall key, key <> playTime_key a ->
                     cache (psn w0) !! key = cache (psn w) !! key).
  { intros key Hk. unfold w0. destruct (cache (psn w) !! playTime_key a); simpl;
      [apply lookup_delete_ne; congruence | reflexivity]. }
  destruct (request "GET" (users a +:+ "/playTime") None w0) as [[data|e'] w2] eqn:E;
    [discriminate|].
  pose proof (request_same_cache _ _ _ _ _ _ E) as Hc. unfold same_cache in Hc.
  intros [= <- <-]. simpl. rewrite Hc. eauto.
Qed.

Lemma failed_getPlayTime_caches_nothing_witness :
  getPlayTime "psn-1" fresh_flaky
  = (Throw (newError "Failed to get play time: Network Error"),
     snd (getPlayTime "psn-1" fresh_flaky)) /\
  cache (psn (snd (getPlayTime "psn-1" fresh_flaky))) !! playTime_key "psn-1" = None.
Proof.
  assert (Hrun : getPlayTime "psn-1" fresh_flaky
                 = (Throw (newError "Failed to get play time: Network Error"),
                    snd (getPlayTime "psn-1" fresh_flaky)))
    by (vm_compute; reflexivity).
  split; [exact Hrun|].
  exact (proj1 (proj2 (failed_getPlayTime_caches_nothing _ _ _ _ Hrun))).
Defined.

End ApiMore.

(** * More properties of the plugin *)

#[global] Instance unchecked_refl : Reflexive unchecked.
Proof. intros w. reflexivity. Qed.

#[global] Instance unchecked_trans : Transitive unchecked.
Proof. intros a b c H G. unfold unchecked in *. congruence. Qed.

Section PluginMore.
Import Psn.

(** X11.  [_getPSNAccountForChild] finds nothing exactly when no mapping
    names the child; otherwise it returns the account of the first mapping
    that names it, so that later mappings of the same child, which
    [_getAllPSNAccounts] also lists, are never used for that child. *)
Theorem account_lookup cid w :
  (_getPSNAccountForChild cid w = None <->
   ~ In cid (map childId (_getAllPSNAccounts w))) /\
  (forall acct,
     _getPSNAccountForChild cid w = Some acct ->
     childId acct = cid /\
     exists before after,
       _getAllPSNAccounts w = before ++ acct :: after /\
       ~ In cid (map childId before)).
Proof.
  unfold _getPSNAccountForChild, _getAllPSNAccounts.
  induction (accountMapping (self w)) as [|m ms [IHnone IHsome]]; simpl.
  - split; [tauto|]. intros acct H. discriminate.
  - destruct (String.eqb (m_childId m) cid) eqn:E.
    + apply String.eqb_eq in E. split.
      * split; [discriminate|]. intros H. exfalso. apply H. left. exact E.
      * intros acct [= <-]. simpl. split; [exact E|].
        exists [], (map (fun m0 => {| accountId := psnAccountId m0; childId := m_childId m0 |}) ms).
        split; [reflexivity|]. simpl. tauto.
    + apply String.eqb_neq in E. split.
      * rewrite IHnone. tauto.
      * intros acct H. destruct (IHsome acct H) as (Hc & before & after & Hl & Hb).
        split; [exact Hc|].
        exists ({| accountId := psnAccountId m; childId := m_childId m |} :: before), after.
        split; [simpl; rewrite Hl; reflexivity|]. simpl. tauto.
Qed.

(** With the credential present and a remote side that accepts the calls,
    [setPlayTimeLimit] makes its one call and succeeds. *)
Lemma limit_is_set a l w :
  obliging w -> truthy (npsso (psn w)) = true ->
  exists ws o,
    setPlayTimeLimit a l w = (Return true, ws) /\
    later w ws /\ self ws = self w /\
    emitted (log ws) = emitted (log w) /\
    quota_checks (log ws) = quota_checks (log w) /\
    rest_calls (log ws)
    = rest_calls (log w)
        ++ [("PUT", baseURL +:+ (users a +:+ "/playTimeSettings"),
             Some (PlayTimeSettings l (0 <? l)), o)].
Proof.
  intros Hob Hn.
  set (line := "[PSN API] Setting play time limit for " +:+ a +:+ ": "
               +:+ pretty l +:+ " minutes").
  destruct (setPlayTimeLimit a l w) as [r ws] eqn:E.
  assert (Hun : preserves unchecked (setPlayTimeLimit a l)) by frame.
  pose proof (Hun _ _ _ E) as Hq.
  pose proof (setPlayTimeLimit_same_plugin _ _ _ _ _ E) as Hself.
  pose proof (setPlayTimeLimit_silent _ _ _ _ _ E) as Hsil.
  pose proof (setPlayTimeLimit_later _ _ _ _ _ E) as Hl.
  destruct (setPlayTimeLimit_cases _ _ _ _ _ E) as
    [(e & w1 & Hens & _) | (w1 & Hens & Hc & Hr)]; fold line in Hens.
  { destruct (ensureAuthenticated_obliging (record (Console line) w)) as [w1' Hok];
      [exact Hob | exact Hn |].
    rewrite Hok in Hens. discriminate. }
  assert (Hob1 : obliging w1).
  { eapply obliging_later; [|exact Hob].
    transitivity (record (Console line) w).
    - related.
    - eapply ensureAuthenticated_later; eassumption. }
  destruct (Hob1 (calls w1) (le_n _)) as [data Hd]. rewrite Hd in Hc, Hr. subst r.
  exists ws, (Resolved data). auto 10.
Qed.

(** X12.  When [_suspendSession] or [_resumeSession] throws, the plugin is
    as it was and nothing was emitted: a session is only marked after the
    remote side has accepted the new limit.  The error is the wrapped one
    of [setPlayTimeLimit]. *)
Theorem failed_suspend_or_resume_changes_nothing acct w e w' :
  _suspendSession acct w = (Throw e, w') \/ _resumeSession acct w = (Throw e, w') ->
  self w' = self w /\ emitted (log w') = emitted (log w) /\
  exists m, e = newError ("Failed to set play time limit: " +:+ m).
Proof.
  assert (Hcase : forall l r ws,
            setPlayTimeLimit (accountId acct) l w = (r, ws) ->
            forall e0, r = Throw e0 ->
            self ws = self w /\ emitted (log ws) = emitted (log w) /\
            exists m, e0 = newError ("Failed to set play time limit: " +:+ m)).
  { intros l r ws E e0 ->.
    split; [exact (setPlayTimeLimit_same_plugin _ _ _ _ _ E)|].
    split; [exact (setPlayTimeLimit_silent _ _ _ _ _ E)|].
    destruct (setPlayTimeLimit_cases _ _ _ _ _ E) as
      [(e1 & w1 & _ & He & _) | (w1 & _ & _ & He)].
    - injection He as ->. eauto.
    - destruct (outcome (remote w1 (calls w1))); [discriminate|].
      injection He as ->. eauto. }
  intros [H|H]; revert H.
  - unfold _suspendSession, try_catch. unfold bind at 1.
    destruct (setPlayTimeLimit (accountId acct) 0 w) as [[b|e0] ws] eqn:E.
    + unfold bind, get, put_session, emit, modify. simpl. discriminate.
    + unfold throw. intros [= <- <-]. eapply Hcase; [exact E | reflexivity].
  - unfold _resumeSession, try_catch. unfold bind at 1, get. unfold bind at 1.
    destruct (setPlayTimeLimit (accountId acct)
                (number_or (defaultDailyLimit (self w)) 480) w) as [[b|e0] ws] eqn:E.
    + unfold bind, get, put_session, emit, modify. simpl. discriminate.
    + unfold throw. intros [= <- <-]. eapply Hcase; [exact E | reflexivity].
Qed.

Lemma failed_suspend_or_resume_changes_nothing_witness :
  _suspendSession first_child fresh_flaky
  = (Throw (newError "Failed to set play time limit: Network Error"),
     snd (_suspendSession first_child fresh_flaky)) /\
  self (snd (_suspendSession first_child fresh_flaky)) = self fresh_flaky.
Proof.
  assert (Hrun : _suspendSession first_child fresh_flaky
                 = (Throw (newError "Failed to set play time limit: Network Error"),
                    snd (_suspendSession first_child fresh_flaky)))
    by (vm_compute; reflexivity).
  split; [exact Hrun|].
  exact (proj1 (failed_suspend_or_resume_changes_nothing _ _ _ _ (or_introl Hrun))).
Defined.

(** With the credential present and a remote side that accepts the calls,
    [_suspendSession] makes its one call, marks the session and emits. *)
Lemma suspend_once acct w :
  obliging w -> truthy (npsso (psn w)) = true ->
  exists w1 o,
    _suspendSession acct w = (Return tt, w1) /\
    later w w1 /\
    quota_checks (log w1) = quota_checks (log w) /\
    rest_calls (log w1)
    = rest_calls (log w)
        ++ [("PUT", baseURL +:+ (users (accountId acct) +:+ "/playTimeSettings"),
             Some (PlayTimeSettings 0 false), o)] /\
    emitted (log w1) = emitted (log w) ++ [sessionSuspended (accountId acct)] /\
    activeSessions (self w1)
    = <[accountId acct :=
          {| suspended := Some true;
             suspendedAt := Some (now w1);
             resumedAt := resumedAt (session_of (accountId acct) w);
             lastActive := lastActive (session_of (accountId acct) w);
             sessionGame := sessionGame (session_of (accountId acct) w) |}]>
        (activeSessions (self w)).
Proof.
  intros Hob Hn.
  destruct (limit_is_set (accountId acct) 0 w Hob Hn)
    as (ws & o & E & Hl & Hself & Hsil & Hq & Hc).
  assert (Hrun : _suspendSession acct w
                 = (Return tt,
                    record (Emit (sessionSuspended (accountId acct)))
                      (set_self
                         (set_activeSessions
                            (<[accountId acct :=
                                 {| suspended := Some true;
                                    suspendedAt := Some (now ws);
                                    resumedAt := resumedAt (session_of (accountId acct) ws);
                                    lastActive := lastActive (session_of (accountId acct) ws);
                                    sessionGame := sessionGame (session_of (accountId acct) ws) |}]>
                               (activeSessions (self ws)))
                            (self ws)) ws))).
  { unfold _suspendSession, try_catch. unfold bind at 1. rewrite E. reflexivity. }
  eexists. exists o. split; [exact Hrun|].
  assert (Hsusp : preserves later (_suspendSession acct)) by frame.
  split; [eapply Hsusp; exact Hrun|]. simpl.
  unfold session_of. rewrite Hself, Hsil, Hq, Hc. auto.
Qed.

(** X13.  With the credential present and a remote side that accepts the
    calls, a suspension followed by a resumption makes two calls, the PUT
    of [{0, false}] and then the PUT of the daily limit, emits
    [sessionSuspended] and then [sessionResumed], and leaves the session
    not suspended, with both the time of the suspension and the time of the
    resumption kept. *)
Theorem suspend_then_resume acct w :
  obliging w -> truthy (npsso (psn w)) = true ->
  let limit := number_or (defaultDailyLimit (self w)) 480 in
  let url := baseURL +:+ (users (accountId acct) +:+ "/playTimeSettings") in
  exists w1 w2 o1 o2,
    _suspendSession acct w = (Return tt, w1) /\
    _resumeSession acct w1 = (Return tt, w2) /\
    rest_calls (log w2)
    = rest_calls (log w)
        ++ [("PUT", url, Some (PlayTimeSettings 0 false), o1);
            ("PUT", url, Some (PlayTimeSettings limit (0 <? limit)), o2)] /\
    emitted (log w2)
    = emitted (log w)
        ++ [sessionSuspended (accountId acct); sessionResumed (accountId acct)] /\
    suspended <$> activeSessions (self w1) !! accountId acct = Some (Some true) /\
    activeSessions (self w2) !! accountId acct
    = Some {| suspended := Some false;
              suspendedAt := Some (now w1);
              resumedAt := Some (now w2);
              lastActive := lastActive (session_of (accountId acct) w);
              sessionGame := sessionGame (session_of (accountId acct) w) |}.
Proof.
  intros Hob Hn limit url.
  destruct (suspend_once acct w Hob Hn) as (w1 & o1 & H1 & Hl1 & _ & Hc1 & He1 & Hs1).
  assert (Hob1 : obliging w1) by (eapply obliging_later; eassumption).
  assert (Hn1 : truthy (npsso (psn w1)) = true).
  { destruct Hl1 as (_ & _ & _ & -> & _). assumption. }
  destruct (resume_once acct w1 Hob1 Hn1) as (w2 & o2 & H2 & Hl2 & Hc2 & He2 & Hs2).
  assert (Hlim : defaultDailyLimit (self w1) = defaultDailyLimit (self w)).
  { destruct Hl1 as (_ & _ & _ & _ & _ & _ & -> & _). reflexivity. }
  rewrite Hlim in Hc2. fold limit in Hc2.
  exists w1, w2, o1, o2. split; [exact H1|]. split; [exact H2|].
  split; [rewrite Hc2, Hc1, <- app_assoc; reflexivity|].
  split; [rewrite He2, He1, <- app_assoc; reflexivity|].
  split; [rewrite Hs1, lookup_insert_eq; reflexivity|].
  rewrite Hs2, lookup_insert_eq. unfold session_of at 1 2 3.
  rewrite Hs1, lookup_insert_eq. reflexivity.
Qed.

Lemma suspend_then_resume_witness :
  obliging fresh /\ truthy (npsso (psn fresh)) = true /\
  exists w1 w2,
    _suspendSession first_child fresh = (Return tt, w1) /\
    _resumeSession first_child w1 = (Return tt, w2) /\
    suspended <$> activeSessions (self w1) !! "psn-1" = Some (Some true).
Proof.
  assert (Hob : obliging fresh) by (intros n _; exists no_body; reflexivity).
  split; [exact Hob|]. split; [reflexivity|].
  destruct (suspend_then_resume first_child fresh Hob eq_refl)
    as (w1 & w2 & o1 & o2 & H1 & H2 & _ & _ & Hs & _).
  exists w1, w2. split; [exact H1|]. split; [exact H2 | exact Hs].
Defined.

Lemma bind_return {A B} (c : M A) (k : A -> M B) w a w1 :
  c w = (Return a, w1) -> bind c k w = k a w1.
Proof. intros H. unfold bind. rewrite H. reflexivity. Qed.

Lemma bind_throw {A B} (c : M A) (k : A -> M B) w e w1 :
  c w = (Throw e, w1) -> bind c k w = (Throw e, w1).
Proof. intros H. unfold bind. rewrite H. reflexivity. Qed.

Lemma try_catch_return {A} (c : M A) h w a w1 :
  c w = (Return a, w1) -> try_catch c h w = (Return a, w1).
Proof. intros H. unfold try_catch. rewrite H. reflexivity. Qed.

Lemma try_catch_throw {A} (c : M A) h w e w1 :
  c w = (Throw e, w1) -> try_catch c h w = h e w1.
Proof. intros H. unfold try_catch. rewrite H. reflexivity. Qed.

(** X14.  For a mapped child that is blocked, with no game restrictions,
    the credential present and a remote side that accepts the calls,
    [_processChildState] suspends the account without reading its play time
    and without asking the quota service: its only call is the PUT of the
    limit, and the result carries the one action [Suspend] with the reason
    given. *)
Theorem blocked_child_is_suspended_unasked cid st acct w :
  _getPSNAccountForChild cid w = Some acct ->
  blocked st = true -> games st = None ->
  obliging w -> truthy (npsso (psn w)) = true ->
  let out := _processChildState cid st w in
  fst out = Return (Processed cid (accountId acct) [Suspend (blockedReason st)]) /\
  quota_checks (log (snd out)) = quota_checks (log w) /\
  rest_methods (log (snd out)) = rest_methods (log w) ++ ["PUT"] /\
  suspended <$> activeSessions (self (snd out)) !! accountId acct = Some (Some true) /\
  emitted (log (snd out)) = emitted (log w) ++ [sessionSuspended (accountId acct)].
Proof.
  intros Hacct Hb Hg Hob Hn out.
  destruct (suspend_once acct w Hob Hn) as (w1 & o & H1 & _ & Hq & Hc & He & Hs).
  assert (Hrun : _processChildState cid st w
                 = (Return (Processed cid (accountId acct) [Suspend (blockedReason st)]), w1)).
  { unfold _processChildState. apply try_catch_return.
    rewrite (bind_return get _ w w w eq_refl). rewrite Hacct, Hb, Hg.
    erewrite bind_return; [|erewrite bind_return; [reflexivity | exact H1]].
    reflexivity. }
  unfold out. rewrite Hrun. simpl.
  split; [reflexivity|]. split; [exact Hq|].
  split; [unfold rest_methods; rewrite Hc, map_app; reflexivity|].
  split; [rewrite Hs, lookup_insert_eq; reflexivity | exact He].
Qed.

Lemma blocked_child_is_suspended_unasked_witness :
  obliging fresh /\
  fst (_processChildState "child-1" (mkChildState true (Some "bedtime") None) fresh)
  = Return (Processed "child-1" "psn-1" [Suspend (Some "bedtime")]) /\
  quota_checks (log (snd (_processChildState "child-1"
                            (mkChildState true (Some "bedtime") None) fresh))) = [].
Proof.
  assert (Hob : obliging fresh) by (intros n _; exists no_body; reflexivity).
  split; [exact Hob|].
  destruct (blocked_child_is_suspended_unasked "child-1"
              (mkChildState true (Some "bedtime") None) first_child fresh
              eq_refl eq_refl eq_refl Hob eq_refl) as (H1 & H2 & _).
  split; [exact H1 | exact H2].
Defined.

Lemma granting_obliging v w : granting v w -> obliging w.
Proof. intros H n Hn. destruct (H n Hn) as (data & Hd & _). eauto. Qed.

Lemma granting_later v w w' : later w w' -> granting v w -> granting v w'.
Proof. intros (Hr & Hc & _) H n Hn. rewrite Hr. apply H. lia. Qed.

(** With the credential present and a remote side that accepts the calls,
    [getPlayTime] returns, after at most one GET. *)
Lemma getPlayTime_obliging a w :
  obliging w -> truthy (npsso (psn w)) = true ->
  exists pt w1,
    getPlayTime a w = (Return pt, w1) /\
    later w w1 /\ self w1 = self w /\
    emitted (log w1) = emitted (log w) /\
    quota_checks (log w1) = quota_checks (log w) /\
    (rest_methods (log w1) = rest_methods (log w) \/
     rest_methods (log w1) = rest_methods (log w) ++ ["GET"]).
Proof.
  intros Hob Hn. destruct (getPlayTime a w) as [r w1] eqn:E.
  assert (Hun : preserves unchecked (getPlayTime a)) by frame.
  pose proof (Hun _ _ _ E) as Hq.
  pose proof (getPlayTime_later _ _ _ _ E) as Hl.
  pose proof (getPlayTime_same_plugin _ _ _ _ E) as Hself.
  pose proof (getPlayTime_silent _ _ _ _ E) as Hsil.
  rewrite getPlayTime_unfold in E.
  destruct (cache_get_cases (playTime_key a) w)
    as [(v & t & _ & _ & Hget) | (Hget & _)]; rewrite Hget in E.
  - injection E as <- <-. exists v, w. auto 10.
  - match type of Hget with _ = (_, ?x) => set (w0 := x) in * end.
    assert (Hl0 : later w w0).
    { assert (Hp : preserves later (cache_get (playTime_key a))) by frame.
      exact (Hp _ _ _ Hget). }
    assert (Hq0 : quiet w w0).
    { assert (Hp : preserves quiet (cache_get (playTime_key a))) by frame.
      exact (Hp _ _ _ Hget). }
    assert (Hob0 : obliging w0) by (eapply obliging_later; eassumption).
    assert (Hn0 : truthy (npsso (psn w0)) = true).
    { destruct Hl0 as (_ & _ & _ & -> & _). exact Hn. }
    destruct (request "GET" (users a +:+ "/playTime") None w0) as [res w2] eqn:Hreq.
    destruct (request_cases _ _ _ _ _ _ Hreq)
      as [(e & Hens & _) | (wa & Hens & Hw2 & Hcalls & _ & Hres)].
    + destruct (ensureAuthenticated_obliging w0 Hob0 Hn0) as [wa Hok].
      rewrite Hok in Hens. discriminate.
    + assert (Hoba : obliging wa).
      { eapply obliging_later; [|exact Hob0]. eapply ensureAuthenticated_later; eassumption. }
      destruct (Hoba (calls wa) (le_n _)) as [data Hd]. rewrite Hd in Hres, Hcalls.
      subst res. injection E as <- <-. eexists _, _. split; [reflexivity|].
      split; [exact Hl|]. split; [exact Hself|]. split; [exact Hsil|].
      split; [exact Hq|]. right. unfold rest_methods. simpl.
      rewrite Hcalls, map_app. destruct Hq0 as [-> _]. reflexivity.
Qed.

(** With every quota answer saying [verdict], [_checkQuota] returns it,
    after one question to the quota service. *)
Lemma checkQuota_granting cid acct verdict w :
  granting verdict w -> truthy (npsso (psn w)) = true ->
  exists q w1,
    _checkQuota cid acct w = (Return q, w1) /\
    q_allowed q = verdict /\
    later w w1 /\ self w1 = self w /\
    emitted (log w1) = emitted (log w) /\
    quota_checks (log w1) = quota_checks (log w) ++ [(cid, q_playTime q)] /\
    (rest_methods (log w1) = rest_methods (log w) \/
     rest_methods (log w1) = rest_methods (log w) ++ ["GET"]).
Proof.
  intros Hg Hn.
  destruct (getPlayTime_obliging (accountId acct) w (granting_obliging _ _ Hg) Hn)
    as (pt & w1 & Hpt & Hl & Hself & Hsil & Hq & Hm).
  destruct (granting_later _ _ _ Hl Hg (calls w1) (le_n _)) as (data & Hd & Hv).
  assert (Hrun : _checkQuota cid acct w
                 = (Return {| q_allowed := allowed data; q_remaining := remaining data;
                              q_playTime := todayMinutes pt |},
                    record (QuotaCheck cid (todayMinutes pt) (Resolved data)) (served w1))).
  { unfold _checkQuota. apply try_catch_return.
    rewrite (bind_return _ _ _ _ _ Hpt).
    unfold allow2_check, bind, outbound. rewrite Hd. reflexivity. }
  eexists _, _. split; [exact Hrun|]. simpl.
  split; [exact Hv|]. split.
  { transitivity w1; [exact Hl|]. related. }
  split; [exact Hself|]. split; [exact Hsil|]. split; [rewrite Hq; reflexivity|].
  unfold rest_methods in *. simpl. exact Hm.
Qed.

(** X15.  For a mapped child that is not blocked, with no game
    restrictions, when the quota service says the child is allowed:
    [_processChildState] asks the quota service once, after at most one GET
    of the play time.  If no session of the account is marked suspended, it
    takes no action: nothing is written to the remote side, the plugin is
    left as it is and nothing is emitted.  If the session is marked
    suspended, it resumes the account. *)
Theorem allowed_child_is_resumed_only_if_suspended cid st acct w :
  _getPSNAccountForChild cid w = Some acct ->
  blocked st = false -> games st = None ->
  granting true w -> truthy (npsso (psn w)) = true ->
  let out := _processChildState cid st w in
  length (quota_checks (log (snd out))) = S (length (quota_checks (log w))) /\
  (suspended (session_of (accountId acct) w) <> Some true ->
   fst out = Return (Processed cid (accountId acct) []) /\
   self (snd out) = self w /\
   emitted (log (snd out)) = emitted (log w) /\
   (rest_methods (log (snd out)) = rest_methods (log w) \/
    rest_methods (log (snd out)) = rest_methods (log w) ++ ["GET"])) /\
  (suspended (session_of (accountId acct) w) = Some true ->
   fst out = Return (Processed cid (accountId acct) [Resume]) /\
   suspended <$> activeSessions (self (snd out)) !! accountId acct = Some (Some false) /\
   emitted (log (snd out)) = emitted (log w) ++ [sessionResumed (accountId acct)]).
Proof.
  intros Hacct Hb Hg Hgr Hn out.
  destruct (checkQuota_granting cid acct true w Hgr Hn)
    as (q & w1 & Hq & Hv & Hl & Hself & Hsil & Hch & Hm).
  assert (Hsess : session_of (accountId acct) w1 = session_of (accountId acct) w).
  { unfold session_of. rewrite Hself. reflexivity. }
  destruct (suspended (session_of (accountId acct) w)) as [[|]|] eqn:Hs.
  - (* marked suspended *)
    assert (Hob1 : obliging w1).
    { eapply obliging_later; [exact Hl | exact (granting_obliging _ _ Hgr)]. }
    assert (Hn1 : truthy (npsso (psn w1)) = true).
    { destruct Hl as (_ & _ & _ & -> & _). exact Hn. }
    destruct (resume_once acct w1 Hob1 Hn1) as (w2 & o & Hr & Hl2 & Hc2 & He2 & Hs2).
    assert (Hin : activeSessions (self w1) !! accountId acct
                  = Some (session_of (accountId acct) w)).
    { rewrite Hself. unfold session_of in *.
      destruct (activeSessions (self w) !! accountId acct); [reflexivity|discriminate]. }
    assert (Hrun : _processChildState cid st w
                   = (Return (Processed cid (accountId acct) [Resume]), w2)).
    { unfold _processChildState. apply try_catch_return.
      rewrite (bind_return get _ w w w eq_refl). rewrite Hacct, Hb, Hg.
      erewrite bind_return; [reflexivity|].
      rewrite (bind_return _ _ _ _ _ Hq), Hv.
      rewrite (bind_return get _ w1 w1 w1 eq_refl). rewrite Hin, Hs.
      erewrite bind_return; [reflexivity | exact Hr]. }
    unfold out. rewrite Hrun. simpl.
    split.
    { assert (Hp : preserves unchecked (_resumeSession acct)) by frame.
      rewrite (Hp _ _ _ Hr), Hch, length_app. simpl. lia. }
    split; [intros Hne; congruence|]. intros _.
    split; [reflexivity|]. split; [rewrite Hs2, lookup_insert_eq; reflexivity|].
    rewrite He2, Hsil. reflexivity.
  - (* a session that is not suspended *)
    assert (Hrun : _processChildState cid st w
                   = (Return (Processed cid (accountId acct) []), w1)).
    { unfold _processChildState. apply try_catch_return.
      rewrite (bind_return get _ w w w eq_refl). rewrite Hacct, Hb, Hg.
      erewrite bind_return; [reflexivity|].
      rewrite (bind_return _ _ _ _ _ Hq), Hv.
      rewrite (bind_return get _ w1 w1 w1 eq_refl). rewrite Hself.
      unfold session_of in Hs.
      destruct (activeSessions (self w) !! accountId acct) as [x|];
        [rewrite Hs|]; reflexivity. }
    unfold out. rewrite Hrun. simpl.
    split; [rewrite Hch, length_app; simpl; lia|].
    split; [|intros Hf; discriminate]. intros _. auto.
  - (* no flag *)
    assert (Hrun : _processChildState cid st w
                   = (Return (Processed cid (accountId acct) []), w1)).
    { unfold _processChildState. apply try_catch_return.
      rewrite (bind_return get _ w w w eq_refl). rewrite Hacct, Hb, Hg.
      erewrite bind_return; [reflexivity|].
      rewrite (bind_return _ _ _ _ _ Hq), Hv.
      rewrite (bind_return get _ w1 w1 w1 eq_refl). rewrite Hself.
      unfold session_of in Hs.
      destruct (activeSessions (self w) !! accountId acct) as [x|];
        [rewrite Hs|]; reflexivity. }
    unfold out. rewrite Hrun. simpl.
    split; [rewrite Hch, length_app; simpl; lia|].
    split; [|intros Hf; discriminate]. intros _. auto.
Qed.

Lemma allowed_child_is_resumed_only_if_suspended_witness :
  granting true generous /\ granting true generous_suspended /\
  fst (_processChildState "child-1" (mkChildState false None None) generous)
  = Return (Processed "child-1" "psn-1" []) /\
  fst (_processChildState "child-1" (mkChildState false None None) generous_suspended)
  = Return (Processed "child-1" "psn-1" [Resume]).
Proof.
  assert (Hg : granting true generous)
    by (intros n _; exists playing_body; split; reflexivity).
  assert (Hg' : granting true generous_suspended)
    by (intros n _; exists playing_body; split; reflexivity).
  split; [exact Hg|]. split; [exact Hg'|]. split.
  - destruct (allowed_child_is_resumed_only_if_suspended "child-1"
                (mkChildState false None None) first_child generous
                eq_refl eq_refl eq_refl Hg eq_refl) as (_ & H & _).
    apply H. discriminate.
  - destruct (allowed_child_is_resumed_only_if_suspended "child-1"
                (mkChildState false None None) first_child generous_suspended
                eq_refl eq_refl eq_refl Hg' eq_refl) as (_ & _ & H).
    apply H. reflexivity.
Defined.

(** X16.  For a mapped child that is not blocked, with no game
    restrictions, when the quota service says the child is not allowed:
    [_processChildState] suspends the account, whatever its session was,
    and reports the one action [Suspend] with the reason "Quota exhausted". *)
Theorem exhausted_child_is_suspended cid st acct w :
  _getPSNAccountForChild cid w = Some acct ->
  blocked st = false -> games st = None ->
  granting false w -> truthy (npsso (psn w)) = true ->
  let out := _processChildState cid st w in
  fst out
  = Return (Processed cid (accountId acct) [Suspend (Some "Quota exhausted")]) /\
  suspended <$> activeSessions (self (snd out)) !! accountId acct = Some (Some true) /\
  emitted (log (snd out)) = emitted (log w) ++ [sessionSuspended (accountId acct)] /\
  length (quota_checks (log (snd out))) = S (length (quota_checks (log w))).
Proof.
  intros Hacct Hb Hg Hgr Hn out.
  destruct (checkQuota_granting cid acct false w Hgr Hn)
    as (q & w1 & Hq & Hv & Hl & Hself & Hsil & Hch & Hm).
  assert (Hob1 : obliging w1).
  { eapply obliging_later; [exact Hl | exact (granting_obliging _ _ Hgr)]. }
  assert (Hn1 : truthy (npsso (psn w1)) = true).
  { destruct Hl as (_ & _ & _ & -> & _). exact Hn. }
  destruct (suspend_once acct w1 Hob1 Hn1) as (w2 & o & Hr & _ & Hq2 & _ & He2 & Hs2).
  assert (Hrun : _processChildState cid st w
                 = (Return (Processed cid (accountId acct)
                              [Suspend (Some "Quota exhausted")]), w2)).
  { unfold _processChildState. apply try_catch_return.
    rewrite (bind_return get _ w w w eq_refl). rewrite Hacct, Hb, Hg.
    erewrite bind_return; [reflexivity|].
    rewrite (bind_return _ _ _ _ _ Hq), Hv.
    erewrite bind_return; [reflexivity | exact Hr]. }
  unfold out. rewrite Hrun. simpl.
  split; [reflexivity|]. split; [rewrite Hs2, lookup_insert_eq; reflexivity|].
  split; [rewrite He2, Hsil; reflexivity|].
  rewrite Hq2, Hch, length_app. simpl. lia.
Qed.

Lemma exhausted_child_is_suspended_witness :
  granting false fresh /\
  fst (_processChildState "child-1" (mkChildState false None None) fresh)
  = Return (Processed "child-1" "psn-1" [Suspend (Some "Quota exhausted")]).
Proof.
  assert (Hg : granting false fresh)
    by (intros n _; exists no_body; split; reflexivity).
  split; [exact Hg|].
  exact (proj1 (exhausted_child_is_suspended "child-1" (mkChildState false None None)
                  first_child fresh eq_refl eq_refl eq_refl Hg eq_refl)).
Defined.

(** X17.  Before the plugin is loaded, [newState] does nothing with the
    batch: no call, no exchange and no session is touched.  With an 'error'
    listener it records the error, emits it and returns the failure
    "Plugin not initialized"; with none, the emit throws and [newState]
    throws that error instead of returning.  The guarded [getPlayTime] of
    the plugin throws the same error and leaves the world as it is. *)
Theorem nothing_happens_before_load children w :
  isInitialized (self w) = false ->
  let out := newState children w in
  calls (snd out) = calls w /\
  activeSessions (self (snd out)) = activeSessions (self w) /\
  lastError (self (snd out)) = Some (newError "Plugin not initialized") /\
  (listening w = true ->
   fst out = Return (Failure "Plugin not initialized") /\
   log (snd out) = Emit (error_event (newError "Plugin not initialized")) :: log w) /\
  (listening w = false ->
   fst out = Throw (newError "Plugin not initialized") /\ log (snd out) = log w) /\
  forall id, plugin_getPlayTime id w = (Throw (newError "Plugin not initialized"), w).
Proof.
  intros Hinit out. unfold out.
  cbv [newState plugin_getPlayTime try_catch bind get emit_error emit modify throw ret].
  rewrite Hinit. simpl.
  destruct (listening w); simpl;
    (split; [reflexivity|]); (split; [reflexivity|]); (split; [reflexivity|]);
    (split; [intros H; try discriminate H; split; reflexivity|]);
    (split; [intros H; try discriminate H; split; reflexivity|]);
    intros id; reflexivity.
Qed.

Lemma nothing_happens_before_load_witness :
  isInitialized (self (unloaded true)) = false /\
  fst (newState batch (unloaded true)) = Return (Failure "Plugin not initialized") /\
  fst (newState batch (unloaded false)) = Throw (newError "Plugin not initialized").
Proof.
  split; [reflexivity|]. split.
  - destruct (nothing_happens_before_load batch (unloaded true) eq_refl)
      as (_ & _ & _ & H & _). exact (proj1 (H eq_refl)).
  - destruct (nothing_happens_before_load batch (unloaded false) eq_refl)
      as (_ & _ & _ & _ & H & _). exact (proj1 (H eq_refl)).
Defined.

End PluginMore.

(** * Properties of the configuration form *)

Section ConfigForm.
Import Psn ConfigUI.

Lemma existsb_incomplete_false l :
  existsb incomplete l = false <->
  Forall (fun m => m_childId m <> "" /\ psnAccountId m <> "") l.
Proof.
  induction l as [|m l IH]; simpl.
  - split; [constructor | reflexivity].
  - rewrite orb_false_iff, IH. unfold incomplete. rewrite orb_false_iff.
    rewrite !String.eqb_neq. split.
    + intros [[H1 H2] H3]. constructor; auto.
    + intros H. inversion H; subst. tauto.
Qed.

(** X18.  [handleSave] calls [onSave] exactly when the token is not empty,
    there is at least one mapping and every mapping names a child and an
    account.  What it saves passes [_validateConfig] of the plugin, holds
    the mappings of the form and no [defaultDailyLimit]; the form is left as
    it is.  Otherwise nothing is saved and an error is shown. *)
Theorem saved_configuration_is_valid st :
  ((exists cfg, snd (handleSave st) = Some cfg) <->
   f_npsso st <> "" /\ f_accountMapping st <> [] /\
   Forall (fun m => m_childId m <> "" /\ psnAccountId m <> "") (f_accountMapping st)) /\
  (forall cfg, snd (handleSave st) = Some cfg ->
     _validateConfig (Some cfg) = Return tt /\
     c_npsso cfg = Some (f_npsso st) /\
     c_accountMapping cfg = Some (f_accountMapping st) /\
     c_defaultDailyLimit cfg = None /\
     fst (handleSave st) = st) /\
  (snd (handleSave st) = None ->
   exists msg, f_error (fst (handleSave st)) = Some msg /\
               f_accountMapping (fst (handleSave st)) = f_accountMapping st /\
               f_npsso (fst (handleSave st)) = f_npsso st).
Proof.
  unfold handleSave.
  destruct (String.eqb (f_npsso st) "") eqn:Hn.
  { apply String.eqb_eq in Hn. simpl. split; [|split].
    - split; [intros [cfg H]; discriminate | intros [H _]; contradiction].
    - intros cfg H; discriminate.
    - intros _. eauto. }
  apply String.eqb_neq in Hn.
  destruct (f_accountMapping st) as [|m l] eqn:Hl; simpl.
  { split; [|split].
    - split; [intros [cfg H]; discriminate | intros (_ & H & _); contradiction].
    - intros cfg H; discriminate.
    - intros _. rewrite Hl. eauto. }
  destruct (incomplete m || existsb incomplete l) eqn:Hi; simpl.
  - split; [|split].
    + split; [intros [cfg H]; discriminate|]. intros (_ & _ & H).
      apply (existsb_incomplete_false (m :: l)) in H. simpl in H. congruence.
    + intros cfg H; discriminate.
    + intros _. rewrite Hl. eauto.
  - split; [|split].
    + split; [|eauto]. intros _. split; [exact Hn|]. split; [discriminate|].
      apply (existsb_incomplete_false (m :: l)). exact Hi.
    + intros cfg [= <-]. simpl. unfold truthy.
      apply String.eqb_neq in Hn. rewrite Hn. simpl. auto.
    + discriminate.
Qed.

Lemma filter_none {A} (l : list A) : forall k j,
  map snd (List.filter (fun p : nat * A => negb (Nat.eqb (fst p) k))
             (combine (seq (S k + j) (length l)) l)) = l.
Proof.
  induction l as [|y l IH]; intros k j; [reflexivity|].
  cbn [length seq combine List.filter fst].
  destruct (Nat.eqb (S k + j) k) eqn:E; [apply Nat.eqb_eq in E; lia|].
  cbn [negb map snd]. f_equal.
  replace (S (S k + j)) with (S k + S j)%nat by lia. apply IH.
Qed.

Lemma filter_index {A} (l : list A) : forall k i,
  map snd (List.filter (fun p : nat * A => negb (Nat.eqb (fst p) (k + i)))
             (combine (seq k (length l)) l))
  = take i l ++ drop (S i) l.
Proof.
  induction l as [|x l IH]; intros k i.
  - destruct i; reflexivity.
  - cbn [length seq combine List.filter fst].
    destruct i as [|i].
    + rewrite Nat.add_0_r, Nat.eqb_refl. cbn [negb take drop app].
      rewrite drop_0. pose proof (filter_none l k 0%nat) as H.
      rewrite Nat.add_0_r in H. exact H.
    + destruct (Nat.eqb k (k + S i)) eqn:E; [apply Nat.eqb_eq in E; lia|].
      cbn [negb map snd take drop app]. f_equal.
      replace (k + S i)%nat with (S k + i)%nat by lia. apply IH.
Qed.

(** X19.  [removeMapping] takes out the row at the index and keeps the
    others in order; with an index past the last row it changes nothing;
    and removing the row that [addMapping] has just added gives back the
    mappings as they were. *)
Theorem removeMapping_removes_one_row index st :
  f_accountMapping (removeMapping index st)
  = take index (f_accountMapping st) ++ drop (S index) (f_accountMapping st) /\
  ((length (f_accountMapping st) <= index)%nat -> removeMapping index st = st) /\
  ((index < length (f_accountMapping st))%nat ->
   S (length (f_accountMapping (removeMapping index st))) = length (f_accountMapping st)) /\
  removeMapping (length (f_accountMapping st)) (addMapping st) = st.
Proof.
  assert (Hrm : forall i s, f_accountMapping (removeMapping i s)
                            = take i (f_accountMapping s) ++ drop (S i) (f_accountMapping s)).
  { intros i s. unfold removeMapping. simpl. apply (filter_index _ 0%nat i). }
  assert (Hext : forall s l, f_accountMapping s = l -> set_mapping l s = s).
  { intros [a b c d] l H. simpl in H. subst. reflexivity. }
  split; [apply Hrm|]. split; [|split].
  - intros Hge. specialize (Hrm index st). unfold removeMapping in *. simpl in Hrm.
    rewrite Hrm. apply Hext.
    rewrite take_ge, drop_ge, app_nil_r by lia. reflexivity.
  - intros Hlt. rewrite Hrm, length_app, length_take, length_drop. lia.
  - specialize (Hrm (length (f_accountMapping st)) (addMapping st)).
    unfold removeMapping in *. simpl in Hrm. simpl. rewrite Hrm.
    destruct st as [a b l d]. simpl. unfold set_mapping. simpl. f_equal.
    rewrite take_app_length, drop_ge, app_nil_r by (rewrite length_app; simpl; lia).
    reflexivity.
Qed.

(** X20.  [updateMapping] throws when there is no row at the index and
    otherwise sets the one field of that one row: with 'childId' the row
    names the new child and the account it named, with 'psnAccountId' the
    child it named and the new account; the other rows, their number and
    the rest of the form stay as they were. *)
Theorem updateMapping_sets_one_field index field value st :
  (updateMapping index field value st = None <->
   (length (f_accountMapping st) <= index)%nat) /\
  (forall st', updateMapping index field value st = Some st' ->
     length (f_accountMapping st') = length (f_accountMapping st) /\
     (exists m m', f_accountMapping st !! index = Some m /\
        f_accountMapping st' !! index = Some m' /\
        match field with
        | childId_field => m_childId m' = value /\ psnAccountId m' = psnAccountId m
        | psnAccountId_field => psnAccountId m' = value /\ m_childId m' = m_childId m
        end) /\
     (forall j, j <> index -> f_accountMapping st' !! j = f_accountMapping st !! j) /\
     f_npsso st' = f_npsso st /\ f_region st' = f_region st /\ f_error st' = f_error st).
Proof.
  unfold updateMapping.
  destruct (f_accountMapping st !! index) as [m|] eqn:E.
  - pose proof (lookup_lt_Some _ _ _ E) as Hlt. split.
    + split; [discriminate | intros H; lia].
    + intros st' [= <-]. simpl. rewrite length_insert.
      split; [reflexivity|]. split.
      * exists m, (set_field field value m). split; [reflexivity|].
        split; [apply list_lookup_insert_eq; exact Hlt|].
        destruct field; simpl; auto.
      * split; [|auto]. intros j Hj. apply list_lookup_insert_ne. congruence.
  - apply lookup_ge_None in E. split.
    + split; [intros _; exact E | reflexivity].
    + intros st' H. discriminate.
Qed.

(** X21.  Right after [addMapping] the form cannot be saved: the new row
    names neither a child nor an account, so [handleSave] saves nothing,
    and with a token in the form the error shown is the one about
    incomplete mappings. *)
Theorem added_row_blocks_saving st :
  snd (handleSave (addMapping st)) = None /\
  (f_npsso st <> "" ->
   f_error (fst (handleSave (addMapping st))) = Some "All account mappings must be complete").
Proof.
  assert (Hinc : existsb incomplete (f_accountMapping st ++ [mkMapping "" ""]) = true).
  { rewrite existsb_app. simpl. apply orb_true_r. }
  assert (Hlen : (length (f_accountMapping st ++ [mkMapping "" ""]) =? 0)%nat = false).
  { rewrite length_app. simpl. apply Nat.eqb_neq. lia. }
  unfold handleSave, addMapping. simpl. rewrite Hinc, Hlen.
  destruct (String.eqb (f_npsso st) "") eqn:Hn; simpl.
  - split; [reflexivity|]. apply String.eqb_eq in Hn. intros H. contradiction.
  - split; reflexivity.
Qed.

(** X22.  A configuration that was saved from a form with a region opens
    again as the same form, and saving it without a change gives the same
    configuration. *)
Theorem saved_configuration_reopens st cfg :
  snd (handleSave st) = Some cfg ->
  f_region st <> "" ->
  f_npsso (initial (Some cfg)) = f_npsso st /\
  f_region (initial (Some cfg)) = f_region st /\
  f_accountMapping (initial (Some cfg)) = f_accountMapping st /\
  snd (handleSave (initial (Some cfg))) = Some cfg.
Proof.
  intros Hsave Hr. unfold handleSave in Hsave.
  destruct (String.eqb (f_npsso st) "") eqn:Hn; [discriminate|].
  destruct (length (f_accountMapping st) =? 0)%nat eqn:Hl; [discriminate|].
  destruct (existsb incomplete (f_accountMapping st)) eqn:Hi; [discriminate|].
  injection Hsave as <-.
  apply String.eqb_neq in Hr.
  unfold handleSave, initial, string_or. simpl. rewrite Hn, Hr. simpl.
  rewrite Hn, Hl, Hi. auto.
Qed.

Lemma saved_configuration_reopens_witness :
  f_npsso (initial (Some (mkConfig (Some "npsso-1") (Some "en-gb")
                            (Some [mkMapping "child-1" "psn-1"]) None)))
  = f_npsso filled /\
  f_region (initial (Some (mkConfig (Some "npsso-1") (Some "en-gb")
                             (Some [mkMapping "child-1" "psn-1"]) None)))
  = f_region filled /\
  f_accountMapping (initial (Some (mkConfig (Some "npsso-1") (Some "en-gb")
                                     (Some [mkMapping "child-1" "psn-1"]) None)))
  = f_accountMapping filled /\
  snd (handleSave (initial (Some (mkConfig (Some "npsso-1") (Some "en-gb")
                                    (Some [mkMapping "child-1" "psn-1"]) None))))
  = Some (mkConfig (Some "npsso-1") (Some "en-gb") (Some [mkMapping "child-1" "psn-1"]) None).
Proof.
  assert (H1 : snd (handleSave filled)
               = Some (mkConfig (Some "npsso-1") (Some "en-gb")
                         (Some [mkMapping "child-1" "psn-1"]) None))
    by (vm_compute; reflexivity).
  assert (H2 : f_region filled <> "") by (vm_compute; discriminate).
  exact (saved_configuration_reopens filled _ H1 H2).
Defined.

(** Without a region the form does not come back: it opens on 'en-us'. *)
Example empty_region_reopens_as_default :
  snd (handleSave (mkForm "npsso-1" "" [mkMapping "child-1" "psn-1"] None))
  = Some (mkConfig (Some "npsso-1") (Some "") (Some [mkMapping "child-1" "psn-1"]) None) /\
  f_region (initial (Some (mkConfig (Some "npsso-1") (Some "")
                             (Some [mkMapping "child-1" "psn-1"]) None))) = "en-us".
Proof. split; reflexivity. Qed.

End ConfigForm.

(** * Properties of the monitoring poll *)

#[global] Instance same_suspension_refl : Reflexive Monitor.same_suspension.
Proof. intros w id. auto. Qed.

#[global] Instance same_suspension_trans : Transitive Monitor.same_suspension.
Proof.
  intros a b c H1 H2 id. destruct (H1 id) as (? & ? & ?). destruct (H2 id) as (? & ? & ?).
  split; [|split]; congruence.
Qed.

#[global] Instance polled_refl : Reflexive Monitor.polled.
Proof.
  intros h. unfold Monitor.polled.
  split; [reflexivity|]. split; [reflexivity|]. split; [reflexivity|].
  split; [reflexivity|]. split; [|auto]. exists 0%nat. simpl. rewrite app_nil_r. reflexivity.
Qed.

#[global] Instance polled_trans : Transitive Monitor.polled.
Proof.
  intros a b c (L1 & S1 & E1 & Q1 & (n1 & M1) & P1 & I1 & H1)
               (L2 & S2 & E2 & Q2 & (n2 & M2) & P2 & I2 & H2).
  unfold Monitor.polled.
  split; [etransitivity; eassumption|]. split; [etransitivity; eassumption|].
  split; [congruence|]. split; [congruence|].
  split; [|split; [congruence|split; congruence]].
  exists (n1 + n2)%nat. rewrite M2, M1, <- app_assoc, replicate_add. reflexivity.
Qed.

Section MonitorMore.
Import Psn Monitor.

Lemma getPlayTime_methods a w r w' :
  getPlayTime a w = (r, w') ->
  rest_methods (log w') = rest_methods (log w) \/
  rest_methods (log w') = rest_methods (log w) ++ ["GET"].
Proof.
  intros E. rewrite getPlayTime_unfold in E.
  assert (Hq : preserves quiet (cache_get (playTime_key a))) by frame.
  destruct (cache_get (playTime_key a) w) as [[[pt|]|e] w0] eqn:Hget;
    destruct (Hq _ _ _ Hget) as [Hc _].
  - injection E as <- <-. left. unfold rest_methods. rewrite Hc. reflexivity.
  - destruct (request "GET" (users a +:+ "/playTime") None w0) as [r2 w2] eqn:Hreq.
    assert (Hm : rest_methods (log w2) = rest_methods (log w) \/
                 rest_methods (log w2) = rest_methods (log w) ++ ["GET"]).
    { destruct (request_cases _ _ _ _ _ _ Hreq)
        as [(e & _ & _ & Hcalls & _) | (w1 & _ & _ & Hcalls & _)];
        unfold rest_methods; rewrite Hcalls, ?map_app, Hc; auto. }
    destruct r2 as [data|e]; injection E as <- <-; exact Hm.
  - injection E as <- <-. left. unfold rest_methods. simpl. rewrite Hc. reflexivity.
Qed.

Lemma lift_getPlayTime_polled a h r h' :
  lift (getPlayTime a) h = (r, h') ->
  polled h h' /\ usage h' = usage h.
Proof.
  unfold lift. destruct (getPlayTime a (world h)) as [r0 w1] eqn:E.
  intros [= <- <-]. simpl.
  assert (Hun : preserves unchecked (getPlayTime a)) by frame.
  pose proof (Hun _ _ _ E) as Hq.
  pose proof (getPlayTime_later _ _ _ _ E) as Hl.
  pose proof (getPlayTime_same_plugin _ _ _ _ E) as Hself.
  pose proof (getPlayTime_silent _ _ _ _ E) as Hsil.
  pose proof (getPlayTime_methods _ _ _ _ E) as Hm.
  split; [|reflexivity]. unfold polled. simpl.
  split; [exact Hl|]. split.
  { intros id. unfold session_of. rewrite Hself. auto. }
  split; [exact Hsil|]. split; [exact Hq|]. split; [|auto].
  destruct Hm as [Hm|Hm]; [exists 0%nat | exists 1%nat]; rewrite Hm; simpl;
    rewrite ?app_nil_r; reflexivity.
Qed.

Lemma allow2_log_polled cid t g id h r h' :
  allow2_log cid t g id h = (r, h') ->
  polled h h' /\
  usage h' = mkUsage cid t g id (outcome (remote (world h) (calls (world h)))) :: usage h /\
  match r with
  | Return _ => exists d, outcome (remote (world h) (calls (world h))) = Resolved d
  | Throw _ => True
  end.
Proof.
  unfold allow2_log. intros E.
  assert (Hp : polled h {| world := served (world h);
                           usage := mkUsage cid t g id
                                      (outcome (remote (world h) (calls (world h)))) :: usage h;
                           pollingInterval := pollingInterval h;
                           intervals := intervals h; handles := handles h |}).
  { unfold polled. simpl. split.
    { unfold later. simpl. split; [reflexivity|]. split; [lia|]. auto 10. }
    split; [intros id'; unfold session_of; simpl; auto|].
    split; [reflexivity|]. split; [reflexivity|].
    split; [|auto]. exists 0%nat. simpl. rewrite app_nil_r. reflexivity. }
  revert E Hp. generalize (outcome (remote (world h) (calls (world h)))).
  intros [d|e] E Hp; injection E as <- <-; (split; [exact Hp|]);
    (split; [reflexivity|]); eauto.
Qed.

Lemma touch_session_polled id g h r h' :
  lift (bind get (fun w =>
          let session := session_of id w in
          put_session id
            {| suspended := suspended session;
               suspendedAt := suspendedAt session;
               resumedAt := resumedAt session;
               lastActive := Some (now w);
               sessionGame := g |})) h = (r, h') ->
  r = Return tt /\ polled h h' /\ usage h' = usage h.
Proof.
  unfold lift, bind, get, put_session, modify. simpl. intros [= <- <-].
  split; [reflexivity|]. split; [|reflexivity].
  unfold polled. simpl. split.
  { unfold later. simpl. split; [reflexivity|]. split; [lia|]. auto 10. }
  split.
  { intros id'. unfold session_of. simpl.
    destruct (decide (id' = id)) as [->|Hne].
    - rewrite lookup_insert_eq. simpl. auto.
    - rewrite lookup_insert_ne by congruence. auto. }
  split; [reflexivity|]. split; [reflexivity|].
  split; [|auto]. exists 0%nat. simpl. rewrite app_nil_r. reflexivity.
Qed.

(** One account of the round: at most one call of [allow2.log], for this
    account and one minute; when the account is done without an error the
    call, if any, was accepted. *)
Lemma monitor_account_polled a h r h' :
  monitor_account a h = (r, h') ->
  polled h h' /\
  ((usage h' = usage h) \/
   (exists g o, usage h' = mkUsage (childId a) 1 g (accountId a) o :: usage h /\
                (r = Return tt -> exists d, o = Resolved d))).
Proof.
  unfold monitor_account, and_then.
  destruct (lift (getPlayTime (accountId a)) h) as [[pt|e] h1] eqn:E1;
    destruct (lift_getPlayTime_polled _ _ _ _ E1) as [P1 U1].
  2:{ intros [= <- <-]. split; [exact P1|]. left. exact U1. }
  destruct (currentlyPlaying pt).
  2:{ unfold pure. intros [= <- <-]. split; [exact P1|]. left. exact U1. }
  destruct (allow2_log (childId a) 1 (currentGame pt) (accountId a) h1) as [[[]|e] h2] eqn:E2;
    destruct (allow2_log_polled _ _ _ _ _ _ _ E2) as (P2 & U2 & R2).
  - intros E3. destruct (touch_session_polled _ _ _ _ _ E3) as (-> & P3 & U3).
    split; [etransitivity; [exact P1|etransitivity; [exact P2|exact P3]]|].
    right. eexists _, _. rewrite U3, U2, U1. split; [reflexivity|]. intros _. exact R2.
  - intros [= <- <-]. split; [etransitivity; [exact P1|exact P2]|].
    right. eexists _, _. rewrite U2, U1. split; [reflexivity|]. discriminate.
Qed.

Lemma monitor_loop_polled accounts : forall h r h',
  monitor_loop accounts h = (r, h') ->
  polled h h' /\
  exists added,
    usage h' = added ++ usage h /\
    Forall (fun u => u_time u = 1 /\
                     In {| accountId := u_accountId u; childId := u_childId u |} accounts)
           added /\
    sublist (logged_accounts added) (map accountId accounts) /\
    Forall accepted_usage (tail added) /\
    (r = Return tt -> Forall accepted_usage added).
Proof.
  induction accounts as [|a rest IH]; intros h r h'.
  - simpl. unfold pure. intros [= <- <-]. split; [reflexivity|].
    exists []. split; [reflexivity|]. split; [constructor|]. split; [constructor|].
    split; [constructor|]. intros _. constructor.
  - cbn [monitor_loop]. unfold and_then.
    destruct (monitor_account a h) as [[[]|e] h1] eqn:E1;
      destruct (monitor_account_polled _ _ _ _ E1) as [P1 U1].
    + intros E2. destruct (IH _ _ _ E2) as (P2 & added & U2 & F2 & S2 & T2 & R2).
      split; [etransitivity; eassumption|].
      assert (F2' : Forall (fun u => u_time u = 1 /\
                      In {| accountId := u_accountId u; childId := u_childId u |} (a :: rest))
                      added).
      { eapply Forall_impl; [exact F2|]. intros u [? ?]. split; [assumption|]. right. assumption. }
      destruct U1 as [U1 | (g & o & U1 & Ho)].
      * exists added. rewrite U2, U1. split; [reflexivity|]. split; [exact F2'|].
        split; [simpl; apply sublist_cons; exact S2|]. auto.
      * destruct (Ho eq_refl) as [d ->].
        exists (added ++ [mkUsage (childId a) 1 g (accountId a) (Resolved d)]).
        rewrite U2, U1, <- app_assoc. split; [reflexivity|].
        assert (Hacc : accepted_usage (mkUsage (childId a) 1 g (accountId a) (Resolved d))).
        { exists d. reflexivity. }
        split.
        { apply Forall_app. split; [exact F2'|]. constructor; [|constructor]. simpl.
          split; [reflexivity|]. left. destruct a; reflexivity. }
        split.
        { unfold logged_accounts. rewrite map_app, rev_app_distr. simpl.
          apply sublist_skip. exact S2. }
        split.
        { destruct added as [|u added]; [constructor|]. simpl.
          apply Forall_app. split; [exact T2|]. constructor; [exact Hacc|constructor]. }
        intros Hr. apply Forall_app. split; [auto|]. constructor; [exact Hacc|constructor].
    + intros [= <- <-]. split; [exact P1|].
      destruct U1 as [U1 | (g & o & U1 & _)].
      * exists []. split; [exact U1|]. split; [constructor|].
        split; [apply sublist_nil_l|]. split; [constructor|]. discriminate.
      * exists [mkUsage (childId a) 1 g (accountId a) o]. split; [exact U1|].
        split.
        { constructor; [|constructor]. simpl. split; [reflexivity|]. left.
          destruct a; reflexivity. }
        split; [simpl; apply sublist_skip, sublist_nil_l|].
        split; [constructor|]. discriminate.
Qed.

(** X23.  Whatever sequence of [_startMonitoring] and [_stopMonitoring] the
    plugin goes through, there is never more than one timer: the timers set
    and not cleared are exactly the handle held in [pollingInterval], that
    is one after a start and none after a stop, and [monitoring] of
    [getStatus] says which. *)
Theorem at_most_one_poller (switches : list Switch) (w : World) :
  let h := fold_left (fun h s => switch s h) switches (host_of w) in
  intervals h = match pollingInterval h with Some t => [t] | None => [] end /\
  monitoring h = match last switches with Some Start => true | _ => false end /\
  world h = w /\ usage h = [].
Proof.
  induction switches as [|s switches IH] using rev_ind.
  - simpl. auto.
  - cbv zeta in *. rewrite fold_left_app, last_snoc. simpl.
    set (h := fold_left (fun h s => switch s h) switches (host_of w)) in *.
    destruct IH as (Hi & _ & Hw & Hu).
    destruct s; simpl; unfold _startMonitoring, _stopMonitoring, monitoring.
    + destruct (pollingInterval h) as [t|] eqn:Hp.
      * rewrite Hp. auto.
      * simpl. rewrite Hi. auto.
    + destruct (pollingInterval h) as [t|] eqn:Hp.
      * simpl. rewrite Hi. simpl. rewrite Nat.eqb_refl. simpl. auto.
      * rewrite Hp. auto.
Qed.

(** X24.  A round of the poll never throws, whatever the remote side
    answers.  It leaves the timers as they are, suspends and resumes nobody
    (the [suspended], [suspendedAt] and [resumedAt] of every account stay),
    emits nothing, asks for no quota check, and what it sends through the
    queue are only GET requests. *)
Theorem poll_never_throws_or_suspends (h : Host) :
  exists h', _monitorSessions h = (Return tt, h') /\
    same_suspension (world h) (world h') /\
    emitted (log (world h')) = emitted (log (world h)) /\
    quota_checks (log (world h')) = quota_checks (log (world h)) /\
    (exists n, rest_methods (log (world h'))
               = rest_methods (log (world h)) ++ replicate n "GET") /\
    pollingInterval h' = pollingInterval h /\
    intervals h' = intervals h /\
    accountMapping (self (world h')) = accountMapping (self (world h)).
Proof.
  unfold _monitorSessions, attempt.
  destruct (monitor_loop (_getAllPSNAccounts (world h)) h) as [[[]|e] h'] eqn:E;
    destruct (monitor_loop_polled _ _ _ _ E) as [(L & S & Em & Q & M & P & I & _) _];
    exists h'; (split; [reflexivity|]);
    destruct L as (_ & _ & _ & _ & _ & Hmap & _); auto 10.
Qed.

(** X25.  Every call of [allow2.log] a round makes reports one minute, for a
    mapped account and the child mapped to it; the calls follow the order of
    the mapping, with at most one per entry; and only the last of them can
    have failed, since a failure ends the round. *)
Theorem poll_logs_one_minute_per_account (h : Host) :
  exists added,
    usage (snd (_monitorSessions h)) = added ++ usage h /\
    Forall (fun u => u_time u = 1 /\
                     In {| accountId := u_accountId u; childId := u_childId u |}
                        (_getAllPSNAccounts (world h))) added /\
    sublist (logged_accounts added) (map accountId (_getAllPSNAccounts (world h))) /\
    Forall (fun u => exists d, u_outcome u = Resolved d) (tail added).
Proof.
  unfold _monitorSessions, attempt.
  destruct (monitor_loop (_getAllPSNAccounts (world h)) h) as [[[]|e] h'] eqn:E;
    destruct (monitor_loop_polled _ _ _ _ E) as [_ (added & U & F & S & T & _)];
    exists added; simpl; auto.
Qed.

(** X26.  When the play time of the first mapped account cannot be read,
    the round ends there without an error: one GET went through the queue,
    the accounts after it are not polled, and nothing is logged. *)
Theorem failed_poll_skips_the_other_accounts (h : Host) m rest e :
  accountMapping (self (world h)) = m :: rest ->
  cache (psn (world h)) !! playTime_key (psnAccountId m) = None ->
  truthy (accessToken (psn (world h))) = true ->
  expiring (tokenExpiry (psn (world h))) (now (world h)) = false ->
  outcome (remote (world h) (calls (world h))) = Rejected e ->
  fst (_monitorSessions h) = Return tt /\
  usage (snd (_monitorSessions h)) = usage h /\
  rest_calls (log (world (snd (_monitorSessions h))))
  = rest_calls (log (world h))
      ++ [("GET", baseURL +:+ (users (psnAccountId m) +:+ "/playTime"), None, Rejected e)].
Proof.
  intros Hmap Hcache Ha Hx Ho.
  assert (Hget : cache_get (playTime_key (psnAccountId m)) (world h)
                 = (Return None, world h)).
  { unfold cache_get. rewrite Hcache. reflexivity. }
  destruct (getPlayTime_fetches _ _ _ Hget eq_refl eq_refl eq_refl eq_refl eq_refl eq_refl
              Ha Hx) as [Hcalls Hres].
  rewrite Ho in Hcalls, Hres.
  destruct (getPlayTime (psnAccountId m) (world h)) as [r w1] eqn:E.
  simpl in Hres, Hcalls. subst r.
  assert (Hacc : monitor_account {| accountId := psnAccountId m; childId := m_childId m |} h
                 = (Throw (newError ("Failed to get play time: " +:+ message e)),
                    set_world w1 h)).
  { unfold monitor_account, and_then, lift. simpl. rewrite E. reflexivity. }
  unfold _monitorSessions, attempt, _getAllPSNAccounts. rewrite Hmap.
  cbn [map monitor_loop]. unfold and_then. rewrite Hacc. simpl. auto.
Qed.

Lemma failed_poll_skips_the_other_accounts_witness :
  fst (_monitorSessions offline_host) = Return tt /\
  usage (snd (_monitorSessions offline_host)) = usage offline_host /\
  rest_calls (log (world (snd (_monitorSessions offline_host))))
  = rest_calls (log (world offline_host))
      ++ [("GET", baseURL +:+ (users "psn-1" +:+ "/playTime"), None, Rejected network_error)].
Proof.
  assert (H1 : accountMapping (self (world offline_host))
               = mkMapping "child-1" "psn-1" :: [mkMapping "child-2" "psn-2"])
    by (vm_compute; reflexivity).
  assert (H2 : cache (psn (world offline_host)) !! playTime_key "psn-1" = None)
    by (vm_compute; reflexivity).
  assert (H3 : truthy (accessToken (psn (world offline_host))) = true)
    by (vm_compute; reflexivity).
  assert (H4 : expiring (tokenExpiry (psn (world offline_host))) (now (world offline_host))
               = false) by (vm_compute; reflexivity).
  assert (H5 : outcome (remote (world offline_host) (calls (world offline_host)))
               = Rejected network_error) by (vm_compute; reflexivity).
  exact (failed_poll_skips_the_other_accounts offline_host _ _ _ H1 H2 H3 H4 H5).
Defined.

(** A round on two accounts that are both playing: one minute is logged for
    each, in the order of the mapping, and both sessions are stamped. *)
Example round_on_playing_host :
  logged_accounts (usage (snd (_monitorSessions playing_host))) = ["psn-1"; "psn-2"] /\
  map u_time (usage (snd (_monitorSessions playing_host))) = [1; 1] /\
  sessionGame (session_of "psn-2" (world (snd (_monitorSessions playing_host))))
  = Some "Astro Bot" /\
  rest_methods (log (world (snd (_monitorSessions playing_host)))) = ["GET"; "GET"].
Proof. vm_compute. auto. Qed.

End MonitorMore.
